(** * Newton's-method square root with [math.isclose]

    A shallow embedding of [newton_sqrt], from the notebook
    "math.isclose() example: Newton's method", over IEEE 754 binary64
    arithmetic as the Standard Library's [SpecFloat] specifies it, with
    the properties of the solver proved on that embedding.

    Part I holds the program, Part II the vocabulary of the proofs
    (real values of doubles, roundings), Part III the arithmetic of
    binary64, Part IV the analysis of the iteration and Part V the
    properties of [newton_sqrt] themselves; Part VI adds further
    properties of the same code. *)

From Stdlib Require Import ZArith List Bool Lia Reals Lra Psatz.
From Stdlib Require Import Floats.SpecFloat.
Import ListNotations.
Local Open Scope Z_scope.

(** * Part I: the program *)

(** ** IEEE 754 binary64

    Python's [float] is the platform double: 53 bits of precision,
    round-to-nearest-even.  Every operation below is the [SpecFloat]
    operation instantiated at that format. *)

Module B64.

Definition prec : Z := 53.
Definition emax : Z := 1024.

Definition float : Type := spec_float.

Definition add : float -> float -> float := SFadd prec emax.
Definition sub : float -> float -> float := SFsub prec emax.
Definition mul : float -> float -> float := SFmul prec emax.
Definition div : float -> float -> float := SFdiv prec emax.
Definition sqrt : float -> float := SFsqrt prec emax.
Definition abs : float -> float := SFabs.
Definition eqb : float -> float -> bool := SFeqb.
Definition leb : float -> float -> bool := SFleb.

(** The double nearest to an integer (ties to even); an infinity when
    the integer is beyond the format. *)
Definition of_Z (z : Z) : float := binary_normalize prec emax z 0 false.

Definition is_zero (x : float) : bool :=
  match x with S754_zero _ => true | _ => false end.

Definition is_infinity (x : float) : bool :=
  match x with S754_infinity _ => true | _ => false end.

Definition is_nan (x : float) : bool :=
  match x with S754_nan => true | _ => false end.

Definition is_finite (x : float) : bool :=
  match x with S754_zero _ | S754_finite _ _ _ => true | _ => false end.

Definition zero : float := S754_zero false.
Definition infinity : float := S754_infinity false.
Definition nan : float := S754_nan.

(** 2^-1074, the smallest positive double ([5e-324]). *)
Definition min_subnormal : float := S754_finite false 1 (-1074).

(** (2^53 - 1) * 2^971, the largest finite double
    ([sys.float_info.max]). *)
Definition max_float : float := S754_finite false 9007199254740991 971.

End B64.

Definition float : Type := B64.float.

(** ** Python values and exceptions *)

Inductive exn : Type :=
| ZeroDivisionError
| OverflowError
| ValueError.

Inductive result (A : Type) : Type :=
| Return (a : A)
| Raise (e : exn).

Arguments Return {A} a.
Arguments Raise {A} e.

Definition bind {A B : Type} (c : result A) (k : A -> result B) : result B :=
  match c with
  | Return a => k a
  | Raise e => Raise e
  end.

Notation "x <- c ;; k" := (bind c (fun x => k))
  (at level 61, c at next level, right associativity).

(** The argument [n] is whatever number the caller passes: the notebook
    passes [int]s ([100], [range(9, 17)]); a [float] works the same way. *)
Inductive pynum : Type :=
| PyInt (z : Z)
| PyFloat (f : float).

(** An [int] as the exact operand of integer true division. *)
Definition int_operand (z : Z) : float :=
  match z with
  | Z0 => S754_zero false
  | Zpos p => S754_finite false p 0
  | Zneg p => S754_finite true p 0
  end.

(** Conversion of an operand to [float] in a mixed operation: an [int]
    too large for a double raises [OverflowError]. *)
Definition as_float (x : pynum) : result float :=
  match x with
  | PyFloat f => Return f
  | PyInt z =>
      let f := B64.of_Z z in
      if B64.is_infinity f then Raise OverflowError else Return f
  end.

(** [float / float]: a zero divisor raises, anything else is the IEEE
    quotient (infinities and NaN included). *)
Definition float_truediv (a b : float) : result float :=
  if B64.is_zero b then Raise ZeroDivisionError else Return (B64.div a b).

(** [int / int]: the correctly rounded quotient, [OverflowError] when it
    does not fit a double. *)
Definition int_truediv (a b : Z) : result float :=
  if Z.eqb b 0 then Raise ZeroDivisionError
  else
    let f := B64.div (int_operand a) (int_operand b) in
    if B64.is_infinity f then Raise OverflowError else Return f.

(** The operator [/]. *)
Definition truediv (x y : pynum) : result float :=
  match x, y with
  | PyInt a, PyInt b => int_truediv a b
  | _, _ =>
      a <- as_float x ;;
      b <- as_float y ;;
      float_truediv a b
  end.


(** ** [math.isclose] and [math.sqrt] *)

(** The literal [1e-09]: the double nearest to 10^-9, which is the
    correctly rounded quotient of the two exact doubles 1 and 10^9. *)
Definition rel_tol_default : float :=
  Eval vm_compute in B64.div (B64.of_Z 1) (B64.of_Z 1000000000).

Definition abs_tol_default : float := B64.zero.

(** [math.isclose(a, b, rel_tol=..., abs_tol=...)] for non-negative
    tolerances: equal values are close, an infinity is close only to
    itself, otherwise the difference is compared with the tolerances. *)
Definition isclose_tol (rel_tol abs_tol a b : float) : bool :=
  if B64.eqb a b then true
  else if B64.is_infinity a || B64.is_infinity b then false
  else
    let diff := B64.abs (B64.sub b a) in
    B64.leb diff (B64.abs (B64.mul rel_tol b))
    || B64.leb diff (B64.abs (B64.mul rel_tol a))
    || B64.leb diff abs_tol.

Definition isclose : float -> float -> bool :=
  isclose_tol rel_tol_default abs_tol_default.

(** [math.sqrt(x)]: the correctly rounded square root; a negative
    argument raises [ValueError]. *)
Definition math_sqrt (x : pynum) : result float :=
  a <- as_float x ;;
  match a with
  | S754_finite true _ _ | S754_infinity true => Raise ValueError
  | _ => Return (B64.sqrt a)
  end.

(** ** The predicate as the specification words it

    [abs(a - b) <= max(rel_tol * max(abs(a), abs(b)), abs_tol)], each
    operation being Python's. *)



(** ** [newton_sqrt] *)

(** [guess = n / 2] for a [float] argument. *)
Definition first_guess (n : float) : float := B64.div n (B64.of_Z 2).

(** [better_guess = (guess + n/guess) / 2] *)
Definition better_guess (n : pynum) (guess : float) : result float :=
  q <- truediv n (PyFloat guess) ;;
  truediv (PyFloat (B64.add guess q)) (PyInt 2).

(** What one pass through the body of [while True] does: return
    [better_guess], go round again with it, or raise. *)
Inductive step : Type :=
| Done (r : float)
| Next (g : float)
| Fail (e : exn).

Definition loop_body (n : pynum) (guess : float) : step :=
  match better_guess n guess with
  | Raise e => Fail e
  | Return b => if isclose guess b then Done b else Next b
  end.

(** The loop, with the lines [print('guess ->', guess)] collected in
    order.  [None] stands for a run that is still looping when the fuel
    is spent. *)
Fixpoint newton_loop (fuel : nat) (n : pynum) (verbose : bool)
    (guess : float) : list float * option (result float) :=
  match fuel with
  | O => ([], None)
  | S fuel' =>
      let printed := if verbose then [guess] else [] in
      match loop_body n guess with
      | Fail e => (printed, Some (Raise e))
      | Done r => (printed, Some (Return r))
      | Next g =>
          let '(out, res) := newton_loop fuel' n verbose g in
          (printed ++ out, res)
      end
  end.

Definition newton_sqrt (fuel : nat) (n : pynum) (verbose : bool)
    : list float * option (result float) :=
  match truediv n (PyInt 2) with
  | Raise e => ([], Some (Raise e))
  | Return guess => newton_loop fuel n verbose guess
  end.

(** The value [newton_sqrt(n)] returns, when it returns one. *)
Definition returns (n : pynum) (r : float) : Prop :=
  exists fuel, snd (newton_sqrt fuel n false) = Some (Return r).


(** The loop as a relation: from [guess], the guesses printed and the
    way the call ends. *)
Inductive run (n : pynum) : float -> list float -> result float -> Prop :=
| run_done g r : loop_body n g = Done r -> run n g [g] (Return r)
| run_fail g e : loop_body n g = Fail e -> run n g [g] (Raise e)
| run_next g g' tr res :
    loop_body n g = Next g' -> run n g' tr res -> run n g (g :: tr) res.

(** ** The notebook's checks *)

(** [range(9, 17)] *)
Definition sample : list Z := [9; 10; 11; 12; 13; 14; 15; 16].

(** [math.isclose(newton_sqrt(n), math.sqrt(n))] *)
Definition close_to_math_sqrt (fuel : nat) (z : Z) : option bool :=
  match snd (newton_sqrt fuel (PyInt z) false), math_sqrt (PyInt z) with
  | Some (Return computed), Return expected => Some (isclose computed expected)
  | _, _ => None
  end.

(** [delta = computed - expected] *)
Definition delta_from_math_sqrt (fuel : nat) (z : Z) : option float :=
  match snd (newton_sqrt fuel (PyInt z) false), math_sqrt (PyInt z) with
  | Some (Return computed), Return expected => Some (B64.sub computed expected)
  | _, _ => None
  end.

(** [computed == expected], which the notebook shows as a [delta] of
    zero. *)
Definition equal_to_math_sqrt (fuel : nat) (z : Z) : option bool :=
  match snd (newton_sqrt fuel (PyInt z) false), math_sqrt (PyInt z) with
  | Some (Return computed), Return expected => Some (B64.eqb computed expected)
  | _, _ => None
  end.


(** ** Arguments of the solver *)

(** A positive finite double, in canonical form. *)
Definition positive_double (x : float) : bool :=
  match x with
  | S754_finite false m e => bounded B64.prec B64.emax m e
  | _ => false
  end.

(** A positive finite double whose half is not zero: any but 5e-324. *)
Definition admissible (x : float) : bool :=
  positive_double x && negb (B64.eqb x B64.min_subnormal).

(** The argument as the [float] that [n / guess] converts it to. *)
Definition float_of (n : pynum) : float :=
  match n with
  | PyFloat f => f
  | PyInt z => B64.of_Z z
  end.

(** Positive arguments: a positive finite [float], or a positive [int]
    below 2^53 (which converts to [float] without rounding). *)
Definition positive_arg (n : pynum) : bool :=
  match n with
  | PyFloat f => positive_double f
  | PyInt z => (0 <? z) && (z <? 2 ^ 53)
  end.

(** Positive arguments other than the [float] 5e-324. *)
Definition in_domain (n : pynum) : bool :=
  positive_arg n && negb (B64.eqb (float_of n) B64.min_subnormal).

(** * Part II: real values and roundings *)

Definition bpow (e : Z) : R := powerRZ 2 e.

(** The real number [m * 2^e]. *)
Definition F2R (m e : Z) : R := (IZR m * bpow e)%R.

#[global] Arguments bpow : simpl never.
#[global] Arguments F2R : simpl never.

(** The real value of a double (0 for infinities and NaN). *)
Definition B2R (x : spec_float) : R :=
  match x with
  | S754_finite s m e => F2R (cond_Zopp s (Zpos m)) e
  | _ => 0%R
  end.

Definition valid (x : spec_float) : Prop := valid_binary 53 1024 x = true.

(** Positive finite doubles in canonical form. *)
Definition posf (z : spec_float) : Prop :=
  exists p e, z = S754_finite false p e /\ bounded 53 1024 p e = true.

Definition nonnegf (z : spec_float) : Prop := z = S754_zero false \/ posf z.

(** Position of a real [y] with respect to the integer [m] below it. *)
Definition located (m : Z) (l : location) (y : R) : Prop :=
  match l with
  | loc_Exact => y = IZR m
  | loc_Inexact Lt => (IZR m < y < IZR m + / 2)%R
  | loc_Inexact Eq => (y = IZR m + / 2)%R
  | loc_Inexact Gt => (IZR m + / 2 < y < IZR m + 1)%R
  end.

Definition fexp64 (e : Z) : Z := fexp 53 1024 e.

(** The last stage of [binary_round_aux]: renormalise the rounded
    mantissa and detect overflow. *)
Definition pack (sx : bool) (m e : Z) : spec_float :=
  let '(mrs, e') := shr_fexp 53 1024 m e loc_Exact in
  match shr_m mrs with
  | Z0 => S754_zero sx
  | Zpos p => if e' <=? 971 then S754_finite sx p e' else S754_infinity sx
  | Zneg _ => S754_nan
  end.

(** [e] is the exponent of the binade of the positive real [x]. *)
Definition exp_ok (x : R) (e : Z) : Prop :=
  (e = -1074 /\ (x < bpow (-1021))%R)
  \/ (-1074 < e /\ (bpow (e + 52) <= x < bpow (e + 53))%R).

(** [z] is a rounding to nearest of the positive real [x], with sign
    [sx] attached. *)
Definition rounded (sx : bool) (x : R) (z : spec_float) : Prop :=
  exists e m, exp_ok x e /\ 0 <= m /\ (Rabs (IZR m - x / bpow e) <= / 2)%R
              /\ z = pack sx m e.

(** The unit roundoff 2^-53 and half the smallest subnormal. *)
Definition u : R := bpow (-53).
Definition eta : R := bpow (-1075).

Definition cmp_spec (x y : R) (c : comparison) : Prop :=
  match c with
  | Lt => (x < y)%R
  | Eq => x = y
  | Gt => (y < x)%R
  end.

(** A position in the list of positive doubles, to count them. *)
Definition ord (z : spec_float) : Z :=
  match z with
  | S754_finite _ m e => (e + 1074) * 2 ^ 53 + Zpos m
  | _ => 0
  end.

(** The value of the default relative tolerance. *)
Definition rel : R := B2R rel_tol_default.

(** The tolerance [rel_tol * x]. *)
Definition tol (x : float) : float := SFmul 53 1024 rel_tol_default x.

(** The true square root of a double. *)
Definition root (n : float) : R := sqrt (B2R n).

(** Errors with respect to [s] do not increase along a trace. *)
Fixpoint nonincreasing_error (s : R) (l : list float) : Prop :=
  match l with
  | x :: ((y :: _) as tl) =>
      (Rabs (B2R y - s) <= Rabs (B2R x - s))%R /\ nonincreasing_error s tl
  | _ => True
  end.


(** The state of the loop after the first pass. *)
Definition good (n g : float) : Prop :=
  posf g /\ (root n * (1 - 4 * u) <= B2R g <= bpow 1023)%R.

(** A terminating run from [g]: the guesses printed, the value
    returned, and what is known of them. *)
Definition describes (n g : float) (tr : list float) (r : float) : Prop :=
  run (PyFloat n) g tr (Return r)
  /\ Forall (fun x => posf x /\ (root n * (1 - 4 * u) <= B2R x)%R) tr
  /\ nonincreasing_error (root n) tr
  /\ hd g tr = g
  /\ posf r
  /\ (Rabs (B2R r - root n) <= 5 * u * root n)%R.

(** A terminating call: the guesses printed, [tr], the value returned,
    [r], and what is known of them. *)
Definition solves (n : float) (tr : list float) (r : float) : Prop :=
  run (PyFloat n) (first_guess n) tr (Return r)
  /\ hd (first_guess n) tr = first_guess n
  /\ Forall posf tr
  /\ Forall (fun x => (root n * (1 - 4 * u) <= B2R x)%R) (tl tr)
  /\ nonincreasing_error (root n) (tl tr)
  /\ posf r
  /\ (Rabs (B2R r - root n) <= 5 * u * root n)%R.


(** ** Vocabulary of the further properties *)

(** A property of every two consecutive elements of a list. *)
Fixpoint chain {A : Type} (P : A -> A -> Prop) (l : list A) : Prop :=
  match l with
  | x :: ((y :: _) as tl) => P x y /\ chain P tl
  | _ => True
  end.

(** Newton's map for the root [s], [(x + s^2/x) / 2], written as the
    root plus the squared error over [2 x]. *)
Definition newton_map (s x : R) : R := (s + (x - s) * (x - s) / (2 * x))%R.

(** The pass from the guess [x] to [y] follows Newton's map within four
    roundoffs. *)
Definition quadratic_pass (s : R) (x y : float) : Prop :=
  (Rabs (B2R y - newton_map s (B2R x)) <= 4 * u * newton_map s (B2R x))%R.

(** 2^-511, the least double whose square is a normal double. *)
Definition least_normal_root : float := S754_finite false 4503599627370496 (-563).

(** From every guess after the first that is within the factor [1 + t]
    of the root, the loop returns in at most [m] passes. *)
Definition within (n : float) (t : R) (m : nat) : Prop :=
  forall g, good n g -> (B2R g <= root n * (1 + t))%R ->
  exists tr r, run (PyFloat n) g tr (Return r) /\ (length tr <= m)%nat.

(** A negative finite double, in canonical form. *)
Definition negative_double (x : float) : bool :=
  match x with
  | S754_finite true m e => bounded B64.prec B64.emax m e
  | _ => false
  end.

(** What a call with a negative argument can come to: still looping,
    [ZeroDivisionError], or an infinity returned; never a finite
    value, never another exception. *)
Definition no_finite_result (res : option (result float)) : Prop :=
  match res with
  | None => True
  | Some (Raise e) => e = ZeroDivisionError
  | Some (Return r) => B64.is_infinity r = true
  end.

(** 2^1024 - 2^970, the least [int] that does not convert to a
    [float]: it would round to 2^1024. *)
Definition int_limit : Z := 2 ^ 1024 - 2 ^ 970.

(** Negative arguments: a negative finite [float], or a negative [int]
    that converts to a [float]. *)
Definition negative_arg (n : pynum) : bool :=
  match n with
  | PyFloat f => negative_double f
  | PyInt z => (- int_limit <? z) && (z <? 0)
  end.

(** ** The introductory cells

    [three_tenths = .1 + .1 + .1], compared with [.3].  A literal is the
    double nearest to the decimal it writes, here the correctly rounded
    quotient of two small integers. *)





(** * Part III: binary64 arithmetic

    What [SpecFloat]'s operations compute, in terms of real numbers. *)

(** ** Powers of two *)

Section Bpow.
Local Open Scope R_scope.

Lemma bpow_add e1 e2 : bpow (e1 + e2) = bpow e1 * bpow e2.
Proof. unfold bpow. apply powerRZ_add. lra. Qed.

Lemma bpow_pos e : 0 < bpow e.
Proof. unfold bpow. apply powerRZ_lt. lra. Qed.

Lemma bpow_0 : bpow 0 = 1.
Proof. reflexivity. Qed.

Lemma bpow_1 : bpow 1 = 2.
Proof. unfold bpow. simpl. lra. Qed.

Lemma bpow_IZR e : (0 <= e)%Z -> bpow e = IZR (2 ^ e).
Proof.
  intros He. unfold bpow.
  rewrite <- (Z2Nat.id e He) at 1.
  rewrite <- pow_powerRZ, pow_IZR, Z2Nat.id by exact He. reflexivity.
Qed.

Lemma bpow_opp e : bpow (- e) = / bpow e.
Proof. unfold bpow. apply powerRZ_neg'. Qed.

Lemma bpow_ge_1 e : (0 <= e)%Z -> 1 <= bpow e.
Proof.
  intros He. rewrite bpow_IZR by exact He.
  apply IZR_le. assert (0 < 2 ^ e)%Z by (apply Z.pow_pos_nonneg; lia). lia.
Qed.

Lemma bpow_le e1 e2 : (e1 <= e2)%Z -> bpow e1 <= bpow e2.
Proof.
  intros H. replace e2 with (e1 + (e2 - e1))%Z by lia.
  rewrite bpow_add.
  pose proof (bpow_pos e1). pose proof (bpow_ge_1 (e2 - e1) ltac:(lia)). nra.
Qed.

Lemma bpow_lt e1 e2 : (e1 < e2)%Z -> bpow e1 < bpow e2.
Proof.
  intros H. replace e2 with (e1 + 1 + (e2 - e1 - 1))%Z by lia.
  rewrite !bpow_add, bpow_1.
  pose proof (bpow_pos e1). pose proof (bpow_ge_1 (e2 - e1 - 1) ltac:(lia)). nra.
Qed.

Lemma bpow_succ e : bpow (e + 1) = 2 * bpow e.
Proof. rewrite bpow_add, bpow_1. lra. Qed.

Lemma bpow_pred e : bpow (e - 1) = bpow e / 2.
Proof.
  replace e with ((e - 1) + 1)%Z at 2 by lia. rewrite bpow_succ. lra.
Qed.

Lemma bpow_lt_inv e1 e2 : bpow e1 < bpow e2 -> (e1 < e2)%Z.
Proof.
  intros H. destruct (Z_lt_le_dec e1 e2) as [|Hle]; [assumption|].
  apply bpow_le in Hle. lra.
Qed.

Lemma F2R_shift m e k : (0 <= k)%Z -> F2R (m * 2 ^ k) (e - k) = F2R m e.
Proof.
  intros Hk. unfold F2R. rewrite mult_IZR, <- bpow_IZR by exact Hk.
  replace e with ((e - k) + k)%Z at 2 by lia. rewrite bpow_add. lra.
Qed.

End Bpow.

(** Number of binary digits. *)
Lemma digits2_pos_size p : digits2_pos p = Pos.size p.
Proof. induction p; simpl; congruence. Qed.

Lemma Zdigits2_bounds m : 0 < m -> 2 ^ (Zdigits2 m - 1) <= m < 2 ^ (Zdigits2 m).
Proof.
  destruct m as [|p|p]; try lia. intros _. simpl Zdigits2.
  rewrite digits2_pos_size.
  pose proof (Pos.size_gt p) as Hgt. pose proof (Pos.size_le p) as Hle.
  split.
  - assert (H2 : (2 ^ Zpos (Pos.size p) <= 2 * Zpos p)).
    { change (2 * Zpos p) with (Zpos p~0). rewrite <- Pos2Z.inj_pow. apply Pos2Z.pos_le_pos. exact Hle. }
    replace (Zpos (Pos.size p)) with ((Zpos (Pos.size p) - 1) + 1) in H2 by lia.
    rewrite Z.pow_add_r in H2 by lia. lia.
  - rewrite <- Pos2Z.inj_pow. apply Pos2Z.pos_lt_pos. exact Hgt.
Qed.

Lemma Zdigits2_unique m d : 2 ^ (d - 1) <= m < 2 ^ d -> 0 < d -> Zdigits2 m = d.
Proof.
  intros [Hlo Hhi] Hd.
  assert (Hm : 0 < m). { assert (0 < 2 ^ (d - 1)) by (apply Z.pow_pos_nonneg; lia). lia. }
  pose proof (Zdigits2_bounds m Hm) as [Hlo' Hhi'].
  assert (Hd' : 0 < Zdigits2 m) by (destruct m; simpl; lia).
  destruct (Z.lt_trichotomy (Zdigits2 m) d) as [Hlt|[Heq|Hgt]]; [|assumption|].
  - assert (2 ^ Zdigits2 m <= 2 ^ (d - 1)) by (apply Z.pow_le_mono_r; lia). lia.
  - assert (2 ^ d <= 2 ^ (Zdigits2 m - 1)) by (apply Z.pow_le_mono_r; lia). lia.
Qed.

Lemma Zdigits2_nonneg m : 0 <= Zdigits2 m.
Proof. destruct m; simpl; lia. Qed.

Lemma Zdigits2_pos m : 0 < m -> 0 < Zdigits2 m.
Proof. destruct m; simpl; lia. Qed.

Lemma Rabs_le_inv (a b : R) : (Rabs a <= b -> - b <= a <= b)%R.
Proof. unfold Rabs. destruct (Rcase_abs a); lra. Qed.

(** ** Shifting and rounding a located value *)

Lemma located_bounds m l y : located m l y -> (IZR m <= y < IZR m + 1)%R.
Proof. destruct l as [|[| |]]; simpl; lra. Qed.

Lemma loc_of_shr_record_of_loc m l :
  loc_of_shr_record (shr_record_of_loc m l) = l.
Proof. destruct l as [|[| |]]; reflexivity. Qed.

Lemma shr_m_shr_record_of_loc m l : shr_m (shr_record_of_loc m l) = m.
Proof. destruct l as [|[| |]]; reflexivity. Qed.

Lemma shr_1_located mrs y :
  0 <= shr_m mrs ->
  located (shr_m mrs) (loc_of_shr_record mrs) y ->
  located (shr_m (shr_1 mrs)) (loc_of_shr_record (shr_1 mrs)) (y / 2)
  /\ shr_m (shr_1 mrs) = shr_m mrs / 2.
Proof.
  destruct mrs as [m r s]. simpl shr_m. intros Hm Hy.
  destruct m as [|p|p]; [| |lia].
  - (* m = 0 *)
    destruct r, s; simpl in *; split; try reflexivity; lra.
  - destruct p as [p|p|].
    + (* 2p+1 *)
      assert (E : Zpos p~1 / 2 = Zpos p) by (rewrite Pos2Z.inj_xI; symmetry; apply Z.div_unique with 1; lia).
      assert (R : IZR (Zpos p~1) = (2 * IZR (Zpos p) + 1)%R)
        by (rewrite Pos2Z.inj_xI, plus_IZR, mult_IZR; reflexivity).
      destruct r, s; simpl in Hy |- *; rewrite ?R in Hy; (split; [lra | symmetry; exact E]).
    + assert (E : Zpos p~0 / 2 = Zpos p) by (rewrite Pos2Z.inj_xO; symmetry; apply Z.div_unique with 0; lia).
      assert (R : IZR (Zpos p~0) = (2 * IZR (Zpos p))%R)
        by (rewrite Pos2Z.inj_xO, mult_IZR; reflexivity).
      destruct r, s; simpl in Hy |- *; rewrite ?R in Hy; (split; [lra | symmetry; exact E]).
    + destruct r, s; simpl in Hy |- *; (split; [lra | reflexivity]).
Qed.

Lemma shr_1_nonneg mrs : 0 <= shr_m mrs -> 0 <= shr_m (shr_1 mrs).
Proof.
  destruct mrs as [m r s]. simpl. destruct m as [|[p|p|]|p]; simpl; lia.
Qed.

Lemma iter_shr_1_located p : forall mrs y,
  0 <= shr_m mrs ->
  located (shr_m mrs) (loc_of_shr_record mrs) y ->
  located (shr_m (iter_pos shr_1 p mrs)) (loc_of_shr_record (iter_pos shr_1 p mrs))
          (y / IZR (2 ^ Zpos p))
  /\ shr_m (iter_pos shr_1 p mrs) = shr_m mrs / 2 ^ Zpos p
  /\ 0 <= shr_m (iter_pos shr_1 p mrs).
Proof.
  induction p as [p IH|p IH|]; intros mrs y Hm Hy; simpl iter_pos.
  - destruct (shr_1_located mrs y Hm Hy) as [L1 E1].
    pose proof (shr_1_nonneg mrs Hm) as N1.
    destruct (IH _ _ N1 L1) as (L2 & E2 & N2).
    destruct (IH _ _ N2 L2) as (L3 & E3 & N3).
    assert (P : (0 < 2 ^ Zpos p)) by (apply Z.pow_pos_nonneg; lia).
    assert (Q : 2 ^ Zpos p~1 = 2 * 2 ^ Zpos p * 2 ^ Zpos p).
    { replace (Zpos p~1) with (1 + Zpos p + Zpos p) by lia.
      rewrite !Z.pow_add_r by lia. change (2 ^ 1) with 2. lia. }
    split; [|split; [|exact N3]].
    + replace (y / IZR (2 ^ Zpos p~1))%R with (y / 2 / IZR (2 ^ Zpos p) / IZR (2 ^ Zpos p))%R; [exact L3|].
      rewrite Q, !mult_IZR. field. apply not_0_IZR. lia.
    + rewrite E3, E2, E1, Q. rewrite !Z.div_div by lia. f_equal. lia.
  - destruct (IH _ _ Hm Hy) as (L2 & E2 & N2).
    destruct (IH _ _ N2 L2) as (L3 & E3 & N3).
    assert (P : (0 < 2 ^ Zpos p)) by (apply Z.pow_pos_nonneg; lia).
    assert (Q : 2 ^ Zpos p~0 = 2 ^ Zpos p * 2 ^ Zpos p).
    { replace (Zpos p~0) with (Zpos p + Zpos p) by lia.
      rewrite Z.pow_add_r by lia. reflexivity. }
    split; [|split; [|exact N3]].
    + replace (y / IZR (2 ^ Zpos p~0))%R with (y / IZR (2 ^ Zpos p) / IZR (2 ^ Zpos p))%R; [exact L3|].
      rewrite Q, !mult_IZR. field. apply not_0_IZR. lia.
    + rewrite E3, E2, Q. rewrite !Z.div_div by lia. reflexivity.
  - destruct (shr_1_located mrs y Hm Hy) as [L1 E1].
    pose proof (shr_1_nonneg mrs Hm) as N1.
    split; [|split; [|exact N1]].
    + change (2 ^ 1) with 2. exact L1.
    + rewrite E1. reflexivity.
Qed.

(** Rounding to nearest, ties to even, of a located real. *)
Lemma round_nearest_even_spec m l y :
  located m l y ->
  (Rabs (IZR (round_nearest_even m l) - y) <= / 2)%R
  /\ m <= round_nearest_even m l <= m + 1.
Proof.
  destruct l as [|[| |]]; simpl; intros Hy.
  - subst y. split; [|lia]. rewrite Rminus_diag, Rabs_R0. lra.
  - destruct (Z.even m); rewrite ?plus_IZR; (split; [|lia]); subst y;
      apply Rabs_le; lra.
  - split; [|lia]. apply Rabs_le; lra.
  - split; [|lia]. rewrite plus_IZR. apply Rabs_le; lra.
Qed.

(** ** What [binary_round_aux] computes *)

Lemma fexp64_eq e : fexp64 e = Z.max (e - 53) (-1074).
Proof. reflexivity. Qed.

Lemma binary_round_aux_pack sx mx ex lx :
  binary_round_aux 53 1024 sx mx ex lx =
  pack sx (round_nearest_even (shr_m (fst (shr_fexp 53 1024 mx ex lx)))
                              (loc_of_shr_record (fst (shr_fexp 53 1024 mx ex lx))))
          (snd (shr_fexp 53 1024 mx ex lx)).
Proof.
  unfold binary_round_aux, pack.
  destruct (shr_fexp 53 1024 mx ex lx) as [mrs' e']. reflexivity.
Qed.

Lemma shr_fexp_spec mx ex lx y :
  0 <= mx -> located mx lx y -> ex <= fexp64 (Zdigits2 mx + ex) ->
  let e1 := fexp64 (Zdigits2 mx + ex) in
  let mrs := fst (shr_fexp 53 1024 mx ex lx) in
  snd (shr_fexp 53 1024 mx ex lx) = e1
  /\ located (shr_m mrs) (loc_of_shr_record mrs) (y / IZR (2 ^ (e1 - ex)))
  /\ shr_m mrs = mx / 2 ^ (e1 - ex).
Proof.
  intros Hm Hy He e1 mrs. unfold mrs, shr_fexp, shr.
  fold (fexp64 (Zdigits2 mx + ex)). fold e1.
  destruct (e1 - ex) as [|p|p] eqn:K; [| |unfold e1 in K; lia].
  - simpl fst; simpl snd. rewrite loc_of_shr_record_of_loc, shr_m_shr_record_of_loc.
    split; [lia|]. split.
    + change (2 ^ 0) with 1. rewrite Rdiv_1_r. exact Hy.
    + change (2 ^ 0) with 1. rewrite Z.div_1_r. reflexivity.
  - simpl fst; simpl snd. split; [lia|].
    destruct (iter_shr_1_located p (shr_record_of_loc mx lx) y) as (L & E & _).
    + rewrite shr_m_shr_record_of_loc. exact Hm.
    + rewrite loc_of_shr_record_of_loc, shr_m_shr_record_of_loc. exact Hy.
    + rewrite shr_m_shr_record_of_loc in E. split; assumption.
Qed.

Lemma pack_zero sx e : -1074 <= e -> pack sx 0 e = S754_zero sx.
Proof.
  intros He. unfold pack, shr_fexp, shr. simpl Zdigits2.
  destruct (fexp 53 1024 (0 + e) - e) as [|p|p] eqn:K; try reflexivity.
  exfalso. change (fexp 53 1024 (0 + e)) with (fexp64 (0 + e)) in K.
  rewrite fexp64_eq in K. lia.
Qed.

Lemma pack_small sx p e :
  Zpos p < 2 ^ 53 -> -1074 <= e -> (-1074 < e -> 2 ^ 52 <= Zpos p) ->
  pack sx (Zpos p) e = if e <=? 971 then S754_finite sx p e else S754_infinity sx.
Proof.
  intros Hp He Hn. unfold pack, shr_fexp, shr.
  change (fexp 53 1024 (Zdigits2 (Zpos p) + e)) with (fexp64 (Zdigits2 (Zpos p) + e)).
  assert (K : fexp64 (Zdigits2 (Zpos p) + e) - e = 0).
  { rewrite fexp64_eq.
    pose proof (Zdigits2_bounds (Zpos p) ltac:(lia)) as [Hlo Hhi].
    assert (D : Zdigits2 (Zpos p) <= 53).
    { destruct (Z_le_gt_dec (Zdigits2 (Zpos p)) 53) as [|G]; [assumption|].
      assert (2 ^ 53 <= 2 ^ (Zdigits2 (Zpos p) - 1)) by (apply Z.pow_le_mono_r; lia). lia. }
    destruct (Z.eq_dec e (-1074)) as [->|Hne]; [lia|].
    assert (D' : Zdigits2 (Zpos p) = 53).
    { apply Zdigits2_unique; [|lia]. split; [apply Hn; lia | exact Hp]. }
    lia. }
  rewrite K. reflexivity.
Qed.

Lemma pack_carry sx e :
  -1074 <= e ->
  pack sx (2 ^ 53) e =
  if e + 1 <=? 971 then S754_finite sx (2 ^ 52) (e + 1) else S754_infinity sx.
Proof.
  intros He. unfold pack, shr_fexp, shr.
  change (fexp 53 1024 (Zdigits2 (2 ^ 53) + e)) with (fexp64 (Zdigits2 (2 ^ 53) + e)).
  assert (K : fexp64 (Zdigits2 (2 ^ 53) + e) - e = 1).
  { rewrite fexp64_eq. change (Zdigits2 (2 ^ 53)) with 54. lia. }
  rewrite K. reflexivity.
Qed.

(** What [binary_round_aux] computes: the integer nearest to the scaled
    value, on the grid of the value's binade. *)
Lemma binary_round_aux_spec sx mx ex lx (x : R) :
  0 <= mx -> located mx lx (x / bpow ex) ->
  ex <= fexp64 (Zdigits2 mx + ex) ->
  let e1 := fexp64 (Zdigits2 mx + ex) in
  exists m2,
    binary_round_aux 53 1024 sx mx ex lx = pack sx m2 e1
    /\ (Rabs (IZR m2 - x / bpow e1) <= / 2)%R
    /\ 0 <= m2 <= 2 ^ 53
    /\ (-1074 < e1 -> 2 ^ 52 <= m2).
Proof.
  intros Hm Hx He e1.
  destruct (shr_fexp_spec mx ex lx _ Hm Hx He) as (E1 & L & M).
  fold e1 in E1, L, M.
  set (mrs := fst (shr_fexp 53 1024 mx ex lx)) in *.
  exists (round_nearest_even (shr_m mrs) (loc_of_shr_record mrs)).
  destruct (round_nearest_even_spec _ _ _ L) as [Hr Hb].
  assert (K0 : 0 <= e1 - ex) by (unfold e1; lia).
  assert (P : 0 < 2 ^ (e1 - ex)) by (apply Z.pow_pos_nonneg; lia).
  split; [|split; [|split]].
  - rewrite binary_round_aux_pack. fold mrs. rewrite E1. reflexivity.
  - replace (x / bpow e1)%R with (x / bpow ex / IZR (2 ^ (e1 - ex)))%R; [exact Hr|].
    rewrite <- bpow_IZR by lia.
    replace e1 with (ex + (e1 - ex)) at 2 by lia. rewrite bpow_add.
    field. split; apply Rgt_not_eq, bpow_pos.
  - assert (M0 : 0 <= shr_m mrs) by (rewrite M; apply Z.div_pos; lia).
    split; [lia|].
    assert (shr_m mrs < 2 ^ 53); [|lia].
    rewrite M. apply Z.div_lt_upper_bound; [lia|].
    destruct (Z.eq_dec mx 0) as [->|Hne]; [lia|].
    pose proof (Zdigits2_bounds mx ltac:(lia)) as [_ Hhi].
    eapply Z.lt_le_trans; [exact Hhi|].
    rewrite <- Z.pow_add_r by lia. apply Z.pow_le_mono_r; [lia|].
    unfold e1. rewrite fexp64_eq. lia.
  - intros Hn.
    assert (2 ^ 52 <= shr_m mrs); [|lia].
    rewrite M.
    destruct (Z.eq_dec mx 0) as [->|Hne].
    { exfalso. unfold e1 in Hn, He. rewrite fexp64_eq in Hn, He. simpl Zdigits2 in *. lia. }
    pose proof (Zdigits2_bounds mx ltac:(lia)) as [Hlo _].
    assert (Ee : e1 = Zdigits2 mx + ex - 53) by (unfold e1 in *; rewrite fexp64_eq in *; lia).
    apply Z.div_le_lower_bound; [lia|].
    rewrite <- Z.pow_add_r by lia.
    replace (e1 - ex + 52) with (Zdigits2 mx - 1) by lia. exact Hlo.
Qed.

(** ** Roundings and their error *)

Lemma bounded_iff p e :
  bounded 53 1024 p e = true <->
  (Zpos p < 2 ^ 53 /\ -1074 <= e <= 971 /\ (-1074 < e -> 2 ^ 52 <= Zpos p)).
Proof.
  unfold bounded, canonical_mantissa.
  change (fexp 53 1024 (Zpos (digits2_pos p) + e)) with (fexp64 (Zdigits2 (Zpos p) + e)).
  change (1024 - 53) with 971.
  rewrite andb_true_iff, Z.eqb_eq, Z.leb_le, fexp64_eq.
  pose proof (Zdigits2_bounds (Zpos p) ltac:(lia)) as [Hlo Hhi].
  pose proof (Zdigits2_pos (Zpos p) ltac:(lia)) as Hd.
  split.
  - intros [Hc He].
    assert (D : Zdigits2 (Zpos p) <= 53) by lia.
    split; [|split; [lia|]].
    + eapply Z.lt_le_trans; [exact Hhi|]. apply Z.pow_le_mono_r; lia.
    + intros Hn. assert (D' : Zdigits2 (Zpos p) = 53) by lia.
      rewrite D' in Hlo. exact Hlo.
  - intros (Hp & He & Hn). split; [|lia].
    assert (D : Zdigits2 (Zpos p) <= 53).
    { destruct (Z_le_gt_dec (Zdigits2 (Zpos p)) 53) as [|G]; [assumption|].
      assert (2 ^ 53 <= 2 ^ (Zdigits2 (Zpos p) - 1)) by (apply Z.pow_le_mono_r; lia). lia. }
    destruct (Z.eq_dec e (-1074)) as [->|Hne]; [lia|].
    assert (D' : Zdigits2 (Zpos p) = 53).
    { apply Zdigits2_unique; [|lia]. split; [apply Hn; lia | exact Hp]. }
    lia.
Qed.

Lemma IZR_pow2 k : 0 <= k -> IZR (2 ^ k) = bpow k.
Proof. intros. symmetry. apply bpow_IZR. assumption. Qed.

Lemma scaled_lt x e k : (x < bpow (e + k) -> x / bpow e < bpow k)%R.
Proof.
  intros H. pose proof (bpow_pos e).
  apply Rmult_lt_reg_r with (bpow e); [assumption|].
  unfold Rdiv. rewrite Rmult_assoc, Rinv_l by lra.
  rewrite Rmult_1_r, <- bpow_add. replace (k + e) with (e + k) by lia. exact H.
Qed.

Lemma scaled_le x e k : (bpow (e + k) <= x -> bpow k <= x / bpow e)%R.
Proof.
  intros H. pose proof (bpow_pos e).
  apply Rmult_le_reg_r with (bpow e); [assumption|].
  unfold Rdiv. rewrite Rmult_assoc, Rinv_l by lra.
  rewrite Rmult_1_r, <- bpow_add. replace (k + e) with (e + k) by lia. exact H.
Qed.

Lemma exp_ok_ge x e : exp_ok x e -> -1074 <= e.
Proof. intros [[-> _]|[H _]]; lia. Qed.

Lemma rounded_mantissa x e m :
  exp_ok x e -> (Rabs (IZR m - x / bpow e) <= / 2)%R ->
  m <= 2 ^ 53 /\ (-1074 < e -> 2 ^ 52 <= m).
Proof.
  intros He Hm. apply Rabs_le_inv in Hm.
  assert (U : (x / bpow e < bpow 53)%R).
  { destruct He as [[-> Hx]|[_ [_ Hx]]]; apply scaled_lt; [|exact Hx].
    eapply Rlt_le_trans; [exact Hx|]. apply bpow_le. lia. }
  split.
  - rewrite <- (IZR_pow2 53) in U by lia.
    assert (IZR m < IZR (2 ^ 53 + 1))%R by (rewrite plus_IZR; lra).
    apply lt_IZR in H. lia.
  - intros Hn. destruct He as [[-> _]|[_ [Hx _]]]; [lia|].
    apply scaled_le in Hx. rewrite <- (IZR_pow2 52) in Hx by lia.
    assert (IZR (2 ^ 52 - 1) < IZR m)%R by (rewrite minus_IZR; lra).
    apply lt_IZR in H. lia.
Qed.

(** A rounding that does not overflow is a valid double whose value is
    the rounded mantissa on the binade's grid. *)
Lemma pack_value sx m e :
  0 <= m <= 2 ^ 53 -> -1074 <= e -> (-1074 < e -> 2 ^ 52 <= m) ->
  pack sx m e = S754_infinity sx
  \/ (valid (pack sx m e)
      /\ B2R (pack sx m e) = F2R (cond_Zopp sx m) e
      /\ (m = 0 -> pack sx m e = S754_zero sx)
      /\ (0 < m -> exists p e', pack sx m e = S754_finite sx p e')).
Proof.
  intros [Hm0 Hm1] He Hn.
  destruct (Z.eq_dec m 0) as [->|Hne0].
  { right. rewrite pack_zero by exact He. repeat split; try reflexivity.
    - unfold B2R, F2R. destruct sx; simpl; lra.
    - intros; lia. }
  destruct (Z.eq_dec m (2 ^ 53)) as [->|Hne1].
  { rewrite pack_carry by exact He.
    destruct (e + 1 <=? 971) eqn:Le; [right | left; reflexivity].
    apply Z.leb_le in Le. split; [|split; [|split]].
    - unfold valid, valid_binary. apply bounded_iff. lia.
    - unfold B2R.
      replace (cond_Zopp sx (2 ^ 53)) with (cond_Zopp sx (Zpos (2 ^ 52)) * 2 ^ 1)
        by (destruct sx; reflexivity).
      replace e with (e + 1 - 1) at 2 by lia. symmetry. apply F2R_shift. lia.
    - intros H. discriminate H.
    - intros _. eauto. }
  destruct m as [|p|p]; try lia.
  rewrite pack_small by (try lia; exact Hn).
  destruct (e <=? 971) eqn:Le; [right | left; reflexivity].
  apply Z.leb_le in Le. split; [|split; [|split]].
  - unfold valid, valid_binary. apply bounded_iff. split; [lia|]. split; [lia|exact Hn].
  - reflexivity.
  - intros H; discriminate H.
  - intros _. eauto.
Qed.

Lemma rounded_no_overflow sx x z :
  rounded sx x z -> (x < bpow 1024 - bpow 970)%R -> z <> S754_infinity sx.
Proof.
  intros (e & m & He & Hm0 & Hm & ->) Hx.
  pose proof (rounded_mantissa _ _ _ He Hm) as [Hm1 Hn].
  pose proof (exp_ok_ge _ _ He) as Hge.
  assert (E : e <= 971).
  { destruct He as [[-> _]|[_ [Hlo _]]]; [lia|].
    assert (bpow (e + 52) < bpow 1024)%R by (pose proof (bpow_pos 970); lra).
    apply bpow_lt_inv in H. lia. }
  destruct (Z.eq_dec m 0) as [->|Hne0].
  { rewrite pack_zero by exact Hge. discriminate. }
  destruct (Z.eq_dec m (2 ^ 53)) as [->|Hne1].
  { rewrite pack_carry by exact Hge.
    destruct (Z.eq_dec e 971) as [->|Hne].
    - exfalso. apply Rabs_le_inv in Hm.
      assert (x / bpow 971 < bpow 53 - / 2)%R.
      { apply Rmult_lt_reg_r with (bpow 971); [apply bpow_pos|].
        unfold Rdiv. rewrite Rmult_assoc, Rinv_l by (apply Rgt_not_eq, bpow_pos).
        rewrite Rmult_1_r, Rmult_minus_distr_r, <- bpow_add.
        replace (/ 2 * bpow 971)%R with (bpow 970).
        - exact Hx.
        - replace 971 with (970 + 1) by lia. rewrite bpow_succ. lra. }
      rewrite (IZR_pow2 53) in Hm by lia. lra.
    - replace (e + 1 <=? 971) with true by (symmetry; apply Z.leb_le; lia). discriminate. }
  destruct m as [|p|p]; try lia.
  rewrite pack_small by (try lia; exact Hn).
  replace (e <=? 971) with true by (symmetry; apply Z.leb_le; lia). discriminate.
Qed.

(** The error of a rounding that does not overflow: half a unit in the
    last place, that is at most [u * x], or [eta] below the normal range. *)
Lemma rounded_error sx x z :
  rounded sx x z -> (0 < x)%R -> z <> S754_infinity sx ->
  valid z
  /\ (Rabs (Rabs (B2R z) - x) <= Rmax (u * x) eta)%R
  /\ (z = S754_zero sx \/ exists p e, z = S754_finite sx p e).
Proof.
  intros (e & m & He & Hm0 & Hm & ->) Hx Hz.
  pose proof (rounded_mantissa _ _ _ He Hm) as [Hm1 Hn].
  pose proof (exp_ok_ge _ _ He) as Hge.
  destruct (pack_value sx m e (conj Hm0 Hm1) Hge Hn) as [Hinf|(Hv & Hval & Hzero & Hpos)];
    [contradiction|].
  split; [exact Hv|]. split.
  - rewrite Hval.
    assert (A : Rabs (F2R (cond_Zopp sx m) e) = F2R m e).
    { unfold F2R. pose proof (bpow_pos e). pose proof (IZR_le _ _ Hm0).
      destruct sx; simpl cond_Zopp; rewrite ?opp_IZR.
      - rewrite Rabs_left1; nra.
      - rewrite Rabs_right; nra. }
    rewrite A.
    assert (B : (Rabs (F2R m e - x) <= bpow (e - 1))%R).
    { unfold F2R. pose proof (bpow_pos e) as Pe.
      replace (IZR m * bpow e - x)%R with ((IZR m - x / bpow e) * bpow e)%R
        by (field; lra).
      rewrite Rabs_mult, (Rabs_right (bpow e)) by lra.
      rewrite bpow_pred. nra. }
    eapply Rle_trans; [exact B|].
    destruct He as [[-> _]|[Hgt [Hlo _]]].
    + apply Rmax_r.
    + eapply Rle_trans; [|apply Rmax_l].
      unfold u. replace (e - 1) with (-53 + (e + 52)) by lia.
      rewrite bpow_add. pose proof (bpow_pos (-53)). nra.
  - destruct (Z.eq_dec m 0) as [->|Hne]; [left; apply Hzero; reflexivity|].
    right. apply Hpos. lia.
Qed.

(** ** Multiplication and addition *)

Lemma located_exp_ok mx ex lx x :
  0 <= mx -> located mx lx (x / bpow ex) ->
  ex <= fexp64 (Zdigits2 mx + ex) ->
  exp_ok x (fexp64 (Zdigits2 mx + ex)).
Proof.
  intros Hm Hx He. apply located_bounds in Hx. destruct Hx as [Hlo Hhi].
  pose proof (bpow_pos ex) as Pe.
  assert (Xlo : (F2R mx ex <= x)%R).
  { unfold F2R. apply Rmult_le_reg_r with (/ bpow ex)%R; [apply Rinv_0_lt_compat; lra|].
    rewrite Rmult_assoc, Rinv_r by lra. unfold Rdiv in Hlo. lra. }
  assert (Xhi : (x < F2R (mx + 1) ex)%R).
  { unfold F2R. rewrite plus_IZR. apply Rmult_lt_reg_r with (/ bpow ex)%R; [apply Rinv_0_lt_compat; lra|].
    rewrite Rmult_assoc, Rinv_r by lra. unfold Rdiv in Hhi. lra. }
  rewrite fexp64_eq in He |- *.
  destruct (Z.eq_dec mx 0) as [->|Hne].
  - simpl Zdigits2 in *. left. split; [lia|].
    unfold F2R in Xhi. simpl in Xhi. rewrite Rmult_1_l in Xhi.
    eapply Rlt_le_trans; [exact Xhi|]. apply bpow_le. lia.
  - pose proof (Zdigits2_bounds mx ltac:(lia)) as [Dlo Dhi].
    pose proof (Zdigits2_pos mx ltac:(lia)) as Dp.
    set (d := Zdigits2 mx) in *.
    assert (Ylo : (bpow (d - 1 + ex) <= x)%R).
    { eapply Rle_trans; [|exact Xlo]. unfold F2R. rewrite bpow_add.
      rewrite <- (IZR_pow2 (d - 1)) by lia. apply Rmult_le_compat_r; [lra|]. apply IZR_le. exact Dlo. }
    assert (Yhi : (x < bpow (d + ex))%R).
    { eapply Rlt_le_trans; [exact Xhi|]. unfold F2R. rewrite bpow_add.
      rewrite <- (IZR_pow2 d) by lia. apply Rmult_le_compat_r; [lra|]. apply IZR_le. lia. }
    destruct (Z_le_gt_dec (d + ex - 53) (-1074)) as [Hs|Hn].
    + left. split; [lia|]. eapply Rlt_le_trans; [exact Yhi|]. apply bpow_le. lia.
    + right. replace (Z.max (d + ex - 53) (-1074)) with (d + ex - 53) by lia.
      split; [lia|]. split.
      * replace (d + ex - 53 + 52) with (d - 1 + ex) by lia. exact Ylo.
      * replace (d + ex - 53 + 53) with (d + ex) by lia. exact Yhi.
Qed.

Lemma binary_round_aux_rounded sx mx ex lx x :
  0 <= mx -> located mx lx (x / bpow ex) ->
  ex <= fexp64 (Zdigits2 mx + ex) ->
  rounded sx x (binary_round_aux 53 1024 sx mx ex lx).
Proof.
  intros Hm Hx He.
  destruct (binary_round_aux_spec sx mx ex lx x Hm Hx He) as (m2 & E & Hr & Hb & _).
  exists (fexp64 (Zdigits2 mx + ex)), m2.
  split; [eapply located_exp_ok; eassumption|].
  split; [lia|]. split; assumption.
Qed.

Lemma shl_align_spec mx ex ez :
  ez <= ex ->
  Zpos (fst (shl_align mx ex ez)) = Zpos mx * 2 ^ (ex - ez)
  /\ snd (shl_align mx ex ez) = ez.
Proof.
  intros H. unfold shl_align.
  destruct (ez - ex) as [|p|p] eqn:K; try lia.
  - simpl. replace (ex - ez) with 0 by lia. simpl. lia.
  - simpl. split; [|reflexivity].
    change (Pos.iter xO mx p) with (shift_pos p mx).
    rewrite shift_pos_correct. replace (ex - ez) with (Zpos p) by lia.
    change (Zpower_pos 2 p) with (2 ^ Zpos p). apply Z.mul_comm.
Qed.

Lemma shl_align_keep mx ex ez :
  ex <= ez -> shl_align mx ex ez = (mx, ex).
Proof.
  intros H. unfold shl_align. destruct (ez - ex) as [|p|p] eqn:K; try lia; reflexivity.
Qed.

Lemma Zdigits2_shift m k : 0 < m -> 0 <= k -> Zdigits2 (m * 2 ^ k) = Zdigits2 m + k.
Proof.
  intros Hm Hk. pose proof (Zdigits2_bounds m Hm) as [Hlo Hhi].
  pose proof (Zdigits2_pos m Hm) as Hd.
  assert (P : 0 < 2 ^ k) by (apply Z.pow_pos_nonneg; lia).
  apply Zdigits2_unique; [|lia]. split.
  - replace (Zdigits2 m + k - 1) with (Zdigits2 m - 1 + k) by lia.
    rewrite Z.pow_add_r by lia. nia.
  - rewrite Z.pow_add_r by lia. nia.
Qed.

(** [binary_round] rounds [m * 2^e] to nearest, whatever [m] and [e]. *)
Lemma binary_round_rounded sx m e :
  rounded sx (F2R (Zpos m) e) (binary_round 53 1024 sx m e).
Proof.
  unfold binary_round.
  change (fexp 53 1024 (Zpos (digits2_pos m) + e)) with (fexp64 (Zdigits2 (Zpos m) + e)).
  set (e1 := fexp64 (Zdigits2 (Zpos m) + e)).
  destruct (Z_le_gt_dec e e1) as [Hle|Hgt].
  - rewrite shl_align_keep by exact Hle.
    apply binary_round_aux_rounded; [lia| |exact Hle].
    simpl. unfold F2R. field. apply Rgt_not_eq, bpow_pos.
  - destruct (shl_align_spec m e e1 ltac:(lia)) as [Em Ee].
    destruct (shl_align m e e1) as [mz ez]. cbn [fst snd] in Em, Ee. subst ez.
    assert (D : Zdigits2 (Zpos mz) + e1 = Zdigits2 (Zpos m) + e).
    { rewrite Em, Zdigits2_shift by lia. lia. }
    apply binary_round_aux_rounded; [lia| |].
    + simpl. rewrite Em. rewrite <- (F2R_shift (Zpos m) e (e - e1)) by lia.
      replace (e - (e - e1)) with e1 by lia. unfold F2R. field.
      apply Rgt_not_eq, bpow_pos.
    + rewrite D. fold e1. lia.
Qed.

Lemma F2R_pos p e : (0 < F2R (Zpos p) e)%R.
Proof.
  unfold F2R. apply Rmult_lt_0_compat; [|apply bpow_pos].
  apply IZR_lt. lia.
Qed.

Lemma posf_pos z : posf z -> (0 < B2R z)%R.
Proof. intros (p & e & -> & _). apply F2R_pos. Qed.

Lemma mul_rounded a b :
  posf a -> posf b -> rounded false (B2R a * B2R b) (SFmul 53 1024 a b).
Proof.
  intros (mx & ex & -> & Bx) (my & ey & -> & By). simpl SFmul.
  apply bounded_iff in Bx, By.
  destruct Bx as (Hx1 & Hx2 & Hx3), By as (Hy1 & Hy2 & Hy3).
  apply binary_round_aux_rounded; [lia| |].
  - simpl. unfold F2R. rewrite Pos2Z.inj_mul, mult_IZR, bpow_add. field.
    split; apply Rgt_not_eq, bpow_pos.
  - rewrite fexp64_eq.
    destruct (Z.eq_dec ex (-1074)) as [Ex|Ex]; [destruct (Z.eq_dec ey (-1074)) as [Ey|Ey]|]; [lia| |].
    + assert (2 ^ 52 <= Zpos (mx * my)) by (rewrite Pos2Z.inj_mul; nia).
      pose proof (Zdigits2_bounds (Zpos (mx * my)) ltac:(lia)) as [_ Dhi].
      assert (52 < Zdigits2 (Zpos (mx * my))).
      { apply (Z.pow_lt_mono_r_iff 2); try lia. apply Zdigits2_nonneg. }
      lia.
    + assert (2 ^ 52 <= Zpos (mx * my)) by (rewrite Pos2Z.inj_mul; nia).
      pose proof (Zdigits2_bounds (Zpos (mx * my)) ltac:(lia)) as [_ Dhi].
      assert (52 < Zdigits2 (Zpos (mx * my))).
      { apply (Z.pow_lt_mono_r_iff 2); try lia. apply Zdigits2_nonneg. }
      lia.
Qed.

Lemma add_rounded a b :
  posf a -> posf b -> rounded false (B2R a + B2R b) (SFadd 53 1024 a b).
Proof.
  intros (mx & ex & -> & Bx) (my & ey & -> & By).
  set (ez := Z.min ex ey).
  change (SFadd 53 1024 (S754_finite false mx ex) (S754_finite false my ey))
    with (binary_normalize 53 1024
            (Zpos (fst (shl_align mx ex ez)) + Zpos (fst (shl_align my ey ez))) ez false).
  destruct (shl_align_spec mx ex ez ltac:(lia)) as [Ex _].
  destruct (shl_align_spec my ey ez ltac:(lia)) as [Ey _].
  rewrite Ex, Ey.
  remember (Zpos mx * 2 ^ (ex - ez) + Zpos my * 2 ^ (ey - ez)) as M eqn:EM.
  assert (HM : 0 < M).
  { assert (0 < 2 ^ (ex - ez)) by (apply Z.pow_pos_nonneg; lia).
    assert (0 < 2 ^ (ey - ez)) by (apply Z.pow_pos_nonneg; lia). nia. }
  destruct M as [|q|q]; try lia.
  unfold binary_normalize.
  replace (B2R (S754_finite false mx ex) + B2R (S754_finite false my ey))%R
    with (F2R (Zpos q) ez); [apply binary_round_rounded|].
  rewrite EM. simpl B2R.
  rewrite <- (F2R_shift (Zpos mx) ex (ex - ez)) by lia.
  rewrite <- (F2R_shift (Zpos my) ey (ey - ez)) by lia.
  replace (ex - (ex - ez)) with ez by lia. replace (ey - (ey - ez)) with ez by lia.
  unfold F2R. rewrite plus_IZR. ring.
Qed.

(** ** Division *)

Lemma new_location_spec q nb k :
  0 <= k < nb ->
  located q (new_location nb k) (IZR q + IZR k / IZR nb).
Proof.
  intros [Hk0 Hk1].
  assert (N : (0 < IZR nb)%R) by (apply IZR_lt; lia).
  set (y := (IZR k / IZR nb)%R).
  assert (Y : (y * IZR nb = IZR k)%R) by (unfold y; field; lra).
  assert (Z0 : k = 0 -> y = 0%R) by (intros ->; unfold y, Rdiv; simpl; ring).
  assert (K1 : (IZR k < IZR nb)%R) by (apply IZR_lt; lia).
  assert (Y1 : (y < 1)%R) by nra.
  assert (Y0 : k <> 0 -> (0 < y)%R).
  { intros Hne. assert (0 < IZR k)%R by (apply IZR_lt; lia). nra. }
  unfold new_location.
  destruct (Z.even nb) eqn:Ev.
  - unfold new_location_even.
    destruct (Z.eqb_spec k 0) as [E0|Hne]; [simpl; rewrite (Z0 E0); lra|].
    specialize (Y0 Hne).
    destruct (Z.compare_spec (2 * k) nb) as [E|L|G]; simpl.
    + assert (2 * IZR k = IZR nb)%R by (rewrite <- E, mult_IZR; reflexivity).
      assert (y = / 2)%R by (apply Rmult_eq_reg_r with (IZR nb); lra). lra.
    + apply IZR_lt in L. rewrite mult_IZR in L. nra.
    + apply IZR_lt in G. rewrite mult_IZR in G. nra.
  - unfold new_location_odd.
    destruct (Z.eqb_spec k 0) as [E0|Hne]; [simpl; rewrite (Z0 E0); lra|].
    specialize (Y0 Hne).
    assert (O : 2 * k <> nb).
    { intros <-. rewrite Z.even_mul in Ev. discriminate. }
    destruct (Z.compare_spec (2 * k + 1) nb) as [E|L|G]; simpl.
    + assert (L : 2 * k < nb) by lia. apply IZR_lt in L. rewrite mult_IZR in L. nra.
    + assert (L' : 2 * k < nb) by lia. apply IZR_lt in L'. rewrite mult_IZR in L'. nra.
    + assert (G' : nb < 2 * k) by lia. apply IZR_lt in G'. rewrite mult_IZR in G'. nra.
Qed.

Lemma div_core_spec mx ex my ey :
  let '(q, e', l) := SFdiv_core_binary 53 1024 (Zpos mx) ex (Zpos my) ey in
  0 <= q
  /\ located q l (F2R (Zpos mx) ex / F2R (Zpos my) ey / bpow e')
  /\ e' <= fexp64 (Zdigits2 q + e').
Proof.
  unfold SFdiv_core_binary.
  change (fexp 53 1024) with fexp64.
  set (d1 := Zdigits2 (Zpos mx)). set (d2 := Zdigits2 (Zpos my)).
  set (e' := Z.min (fexp64 (d1 + ex - (d2 + ey))) (ex - ey)).
  set (s := ex - ey - e').
  assert (Hs : 0 <= s) by (unfold s, e'; lia).
  set (m' := match s with Zpos _ => Z.shiftl (Zpos mx) s | Z0 => Zpos mx | Zneg _ => 0 end).
  assert (Em : m' = Zpos mx * 2 ^ s).
  { unfold m'. destruct s as [|p|p] eqn:Es; try lia.
    - rewrite Z.shiftl_mul_pow2 by lia. reflexivity. }
  clearbody m'.
  pose proof (Z_div_mod m' (Zpos my) ltac:(lia)) as DM.
  destruct (Z.div_eucl m' (Zpos my)) as [q r]. destruct DM as [Eq Hr].
  assert (P2 : 0 < 2 ^ s) by (apply Z.pow_pos_nonneg; lia).
  assert (Hq : 0 <= q) by nia.
  pose proof (Zdigits2_bounds (Zpos mx) ltac:(lia)) as [D1lo D1hi].
  pose proof (Zdigits2_bounds (Zpos my) ltac:(lia)) as [D2lo D2hi].
  pose proof (Zdigits2_pos (Zpos mx) ltac:(lia)) as D1p.
  pose proof (Zdigits2_pos (Zpos my) ltac:(lia)) as D2p.
  fold d1 in D1lo, D1hi, D1p. fold d2 in D2lo, D2hi, D2p.
  split; [exact Hq|]. split.
  - replace (F2R (Zpos mx) ex / F2R (Zpos my) ey / bpow e')%R
      with (IZR q + IZR r / IZR (Zpos my))%R; [apply new_location_spec; exact Hr|].
    unfold F2R.
    assert (Y : (0 < IZR (Zpos my))%R) by (apply IZR_lt; lia).
    pose proof (bpow_pos ex). pose proof (bpow_pos ey). pose proof (bpow_pos e').
    replace ex with (s + ey + e') by (unfold s; lia).
    rewrite !bpow_add, <- (IZR_pow2 s) by lia.
    assert (R : (IZR (Zpos mx) * IZR (2 ^ s) = IZR (Zpos my) * IZR q + IZR r)%R).
    { rewrite <- !mult_IZR, <- plus_IZR. f_equal. lia. }
    replace (IZR q + IZR r / IZR (Zpos my))%R
      with (IZR (Zpos mx) * IZR (2 ^ s) / IZR (Zpos my))%R by (rewrite R; field; lra).
    field. repeat split; lra.
  - rewrite fexp64_eq.
    assert (Ee : e' <= Z.max (d1 + ex - (d2 + ey) - 53) (-1074) /\ e' <= ex - ey).
    { unfold e'. rewrite fexp64_eq. lia. }
    assert (Es : s = ex - ey - e') by reflexivity.
    clearbody s e'.
    destruct (Z.eq_dec q 0) as [->|Hq0].
    + simpl Zdigits2.
      assert (L : Zpos mx * 2 ^ s < Zpos my) by nia.
      assert (L2 : 2 ^ (d1 - 1 + s) < 2 ^ d2).
      { rewrite Z.pow_add_r by lia. nia. }
      apply Z.pow_lt_mono_r_iff in L2; try lia.
    + destruct (Z_le_gt_dec e' (-1074)) as [|Hn]; [lia|].
      assert (E1 : e' <= d1 + ex - (d2 + ey) - 53) by lia.
      assert (S1 : d2 + 52 <= d1 - 1 + s) by lia.
      assert (L : 2 ^ d2 * 2 ^ 52 <= Zpos mx * 2 ^ s).
      { rewrite <- Z.pow_add_r by lia.
        apply Z.le_trans with (2 ^ (d1 - 1 + s)); [apply Z.pow_le_mono_r; lia|].
        rewrite Z.pow_add_r by lia. nia. }
      assert (Q : 2 ^ 52 <= q) by nia.
      pose proof (Zdigits2_bounds q ltac:(lia)) as [_ Dhi].
      assert (52 < Zdigits2 q).
      { apply (Z.pow_lt_mono_r_iff 2); try lia. apply Zdigits2_nonneg. }
      lia.
Qed.

Lemma div_rounded a b :
  posf a -> posf b -> rounded false (B2R a / B2R b) (SFdiv 53 1024 a b).
Proof.
  intros (mx & ex & -> & Bx) (my & ey & -> & By).
  pose proof (div_core_spec mx ex my ey) as H.
  unfold SFdiv.
  destruct (SFdiv_core_binary 53 1024 (Zpos mx) ex (Zpos my) ey) as [[q e'] l].
  destruct H as (Hq & Hl & He).
  apply binary_round_aux_rounded; assumption.
Qed.

(** ** Comparison *)

Lemma nonnegf_ge z : nonnegf z -> (0 <= B2R z)%R.
Proof. intros [->|H]; [simpl; lra | apply posf_pos in H; lra]. Qed.

(** ** Order on canonical doubles *)

Lemma canonical_lt m1 e1 m2 e2 :
  bounded 53 1024 m1 e1 = true -> bounded 53 1024 m2 e2 = true ->
  e1 < e2 -> (F2R (Zpos m1) e1 < F2R (Zpos m2) e2)%R.
Proof.
  intros B1 B2 He. apply bounded_iff in B1, B2.
  destruct B1 as (H1 & H1e & _), B2 as (_ & H2e & H2).
  specialize (H2 ltac:(lia)).
  unfold F2R.
  apply Rlt_le_trans with (bpow 53 * bpow e1)%R.
  - apply Rmult_lt_compat_r; [apply bpow_pos|].
    rewrite <- (IZR_pow2 53) by lia. apply IZR_lt. exact H1.
  - apply Rle_trans with (bpow 52 * bpow e2)%R.
    + rewrite <- !bpow_add. apply bpow_le. lia.
    + apply Rmult_le_compat_r; [pose proof (bpow_pos e2); lra|].
      rewrite <- (IZR_pow2 52) by lia. apply IZR_le. exact H2.
Qed.

Lemma SFcompare_pos m1 e1 m2 e2 :
  bounded 53 1024 m1 e1 = true -> bounded 53 1024 m2 e2 = true ->
  exists c, SFcompare (S754_finite false m1 e1) (S754_finite false m2 e2) = Some c
            /\ cmp_spec (F2R (Zpos m1) e1) (F2R (Zpos m2) e2) c.
Proof.
  intros B1 B2. simpl.
  destruct (Z.compare_spec e1 e2) as [E|L|G].
  - subst e2. rewrite Pos.compare_cont_spec. simpl.
    unfold F2R. pose proof (bpow_pos e1) as P.
    destruct (Pos.compare_spec m1 m2) as [E|L|G]; eexists; (split; [reflexivity|]); simpl.
    + subst. reflexivity.
    + apply Rmult_lt_compat_r; [exact P|]. apply IZR_lt. lia.
    + apply Rmult_lt_compat_r; [exact P|]. apply IZR_lt. lia.
  - eexists; split; [reflexivity|]. simpl. apply canonical_lt; assumption.
  - eexists; split; [reflexivity|]. simpl. apply canonical_lt; assumption.
Qed.

Lemma SFcompare_nonneg a b :
  nonnegf a -> nonnegf b ->
  exists c, SFcompare a b = Some c /\ cmp_spec (B2R a) (B2R b) c.
Proof.
  intros [->|(m1 & e1 & -> & B1)] [->|(m2 & e2 & -> & B2)].
  - exists Eq. split; reflexivity.
  - exists Lt. split; [reflexivity|]. simpl. apply F2R_pos.
  - exists Gt. split; [reflexivity|]. simpl. apply F2R_pos.
  - apply SFcompare_pos; assumption.
Qed.

Lemma SFleb_spec a b :
  nonnegf a -> nonnegf b -> (SFleb a b = true <-> (B2R a <= B2R b)%R).
Proof.
  intros Ha Hb. unfold SFleb.
  destruct (SFcompare_nonneg a b Ha Hb) as (c & -> & Hc).
  destruct c; simpl in Hc; split; intros; try reflexivity; try discriminate; lra.
Qed.

Lemma SFeqb_spec a b :
  nonnegf a -> nonnegf b -> (SFeqb a b = true <-> B2R a = B2R b).
Proof.
  intros Ha Hb. unfold SFeqb.
  destruct (SFcompare_nonneg a b Ha Hb) as (c & -> & Hc).
  destruct c; simpl in Hc; split; intros; try reflexivity; try discriminate; lra.
Qed.

Lemma posf_inj a b : posf a -> posf b -> B2R a = B2R b -> a = b.
Proof.
  intros (m1 & e1 & -> & B1) (m2 & e2 & -> & B2) H. simpl in H.
  destruct (Z.lt_trichotomy e1 e2) as [L|[E|G]].
  - pose proof (canonical_lt _ _ _ _ B1 B2 L). lra.
  - subst e2. unfold F2R in H. apply Rmult_eq_reg_r in H; [|apply Rgt_not_eq, bpow_pos].
    apply eq_IZR in H. congruence.
  - pose proof (canonical_lt _ _ _ _ B2 B1 G). lra.
Qed.

(** ** A position in the list of positive doubles, to count them *)

Lemma ord_nonneg z : posf z -> 0 <= ord z.
Proof.
  intros (m & e & -> & B). apply bounded_iff in B. simpl. nia.
Qed.

Lemma ord_lt a b : posf a -> posf b -> (B2R a < B2R b)%R -> ord a < ord b.
Proof.
  intros (m1 & e1 & -> & B1) (m2 & e2 & -> & B2) H. simpl in H.
  pose proof B1 as B1'. pose proof B2 as B2'.
  apply bounded_iff in B1', B2'.
  destruct (Z.lt_trichotomy e1 e2) as [L|[E|G]].
  - simpl. nia.
  - subst e2. unfold F2R in H. apply Rmult_lt_reg_r in H; [|apply bpow_pos].
    apply lt_IZR in H. simpl. lia.
  - pose proof (canonical_lt _ _ _ _ B2 B1 G). lra.
Qed.

(** ** The sign is carried along, never consulted *)

Lemma SFabs_pack sx m e : SFabs (pack sx m e) = pack false m e.
Proof.
  unfold pack. destruct (shr_fexp 53 1024 m e loc_Exact) as [mrs e'].
  destruct (shr_m mrs); try reflexivity.
  destruct (e' <=? 971); reflexivity.
Qed.

Lemma SFabs_binary_round_aux sx m e l :
  SFabs (binary_round_aux 53 1024 sx m e l) = binary_round_aux 53 1024 false m e l.
Proof. rewrite !binary_round_aux_pack. apply SFabs_pack. Qed.

Lemma SFabs_binary_round sx m e :
  SFabs (binary_round 53 1024 sx m e) = binary_round 53 1024 false m e.
Proof.
  unfold binary_round.
  destruct (shl_align m e (fexp 53 1024 (Zpos (digits2_pos m) + e))) as [mz ez].
  apply SFabs_binary_round_aux.
Qed.

(** ** [abs(b - a)] for positive doubles *)

Lemma abs_sub_rounded a b :
  posf a -> posf b ->
  (B2R a = B2R b /\ SFabs (SFsub 53 1024 b a) = S754_zero false)
  \/ (B2R a <> B2R b /\ rounded false (Rabs (B2R b - B2R a)) (SFabs (SFsub 53 1024 b a))).
Proof.
  intros (ma & ea & -> & Ba) (mb & eb & -> & Bb).
  set (ez := Z.min eb ea).
  change (SFsub 53 1024 (S754_finite false mb eb) (S754_finite false ma ea))
    with (binary_normalize 53 1024
            (Zpos (fst (shl_align mb eb ez)) - Zpos (fst (shl_align ma ea ez))) ez false).
  destruct (shl_align_spec mb eb ez ltac:(lia)) as [Eb _].
  destruct (shl_align_spec ma ea ez ltac:(lia)) as [Ea _].
  rewrite Ea, Eb.
  remember (Zpos mb * 2 ^ (eb - ez) - Zpos ma * 2 ^ (ea - ez)) as D eqn:ED.
  assert (V : (B2R (S754_finite false mb eb) - B2R (S754_finite false ma ea) = F2R D ez)%R).
  { rewrite ED. simpl B2R.
    rewrite <- (F2R_shift (Zpos mb) eb (eb - ez)) by lia.
    rewrite <- (F2R_shift (Zpos ma) ea (ea - ez)) by lia.
    replace (eb - (eb - ez)) with ez by lia. replace (ea - (ea - ez)) with ez by lia.
    unfold F2R. rewrite minus_IZR. ring. }
  rewrite V. pose proof (bpow_pos ez) as P.
  destruct D as [|q|q]; unfold binary_normalize.
  - left. split; [|reflexivity].
    assert (F2R 0 ez = 0)%R by (unfold F2R; simpl; ring). lra.
  - right. pose proof (F2R_pos q ez) as Q. split; [lra|].
    rewrite Rabs_right by lra. rewrite SFabs_binary_round. apply binary_round_rounded.
  - right. rewrite SFabs_binary_round.
    assert (N : (F2R (Zneg q) ez = - F2R (Zpos q) ez)%R).
    { unfold F2R. change (Zneg q) with (- Zpos q). rewrite opp_IZR. ring. }
    pose proof (F2R_pos q ez) as Q. split; [lra|].
    rewrite N, Rabs_left by lra. rewrite Ropp_involutive. apply binary_round_rounded.
Qed.

(** ** Roundings are nearest doubles *)

Lemma nearest_int m y k :
  (Rabs (IZR m - y) <= / 2)%R -> (Rabs (IZR m - y) <= Rabs (IZR k - y))%R.
Proof.
  intros H. destruct (Z.eq_dec k m) as [->|Hne]; [lra|].
  apply Rabs_le_inv in H.
  destruct (Z_lt_le_dec k m) as [L|G].
  - assert (IZR k <= IZR m - 1)%R by (rewrite <- minus_IZR; apply IZR_le; lia).
    rewrite (Rabs_left (IZR k - y)) by lra. apply Rabs_le. lra.
  - assert (IZR m + 1 <= IZR k)%R by (rewrite <- plus_IZR; apply IZR_le; lia).
    rewrite (Rabs_right (IZR k - y)) by lra. apply Rabs_le. lra.
Qed.

Lemma rounded_nearest sx x z f :
  rounded sx x z -> (0 < x)%R -> z <> S754_infinity sx -> nonnegf f ->
  (Rabs (Rabs (B2R z) - x) <= Rabs (B2R f - x))%R.
Proof.
  intros (e & m & He & Hm0 & Hm & ->) Hx Hz Hf.
  pose proof (rounded_mantissa _ _ _ He Hm) as [Hm1 Hn].
  pose proof (exp_ok_ge _ _ He) as Hge.
  destruct (pack_value sx m e (conj Hm0 Hm1) Hge Hn) as [Hinf|(_ & Hval & _)];
    [contradiction|].
  rewrite Hval.
  assert (A : Rabs (F2R (cond_Zopp sx m) e) = F2R m e).
  { unfold F2R. pose proof (bpow_pos e). pose proof (IZR_le _ _ Hm0).
    destruct sx; simpl cond_Zopp; rewrite ?opp_IZR.
    - rewrite Rabs_left1; nra.
    - rewrite Rabs_right; nra. }
  rewrite A. clear A Hval Hz.
  pose proof (bpow_pos e) as Pe.
  set (y := (x / bpow e)%R) in *.
  assert (X : x = (y * bpow e)%R) by (unfold y; field; lra).
  assert (S : forall v, (Rabs (IZR m - y) <= Rabs (v - y) ->
                         Rabs (F2R m e - x) <= Rabs (v * bpow e - x))%R).
  { intros v Hv. unfold F2R. rewrite X.
    rewrite <- !Rmult_minus_distr_r, !Rabs_mult, (Rabs_right (bpow e)) by lra.
    apply Rmult_le_compat_r; lra. }
  destruct Hf as [->|(mf & ef & -> & Bf)].
  - simpl B2R. replace 0%R with (IZR 0 * bpow e)%R by (simpl; ring).
    apply S. apply nearest_int. exact Hm.
  - simpl B2R.
    destruct (Z_le_gt_dec e ef) as [Le|Gt].
    + rewrite <- (F2R_shift (Zpos mf) ef (ef - e)) by lia.
      replace (ef - (ef - e)) with e by lia.
      unfold F2R at 2. apply S. apply nearest_int. exact Hm.
    + destruct He as [[-> _]|[_ [Hlo _]]].
      { apply bounded_iff in Bf. lia. }
      apply bounded_iff in Bf. destruct Bf as (Bf1 & Bf2 & _).
      assert (F : (F2R (Zpos mf) ef < bpow 52 * bpow e)%R).
      { unfold F2R. apply Rlt_le_trans with (bpow 53 * bpow ef)%R.
        - apply Rmult_lt_compat_r; [apply bpow_pos|].
          rewrite <- (IZR_pow2 53) by lia. apply IZR_lt. exact Bf1.
        - rewrite <- !bpow_add. apply bpow_le. lia. }
      assert (Y : (bpow 52 <= y)%R) by (apply scaled_le; exact Hlo).
      eapply Rle_trans.
      * apply (S (bpow 52)). rewrite <- (IZR_pow2 52) by lia. apply nearest_int. exact Hm.
      * rewrite X. rewrite (Rabs_left1 (bpow 52 * bpow e - y * bpow e)) by nra.
        rewrite Rabs_left1 by nra. lra.
Qed.

(** ** Convenient forms of the error bound *)

Lemma rounded_normal x z :
  rounded false x z -> (bpow (-1022) <= x)%R -> z <> S754_infinity false ->
  posf z /\ (Rabs (B2R z - x) <= u * x)%R.
Proof.
  intros Hr Hx Hz.
  assert (X0 : (0 < x)%R) by (pose proof (bpow_pos (-1022)); lra).
  destruct (rounded_error _ _ _ Hr X0 Hz) as (Hv & He & Hc).
  assert (M : Rmax (u * x) eta = (u * x)%R).
  { apply Rmax_left. unfold u, eta.
    apply Rle_trans with (bpow (-53) * bpow (-1022))%R.
    - rewrite <- bpow_add. apply bpow_le. lia.
    - apply Rmult_le_compat_l; [pose proof (bpow_pos (-53)); lra|exact Hx]. }
  rewrite M in He.
  assert (U : (u < 1)%R).
  { unfold u. replace 1%R with (bpow 0) by reflexivity. apply bpow_lt. lia. }
  destruct Hc as [->|(p & e & ->)].
  - exfalso. simpl B2R in He. rewrite Rabs_R0, Rminus_0_l, Rabs_Ropp, Rabs_right in He by lra.
    nra.
  - split.
    + exists p, e. split; [reflexivity|exact Hv].
    + rewrite (Rabs_right (B2R (S754_finite false p e))) in He; [exact He|].
      simpl. pose proof (F2R_pos p e). lra.
Qed.

Lemma rounded_nonneg x z :
  rounded false x z -> (0 < x)%R -> z <> S754_infinity false ->
  nonnegf z /\ (Rabs (B2R z - x) <= Rmax (u * x) eta)%R.
Proof.
  intros Hr X0 Hz.
  destruct (rounded_error _ _ _ Hr X0 Hz) as (Hv & He & Hc).
  destruct Hc as [->|(p & e & ->)].
  - split; [left; reflexivity|]. simpl B2R in *. rewrite Rabs_R0 in He. exact He.
  - split.
    + right. exists p, e. split; [reflexivity|exact Hv].
    + rewrite (Rabs_right (B2R (S754_finite false p e))) in He; [exact He|].
      simpl. pose proof (F2R_pos p e). lra.
Qed.

(** ** Constants *)

Lemma bpow_neg p : bpow (Zneg p) = (/ IZR (2 ^ Zpos p))%R.
Proof.
  change (Zneg p) with (- Zpos p). rewrite bpow_opp, bpow_IZR by lia. reflexivity.
Qed.

Lemma u_val : u = (/ 9007199254740992)%R.
Proof. unfold u. rewrite bpow_neg. reflexivity. Qed.

Lemma u_pos : (0 < u)%R.
Proof. apply bpow_pos. Qed.

Lemma rel_val : rel = (4835703278458517 / 4835703278458516698824704)%R.
Proof.
  unfold rel, rel_tol_default, B2R, F2R. simpl cond_Zopp.
  rewrite bpow_neg.
  change (2 ^ 82) with 4835703278458516698824704. reflexivity.
Qed.

Lemma rel_bounds : (999999999 / 1000000000000000000 <= rel <= 1000000001 / 1000000000000000000)%R.
Proof. rewrite rel_val. lra. Qed.

Lemma posf_rel : posf rel_tol_default.
Proof. eexists _, _. split; reflexivity. Qed.

Lemma posf_two : posf (B64.of_Z 2).
Proof. eexists _, _. split; reflexivity. Qed.

Lemma B2R_two : B2R (B64.of_Z 2) = 2%R.
Proof.
  change (B64.of_Z 2) with (S754_finite false 4503599627370496 (-51)).
  unfold B2R, F2R. simpl cond_Zopp.
  rewrite bpow_neg.
  change (2 ^ 51) with 2251799813685248. lra.
Qed.

Lemma posf_le_max z : posf z -> (B2R z <= bpow 1024 - bpow 971)%R.
Proof.
  intros (m & e & -> & B). apply bounded_iff in B. destruct B as (B1 & B2 & _).
  simpl. unfold F2R.
  apply Rle_trans with (IZR (2 ^ 53 - 1) * bpow 971)%R.
  - apply Rmult_le_compat; [apply IZR_le; lia | pose proof (bpow_pos e); lra
                            | apply IZR_le; lia | apply bpow_le; lia].
  - rewrite minus_IZR, (IZR_pow2 53) by lia. rewrite Rmult_minus_distr_r, <- bpow_add.
    simpl Z.add. lra.
Qed.

Lemma posf_ge_min z : posf z -> (bpow (-1074) <= B2R z)%R.
Proof.
  intros (m & e & -> & B). apply bounded_iff in B. destruct B as (B1 & B2 & _).
  simpl. unfold F2R.
  apply Rle_trans with (1 * bpow e)%R.
  - rewrite Rmult_1_l. apply bpow_le. lia.
  - apply Rmult_le_compat_r; [pose proof (bpow_pos e); lra | apply IZR_le; lia].
Qed.

Lemma posf_nonnegf z : posf z -> nonnegf z.
Proof. intros H. right. exact H. Qed.

Lemma posf_not_zero z : posf z -> B64.is_zero z = false.
Proof. intros (m & e & -> & _). reflexivity. Qed.

Lemma posf_not_inf z : posf z -> B64.is_infinity z = false.
Proof. intros (m & e & -> & _). reflexivity. Qed.

Lemma posf_abs z : posf z -> SFabs z = z.
Proof. intros (m & e & -> & _). reflexivity. Qed.

(** Doubles are integer multiples of 2^-1074. *)
Lemma posf_grid z : posf z -> exists k, B2R z = (IZR k * bpow (-1074))%R.
Proof.
  intros (m & e & -> & B). apply bounded_iff in B. destruct B as (B1 & B2 & _).
  exists (Zpos m * 2 ^ (e + 1074)). simpl B2R.
  rewrite <- (F2R_shift (Zpos m) e (e + 1074)) by lia.
  unfold F2R. f_equal. f_equal. lia.
Qed.

Lemma posf_close_eq a b :
  posf a -> posf b -> (Rabs (B2R a - B2R b) < bpow (-1074))%R -> a = b.
Proof.
  intros Ha Hb H. apply posf_inj; try assumption.
  destruct (posf_grid a Ha) as (ka & Ea). destruct (posf_grid b Hb) as (kb & Eb).
  rewrite Ea, Eb in *. pose proof (bpow_pos (-1074)) as P.
  rewrite <- Rmult_minus_distr_r, Rabs_mult, (Rabs_right (bpow (-1074))) in H by lra.
  assert (K : (Rabs (IZR ka - IZR kb) < 1)%R) by nra.
  rewrite <- minus_IZR in K. apply Rabs_def2 in K. destruct K as [K1 K2].
  apply lt_IZR in K1. rewrite <- opp_IZR in K2. apply lt_IZR in K2.
  replace ka with kb by lia. reflexivity.
Qed.

(** * Part IV: the iteration

    One pass of the loop, the closeness test, Newton's map on the
    reals, and the induction that follows the loop to its end. *)

(** ** One pass *)

Lemma eta_le_u_min : (eta <= u * bpow (-1022))%R.
Proof. unfold eta, u. rewrite <- bpow_add. apply bpow_le. lia. Qed.

Lemma Rmax_le_u x y :
  (0 < x <= y)%R -> (bpow (-1022) <= y)%R -> (Rmax (u * x) eta <= u * y)%R.
Proof.
  intros Hx Hy. pose proof u_pos. pose proof eta_le_u_min.
  apply Rmax_lub; nra.
Qed.

Lemma bpow_1024_split : (bpow 1024 - bpow 970 = bpow 1023 + bpow 1022 + bpow 1022 - bpow 970)%R.
Proof.
  pose proof (bpow_succ 1023) as H1. pose proof (bpow_succ 1022) as H2.
  simpl Z.add in H1, H2. lra.
Qed.

(** ** One evaluation of [(guess + n/guess) / 2] *)

Lemma better_float n g :
  B64.is_zero g = false ->
  better_guess (PyFloat n) g = Return (B64.div (B64.add g (B64.div n g)) (B64.of_Z 2)).
Proof.
  intros Hz. unfold better_guess, truediv, as_float, float_truediv, bind. rewrite Hz.
  reflexivity.
Qed.

Lemma add_nonneg_ok g q :
  posf g -> nonnegf q ->
  (bpow (-1022) <= B2R g + B2R q)%R ->
  (B2R g + B2R q < bpow 1024 - bpow 970)%R ->
  posf (SFadd 53 1024 g q)
  /\ (Rabs (B2R (SFadd 53 1024 g q) - (B2R g + B2R q)) <= u * (B2R g + B2R q))%R.
Proof.
  intros Hg [->|Pq] Lo Hi.
  - destruct Hg as (mg & eg & -> & Bg). simpl SFadd.
    split; [exists mg, eg; split; [reflexivity|exact Bg]|].
    cbn [B2R] in *. rewrite Rplus_0_r in *.
    rewrite Rminus_diag, Rabs_R0. pose proof u_pos. pose proof (bpow_pos (-1022)). nra.
  - apply rounded_normal.
    + apply add_rounded; assumption.
    + exact Lo.
    + apply rounded_no_overflow with (x := (B2R g + B2R q)%R); [apply add_rounded; assumption|].
      exact Hi.
Qed.

Section Step.
Local Open Scope R_scope.

Variables n g : spec_float.
Hypothesis Hn : posf n.
Hypothesis Hg : posf g.
Hypothesis HN : bpow (-1073) <= B2R n.
Hypothesis Hdiv : B2R n <= bpow 1000 * B2R g.
Hypothesis HG : B2R g <= bpow 1023.

Lemma X_lower : bpow (-537) <= B2R g + B2R n / B2R g.
Proof.
  pose proof (posf_pos _ Hg) as G0.
  set (d := B2R n / B2R g).
  assert (D : 0 < d) by (apply Rdiv_lt_0_compat; [pose proof (bpow_pos (-1073)); lra | exact G0]).
  assert (E : d * B2R g = B2R n) by (unfold d; field; lra).
  assert (S : 4 * B2R n <= (B2R g + d) * (B2R g + d)).
  { pose proof (Rle_0_sqr (B2R g - d)) as Sq. unfold Rsqr in Sq. nra. }
  assert (P : bpow (-537) * bpow (-537) = bpow (-1074)) by (rewrite <- bpow_add; reflexivity).
  assert (Q : bpow (-1074) < bpow (-1073)) by (apply bpow_lt; lia).
  pose proof (bpow_pos (-537)) as P0.
  destruct (Rle_lt_dec (bpow (-537)) (B2R g + d)) as [|L]; [assumption|]. exfalso.
  assert ((B2R g + d) * (B2R g + d) < bpow (-537) * bpow (-537)) by nra.
  pose proof (bpow_pos (-1073)). lra.
Qed.

Lemma step_value :
  exists b, better_guess (PyFloat n) g = Return b /\ posf b
            /\ Rabs (B2R b - (B2R g + B2R n / B2R g) / 2)
               <= 4 * u * ((B2R g + B2R n / B2R g) / 2).
Proof.
  pose proof (posf_pos _ Hg) as G0.
  pose proof (posf_pos _ Hn) as N0.
  pose proof u_pos as U0. pose proof u_val as UV.
  assert (U1 : u <= / 1000) by (rewrite UV; lra).
  pose proof X_lower as XL.
  set (d := B2R n / B2R g) in *.
  assert (D : 0 < d) by (apply Rdiv_lt_0_compat; assumption).
  assert (DG : d <= bpow 1000).
  { apply Rmult_le_reg_r with (B2R g); [exact G0|].
    replace (d * B2R g) with (B2R n) by (unfold d; field; lra). exact Hdiv. }
  set (X := B2R g + d) in *.
  assert (P537 : bpow (-1021) <= bpow (-537) / 2).
  { pose proof (bpow_succ (-538)) as H1. simpl Z.add in H1.
    pose proof (bpow_le (-1021) (-538) ltac:(lia)). lra. }
  assert (P1022 : bpow (-1022) <= bpow (-1021)) by (apply bpow_le; lia).
  assert (X0 : 0 < X) by (pose proof (bpow_pos (-537)); lra).
  assert (XE : X = B2R g + d) by reflexivity.
  assert (XU : X <= bpow 1023 + bpow 1000) by lra.
  assert (UX : u * X <= X / 1000) by nra.
  assert (B1000 : bpow 1000 * 4 <= bpow 1002).
  { pose proof (bpow_succ 1000) as H1. pose proof (bpow_succ 1001) as H2.
    simpl Z.add in H1, H2. lra. }
  assert (B1002 : bpow 1002 <= bpow 1022 / 2).
  { pose proof (bpow_succ 1021) as H1. simpl Z.add in H1.
    pose proof (bpow_le 1002 1021 ltac:(lia)). lra. }
  assert (B970 : bpow 970 <= bpow 1000) by (apply bpow_le; lia).
  assert (B1022 : 2 * bpow 1022 = bpow 1023).
  { pose proof (bpow_succ 1022) as H1. simpl Z.add in H1. lra. }
  pose proof (bpow_pos 1000) as P1000.
  pose proof bpow_1024_split as SPL.
  rewrite better_float by (apply posf_not_zero; exact Hg).
  unfold B64.div, B64.add, B64.prec, B64.emax.
  (* the quotient n / guess *)
  destruct (rounded_nonneg d (SFdiv 53 1024 n g)) as [Q1 Q2].
  { apply div_rounded; assumption. }
  { exact D. }
  { apply rounded_no_overflow with (x := d); [apply div_rounded; assumption|].
    rewrite SPL. lra. }
  assert (Q3 : Rabs (B2R (SFdiv 53 1024 n g) - d) <= u * X).
  { eapply Rle_trans; [exact Q2|]. apply Rmax_le_u; lra. }
  clear Q2. apply Rabs_le_inv in Q3.
  pose proof (nonnegf_ge _ Q1) as Q0.
  set (q := SFdiv 53 1024 n g) in *.
  set (a := u * X) in *.
  assert (A0 : 0 < a) by (unfold a; apply Rmult_lt_0_compat; assumption).
  assert (UA : u * a <= a / 1000) by nra.
  assert (AX : a <= X / 1000) by exact UX.
  (* the sum guess + n / guess *)
  destruct (add_nonneg_ok g q Hg Q1) as [T1 T2]; [lra | rewrite SPL; lra |].
  apply Rabs_le_inv in T2.
  assert (US : u * (B2R g + B2R q) <= a + u * a) by (unfold a in *; nra).
  set (t := SFadd 53 1024 g q) in *.
  assert (TX : X - 2002 / 1000 * a <= B2R t <= X + 2002 / 1000 * a) by lra.
  assert (M1021 : bpow (-1021) = 2 * bpow (-1022)).
  { pose proof (bpow_succ (-1022)) as H1. simpl Z.add in H1. lra. }
  pose proof (bpow_pos (-1022)) as Pm.
  (* the halving *)
  destruct (rounded_normal (B2R t / B2R (B64.of_Z 2)) (SFdiv 53 1024 t (B64.of_Z 2)))
    as [B1 B2].
  { apply div_rounded; [exact T1 | exact posf_two]. }
  { rewrite B2R_two. lra. }
  { apply rounded_no_overflow with (x := B2R t / B2R (B64.of_Z 2));
      [apply div_rounded; [exact T1 | exact posf_two]|].
    rewrite B2R_two, SPL. lra. }
  rewrite B2R_two in B2. apply Rabs_le_inv in B2.
  eexists. split; [reflexivity|]. split; [exact B1|].
  assert (UT : u * (B2R t / 2) <= (a + 3 / 1000 * a) / 2) by (unfold a in *; nra).
  replace (4 * u * (X / 2)) with (2 * a) by (unfold a; field).
  apply Rabs_le. lra.
Qed.

End Step.

(** ** The closeness test on positive doubles *)

Lemma nonnegf_abs z : nonnegf z -> SFabs z = z.
Proof. intros [->|H]; [reflexivity | apply posf_abs; exact H]. Qed.

Lemma Rmax_le_sum a b : (0 <= a -> 0 <= b -> Rmax a b <= a + b)%R.
Proof. intros. apply Rmax_lub; lra. Qed.

Lemma bpow_m45 : (bpow (-45) <= / 10000000000000)%R.
Proof.
  rewrite bpow_neg. change (2 ^ 45) with 35184372088832.
  apply Rinv_le_contravar; lra.
Qed.

Lemma eta_small x : (bpow (-1030) <= x -> eta <= x / 10000000000000)%R.
Proof.
  intros H. unfold eta.
  assert (E : bpow (-1075) = (bpow (-45) * bpow (-1030))%R) by (rewrite <- bpow_add; reflexivity).
  pose proof bpow_m45. pose proof (bpow_pos (-45)). pose proof (bpow_pos (-1030)).
  rewrite E. nra.
Qed.

Section Isclose.
Local Open Scope R_scope.

Variables g b : spec_float.
Hypothesis Hg : posf g.
Hypothesis Hb : posf b.

(** The tolerance [abs(rel_tol * x)]. *)
Lemma tolerance_value x :
  posf x ->
  nonnegf (SFabs (SFmul 53 1024 rel_tol_default x))
  /\ Rabs (B2R (SFabs (SFmul 53 1024 rel_tol_default x)) - rel * B2R x)
     <= Rmax (u * (rel * B2R x)) eta.
Proof.
  intros Hx. pose proof (posf_pos _ Hx) as X0. pose proof rel_bounds as RB.
  pose proof (posf_le_max _ Hx) as XM. pose proof (bpow_pos 971). pose proof (bpow_pos 970).
  destruct (rounded_nonneg (rel * B2R x) (SFmul 53 1024 rel_tol_default x)) as [T1 T2].
  - apply mul_rounded; [exact posf_rel | exact Hx].
  - nra.
  - apply rounded_no_overflow with (x := rel * B2R x);
      [apply mul_rounded; [exact posf_rel | exact Hx]|].
    pose proof (bpow_lt 970 971 ltac:(lia)). nra.
  - rewrite (nonnegf_abs _ T1). split; assumption.
Qed.

(** The difference [abs(b - g)]. *)
Lemma difference_value :
  nonnegf (SFabs (SFsub 53 1024 b g))
  /\ Rabs (B2R (SFabs (SFsub 53 1024 b g)) - Rabs (B2R b - B2R g))
     <= Rmax (u * Rabs (B2R b - B2R g)) eta.
Proof.
  pose proof (posf_pos _ Hg) as G0. pose proof (posf_pos _ Hb) as B0.
  pose proof (posf_le_max _ Hg) as GM. pose proof (posf_le_max _ Hb) as BM.
  destruct (abs_sub_rounded g b Hg Hb) as [[E Z]|[NE Rd]].
  - rewrite Z. split; [left; reflexivity|]. cbn [B2R]. rewrite E, Rminus_diag, Rabs_R0.
    rewrite Rminus_diag, Rabs_R0.
    rewrite Rmult_0_r. apply Rle_trans with eta; [|apply Rmax_r].
    pose proof (bpow_pos (-1075)). unfold eta. lra.
  - apply rounded_nonneg; [exact Rd| |].
    + apply Rabs_pos_lt. lra.
    + apply rounded_no_overflow with (x := Rabs (B2R b - B2R g)); [exact Rd|].
      pose proof (bpow_lt 970 971 ltac:(lia)).
      unfold Rabs. destruct (Rcase_abs (B2R b - B2R g)); lra.
Qed.

Lemma isclose_unfold :
  isclose g b =
  SFeqb g b
  || (SFleb (SFabs (SFsub 53 1024 b g)) (SFabs (SFmul 53 1024 rel_tol_default b))
      || SFleb (SFabs (SFsub 53 1024 b g)) (SFabs (SFmul 53 1024 rel_tol_default g))
      || SFleb (SFabs (SFsub 53 1024 b g)) (S754_zero false)).
Proof.
  unfold isclose, isclose_tol, B64.eqb, B64.leb, B64.abs, B64.sub, B64.mul,
    B64.prec, B64.emax, abs_tol_default, B64.zero.
  rewrite (posf_not_inf _ Hg), (posf_not_inf _ Hb).
  destruct (SFeqb g b); reflexivity.
Qed.

(** Guesses that differ by less than 0.98e-9 of the first are close. *)
Lemma isclose_intro :
  bpow (-1030) <= B2R g ->
  Rabs (B2R b - B2R g) <= 98 / 100000000000 * B2R g ->
  isclose g b = true.
Proof.
  intros GL H. rewrite isclose_unfold.
  pose proof (posf_pos _ Hg) as G0. pose proof rel_bounds as RB.
  pose proof u_pos as U0. pose proof u_val as UV.
  assert (U1 : u <= / 1000000000000) by (rewrite UV; lra).
  destruct difference_value as [D1 D2].
  destruct (tolerance_value g Hg) as [T1 T2].
  apply orb_true_iff. right. apply orb_true_iff. left. apply orb_true_iff. right.
  apply SFleb_spec; [exact D1 | exact T1 |].
  pose proof (eta_small _ GL) as ES.
  pose proof (Rabs_pos (B2R b - B2R g)) as A0.
  set (A := Rabs (B2R b - B2R g)) in *.
  assert (E1 : Rmax (u * A) eta <= u * A + eta).
  { apply Rmax_le_sum; [nra | unfold eta; pose proof (bpow_pos (-1075)); lra]. }
  assert (E2 : Rmax (u * (rel * B2R g)) eta <= u * (rel * B2R g) + eta).
  { apply Rmax_le_sum; [nra | unfold eta; pose proof (bpow_pos (-1075)); lra]. }
  apply Rabs_le_inv in D2, T2.
  assert (UA : u * A <= A / 1000000000000) by nra.
  assert (RG : 999999999 / 1000000000000000000 * B2R g <= rel * B2R g) by nra.
  assert (RG2 : rel * B2R g <= 1000000001 / 1000000000000000000 * B2R g) by nra.
  assert (UR : u * (rel * B2R g) <= rel * B2R g / 1000000000000) by nra.
  lra.
Qed.

(** Close guesses differ by at most 1.01e-9 of the larger. *)
Lemma isclose_elim :
  bpow (-1030) <= B2R b ->
  isclose g b = true ->
  Rabs (B2R b - B2R g) <= 101 / 100000000000 * Rmax (B2R g) (B2R b).
Proof.
  intros BL H. rewrite isclose_unfold in H.
  pose proof (posf_pos _ Hg) as G0. pose proof (posf_pos _ Hb) as B0.
  pose proof rel_bounds as RB.
  pose proof u_pos as U0. pose proof u_val as UV.
  assert (U1 : u <= / 1000000000000) by (rewrite UV; lra).
  pose proof (Rmax_l (B2R g) (B2R b)) as ML. pose proof (Rmax_r (B2R g) (B2R b)) as MR.
  set (M := Rmax (B2R g) (B2R b)) in *.
  assert (MB : bpow (-1030) <= M) by lra.
  pose proof (eta_small _ MB) as ES.
  apply orb_true_iff in H. destruct H as [H|H].
  { apply SFeqb_spec in H; try (apply posf_nonnegf; assumption).
    rewrite H, Rminus_diag, Rabs_R0. nra. }
  destruct difference_value as [D1 D2].
  pose proof (Rabs_pos (B2R b - B2R g)) as A0.
  set (A := Rabs (B2R b - B2R g)) in *.
  assert (E0 : 0 <= eta) by (unfold eta; pose proof (bpow_pos (-1075)); lra).
  assert (E1 : Rmax (u * A) eta <= u * A + eta) by (apply Rmax_le_sum; [nra | exact E0]).
  apply Rabs_le_inv in D2.
  assert (UA : u * A <= A / 1000000000000) by nra.
  assert (K : forall x, posf x -> B2R x <= M ->
              SFleb (SFabs (SFsub 53 1024 b g)) (SFabs (SFmul 53 1024 rel_tol_default x)) = true ->
              A <= 101 / 100000000000 * M).
  { intros x Hx XM L. pose proof (posf_pos _ Hx) as X0.
    destruct (tolerance_value x Hx) as [T1 T2].
    apply SFleb_spec in L; [|exact D1|exact T1].
    assert (E2 : Rmax (u * (rel * B2R x)) eta <= u * (rel * B2R x) + eta)
      by (apply Rmax_le_sum; [nra | exact E0]).
    apply Rabs_le_inv in T2.
    assert (RG2 : rel * B2R x <= 1000000001 / 1000000000000000000 * M) by nra.
    assert (UR : u * (rel * B2R x) <= rel * B2R x / 1000000000000) by nra.
    lra. }
  apply orb_true_iff in H. destruct H as [H|H]; [apply orb_true_iff in H; destruct H as [H|H]|].
  - apply (K b Hb); [exact MR | exact H].
  - apply (K g Hg); [exact ML | exact H].
  - apply SFleb_spec in H; [|exact D1|left; reflexivity].
    cbn [B2R] in H. lra.
Qed.

Lemma isclose_refl : isclose g g = true.
Proof.
  unfold isclose, isclose_tol, B64.eqb.
  replace (SFeqb g g) with true; [reflexivity|].
  symmetry. apply SFeqb_spec; try (apply posf_nonnegf; exact Hg). reflexivity.
Qed.

End Isclose.

(** ** Newton's iteration on the reals, with a perturbed result

    [s] is the square root sought, [G] the guess, [h] the exact next
    iterate [(G + s^2/G) / 2] and [B] the computed one. *)

Section NewtonReal.
Local Open Scope R_scope.

Variables s G h B : R.
Hypothesis s_pos : 0 < s.
Hypothesis G_pos : 0 < G.
Hypothesis h_def : 2 * h * G = G * G + s * s.
Hypothesis B_err : Rabs (B - h) <= 4 * u * h.

Lemma u_small : 0 < u <= / 8000000000000000.
Proof. split; [exact u_pos|]. rewrite u_val. lra. Qed.

Lemma h_ge_s : s <= h.
Proof.
  assert (E : 2 * G * (h - s) = (G - s) * (G - s)) by nra.
  pose proof (Rle_0_sqr (G - s)) as Sq. unfold Rsqr in Sq.
  destruct (Rle_lt_dec s h) as [|L]; [assumption|]. exfalso.
  assert (2 * G * (h - s) < 0) by nra. lra.
Qed.

Lemma h_pos : 0 < h.
Proof. pose proof h_ge_s. lra. Qed.

Lemma B_bounds : h * (1 - 4 * u) <= B <= h * (1 + 4 * u).
Proof. apply Rabs_le_inv in B_err. lra. Qed.

Lemma B_lower : s * (1 - 4 * u) <= B.
Proof.
  pose proof B_bounds as [L _]. pose proof h_ge_s. pose proof u_small.
  assert (0 < 1 - 4 * u) by lra. nra.
Qed.

(** Near the root, the next iterate is within the tolerance. *)
Lemma near_root_close :
  s * (1 - 4 * u) <= G <= s * (1 + 3 / 10000000000) ->
  Rabs (B - G) <= 98 / 100000000000 * G.
Proof.
  intros [GL GU]. pose proof u_small as [U0 U1]. pose proof h_ge_s as HS.
  pose proof B_bounds as [BL BU].
  assert (E : 2 * G * (h - s) = (G - s) * (G - s)) by nra.
  assert (D : - (3 / 10000000000 * s) <= G - s <= 3 / 10000000000 * s) by nra.
  assert (Q : (G - s) * (G - s) <= 9 / 100000000000000000000 * (s * s)) by nra.
  assert (GS : s / 2 <= G) by nra.
  assert (HU : h - s <= 9 / 100000000000000000000 * s).
  { assert (s * (h - s) <= 2 * G * (h - s)) by nra. nra. }
  assert (BU' : B <= s * (1 + 1 / 1000000000000000)) by nra.
  assert (BL' : s * (1 - 1 / 1000000000000000) <= B) by nra.
  apply Rabs_le. nra.
Qed.

(** Away from the root, the next iterate is strictly smaller and at
    least as near. *)
Lemma far_from_root :
  s * (1 + 3 / 10000000000) < G ->
  B < G /\ Rabs (B - s) <= G - s.
Proof.
  intros GL. pose proof u_small as [U0 U1]. pose proof h_ge_s as HS.
  pose proof B_bounds as [BL BU].
  assert (GS : s < G) by nra.
  assert (E : 2 * G * (G - h) = (G - s) * (G + s)) by nra.
  assert (HG : h <= (G + s) / 2).
  { assert (2 * G * (G - h) >= (G - s) * G) by nra. nra. }
  assert (D : 3 / 10000000000 * s < G - s) by lra.
  assert (UG : 4 * u * h <= (G - s) / 1000).
  { assert (h <= G) by lra.
    assert (4 * u * h <= 4 * u * G) by nra.
    assert (G <= (G - s) * 4000000000) by nra.
    nra. }
  split.
  - nra.
  - apply Rabs_le. nra.
Qed.

(** A next iterate within the tolerance of its guess is within a few
    units in the last place of the root. *)
Lemma close_is_accurate :
  Rabs (B - G) <= 101 / 100000000000 * Rmax G B ->
  Rabs (B - s) <= 5 * u * s.
Proof.
  intros C. pose proof u_small as [U0 U1]. pose proof h_ge_s as HS.
  pose proof B_bounds as [BL BU]. apply Rabs_le_inv in C.
  assert (E : 2 * G * (h - s) = (G - s) * (G - s)) by nra.
  assert (F : 2 * G * (G - h) = (G - s) * (G + s)) by nra.
  assert (K : Rabs (G - s) <= 21 / 10000000000 * s /\ s / 2 <= G).
  { destruct (Rle_lt_dec s G) as [SG|GS].
    - assert (HG : h <= G).
      { assert (0 <= 2 * G * (G - h)) by nra. nra. }
      assert (M : Rmax G B <= G * (1 + 4 * u)).
      { apply Rmax_lub; nra. }
      assert (GH : G - h <= 102 / 100000000000 * G) by nra.
      assert (GS2 : (G - s) * G <= 2 * G * (G - h)) by nra.
      assert (GS3 : G - s <= 204 / 100000000000 * G) by nra.
      split; [|lra]. apply Rabs_le. nra.
    - assert (GH : G < h) by lra.
      assert (M : Rmax G B <= h * (1 + 4 * u)).
      { apply Rmax_lub; nra. }
      assert (HG : h - G <= 102 / 100000000000 * h) by nra.
      assert (GL : s * (1 - 102 / 100000000000) <= G) by nra.
      split; [|nra]. apply Rabs_le. nra. }
  destruct K as [K GS]. apply Rabs_le_inv in K.
  assert (Q : (G - s) * (G - s) <= 441 / 100000000000000000000 * (s * s)) by nra.
  assert (HU : h - s <= 441 / 100000000000000000000 * s).
  { assert (s * (h - s) <= 2 * G * (h - s)) by nra. nra. }
  assert (HU2 : h - s <= u * s / 2) by (rewrite u_val; lra).
  apply Rabs_le. nra.
Qed.

End NewtonReal.

(** ** Runs of the loop *)

Lemma run_newton_loop n g tr res :
  run n g tr res ->
  forall verbose k,
    newton_loop (length tr + k) n verbose g
    = ((if verbose then tr else []), Some res).
Proof.
  induction 1 as [g r H|g e H|g g' tr res H _ IH]; intros verbose k; simpl; rewrite H.
  - destruct verbose; reflexivity.
  - destruct verbose; reflexivity.
  - rewrite IH. destruct verbose; reflexivity.
Qed.

Section Loop.
Local Open Scope R_scope.

Variable n : spec_float.
Hypothesis Hn : posf n.
Hypothesis HN : bpow (-1073) <= B2R n.

Lemma root_pos : 0 < root n.
Proof. apply sqrt_lt_R0. apply posf_pos. exact Hn. Qed.

Lemma root_sqr : root n * root n = B2R n.
Proof. apply sqrt_sqrt. pose proof (posf_pos _ Hn). lra. Qed.

Lemma root_upper : root n <= bpow 512.
Proof.
  pose proof root_pos. pose proof root_sqr as E. set (s := root n) in *. pose proof (posf_le_max _ Hn) as M.
  pose proof (bpow_pos 971). pose proof (bpow_pos 512).
  assert (P : bpow 512 * bpow 512 = bpow 1024) by (rewrite <- bpow_add; reflexivity).
  destruct (Rle_lt_dec s (bpow 512)) as [|L]; [assumption|]. exfalso.
  assert (bpow 512 * bpow 512 < s * s) by nra. lra.
Qed.

Lemma root_lower : bpow (-537) <= root n.
Proof.
  pose proof root_pos. pose proof root_sqr as E. set (s := root n) in *.
  pose proof (bpow_pos (-537)).
  assert (P : bpow (-537) * bpow (-537) = bpow (-1074)) by (rewrite <- bpow_add; reflexivity).
  pose proof (bpow_lt (-1074) (-1073) ltac:(lia)).
  destruct (Rle_lt_dec (bpow (-537)) s) as [|L]; [assumption|]. exfalso.
  assert (s * s < bpow (-537) * bpow (-537)) by nra. lra.
Qed.

(** What a pass computes from a guess for which nothing overflows. *)
Lemma pass_value g :
  posf g -> B2R n <= bpow 1000 * B2R g -> B2R g <= bpow 1023 ->
  exists b h,
    better_guess (PyFloat n) g = Return b /\ posf b
    /\ 2 * h * B2R g = B2R g * B2R g + root n * root n
    /\ Rabs (B2R b - h) <= 4 * u * h.
Proof.
  intros Hg Hd HG.
  destruct (step_value n g Hn Hg HN Hd HG) as (b & E & Pb & Hb).
  exists b, ((B2R g + B2R n / B2R g) / 2). repeat split; try assumption.
  rewrite root_sqr. pose proof (posf_pos _ Hg). field. lra.
Qed.

Lemma good_no_overflow g : good n g -> B2R n <= bpow 1000 * B2R g.
Proof.
  intros (Hg & GL & GU). pose proof root_pos. pose proof root_upper. pose proof root_sqr as E.
  set (s := root n) in *.
  pose proof u_small as [U0 U1].
  pose proof (bpow_le 513 1000 ltac:(lia)).
  pose proof (bpow_succ 512) as P. simpl Z.add in P.
  assert (s / 2 <= B2R g) by nra.
  rewrite <- E. nra.
Qed.

Lemma good_pass g :
  good n g ->
  exists b h,
    better_guess (PyFloat n) g = Return b /\ posf b
    /\ 2 * h * B2R g = B2R g * B2R g + root n * root n
    /\ Rabs (B2R b - h) <= 4 * u * h
    /\ good n b.
Proof.
  intros Gg. pose proof Gg as (Hg & GL & GU).
  destruct (pass_value g Hg (good_no_overflow g Gg) GU) as (b & h & E & Pb & Hh & Hb).
  exists b, h. repeat split; try assumption.
  - apply (B_lower (root n) (B2R g) h (B2R b));
      first [assumption | exact root_pos | apply posf_pos; exact Hg].
  - pose proof root_pos. pose proof root_upper. pose proof u_small as [U0 U1].
    set (s := root n) in *.
    pose proof (posf_pos _ Hg) as G0.
    apply Rabs_le_inv in Hb.
    pose proof (bpow_le 513 1022 ltac:(lia)).
    pose proof (bpow_succ 512) as P. simpl Z.add in P.
    pose proof (bpow_succ 1022) as P2. simpl Z.add in P2.
    pose proof (bpow_pos 1022).
    assert (s / 2 <= B2R g) by nra.
    assert (2 * h <= B2R g + 2 * s).
    { assert (s * s <= 2 * s * B2R g) by nra. nra. }
    nra.
Qed.

Lemma good_terminates (k : nat) :
  forall g, good n g -> (Z.to_nat (ord g) < k)%nat ->
  exists tr r, describes n g tr r.
Proof.
  induction k as [|k IH]; intros g Gg Hk; [lia|].
  pose proof Gg as (Hg & GL & GU).
  destruct (good_pass g Gg) as (b & h & E & Pb & Hh & Hb & Gb).
  pose proof root_pos as S0. pose proof (posf_pos _ Hg) as G0.
  pose proof root_lower as SL. pose proof u_small as [U0 U1].
  unfold describes. pose proof Gb as (_ & BLo & _). set (s := root n) in *.
  assert (GM : bpow (-1030) <= B2R g).
  { pose proof (bpow_le (-1030) (-538) ltac:(lia)).
    pose proof (bpow_succ (-538)) as P. simpl Z.add in P. nra. }
  assert (BM : bpow (-1030) <= B2R b).
  { pose proof (bpow_le (-1030) (-538) ltac:(lia)).
    pose proof (bpow_succ (-538)) as P. simpl Z.add in P. nra. }
  destruct (isclose g b) eqn:C.
  - (* converged *)
    exists [g], b. split; [|split; [|split; [|split; [|split]]]].
    + apply run_done. unfold loop_body. rewrite E, C. reflexivity.
    + constructor; [split; [exact Hg | exact GL] | constructor].
    + exact I.
    + reflexivity.
    + exact Pb.
    + apply (close_is_accurate s (B2R g) h (B2R b));
        first [assumption | apply isclose_elim; assumption].
  - (* another pass *)
    assert (Far : s * (1 + 3 / 10000000000) < B2R g).
    { destruct (Rlt_le_dec (s * (1 + 3 / 10000000000)) (B2R g)) as [|Le]; [assumption|].
      exfalso.
      assert (isclose g b = true); [|congruence].
      apply isclose_intro; try assumption.
      apply (near_root_close s (B2R g) h (B2R b)); first [assumption | lra]. }
    assert (FR : B2R b < B2R g /\ Rabs (B2R b - s) <= B2R g - s)
      by (apply (far_from_root s (B2R g) h (B2R b)); assumption).
    destruct FR as [Lt Er].
    destruct (IH b Gb) as (tr & r & Hr & Ftr & Mtr & Htr & Pr & Ar).
    { pose proof (ord_lt b g Pb Hg Lt). pose proof (ord_nonneg b Pb). lia. }
    exists (g :: tr), r. split; [|split; [|split; [|split; [|split]]]].
    + apply run_next with b; [|exact Hr]. unfold loop_body. rewrite E, C. reflexivity.
    + constructor; [split; [exact Hg | exact GL] | exact Ftr].
    + destruct tr as [|y tr']; [exact I|]. simpl in Htr. subst y.
      split; [|exact Mtr]. rewrite (Rabs_right (B2R g - s)) by nra. exact Er.
    + reflexivity.
    + exact Pr.
    + exact Ar.
Qed.

End Loop.

(** ** A whole call *)

Lemma newton_sqrt_float fuel n verbose :
  newton_sqrt fuel (PyFloat n) verbose
  = newton_loop fuel (PyFloat n) verbose (B64.div n (B64.of_Z 2)).
Proof. reflexivity. Qed.

Lemma newton_sqrt_run n tr res :
  run (PyFloat n) (first_guess n) tr res ->
  forall verbose k,
    newton_sqrt (length tr + k) (PyFloat n) verbose
    = ((if verbose then tr else []), Some res).
Proof.
  intros H verbose k. rewrite newton_sqrt_float. apply run_newton_loop. exact H.
Qed.

Section Solve.
Local Open Scope R_scope.

Variable n : spec_float.
Hypothesis Hn : posf n.
Hypothesis HN : bpow (-1073) <= B2R n.

Lemma first_guess_value :
  posf (first_guess n)
  /\ B2R n / 4 <= B2R (first_guess n) <= B2R n
  /\ B2R (first_guess n) <= bpow 1023.
Proof.
  set (g0 := first_guess n).
  pose proof (posf_pos _ Hn) as N0. pose proof (posf_le_max _ Hn) as NM.
  pose proof u_small as [U0 U1].
  pose proof (bpow_succ 1023) as P1. pose proof (bpow_succ 970) as P2.
  pose proof (bpow_succ (-1075)) as P3. pose proof (bpow_succ (-1074)) as P4.
  simpl Z.add in P1, P2, P3, P4.
  pose proof (bpow_pos 970). pose proof (bpow_pos (-1075)).
  assert (E970 : u * bpow 1023 = bpow 970) by (unfold u; rewrite <- bpow_add; reflexivity).
  assert (L970 : eta <= bpow 970) by (unfold eta; apply bpow_le; lia).
  destruct (rounded_nonneg (B2R n / B2R (B64.of_Z 2)) (SFdiv 53 1024 n (B64.of_Z 2)))
    as [Q1 Q2].
  - apply div_rounded; [exact Hn | exact posf_two].
  - rewrite B2R_two. lra.
  - apply rounded_no_overflow with (x := B2R n / B2R (B64.of_Z 2));
      [apply div_rounded; [exact Hn | exact posf_two]|].
    rewrite B2R_two. lra.
  - rewrite B2R_two in Q2.
    change (SFdiv 53 1024 n (B64.of_Z 2)) with g0 in Q1, Q2.
    assert (M : Rmax (u * (B2R n / 2)) eta <= B2R n / 4).
    { apply Rmax_lub; [nra | unfold eta; lra]. }
    assert (M2 : Rmax (u * (B2R n / 2)) eta <= bpow 970).
    { apply Rmax_lub; [nra | exact L970]. }
    apply Rabs_le_inv in Q2.
    assert (G0 : 0 < B2R g0) by lra.
    split; [|split; lra].
    destruct Q1 as [Z|P]; [|exact P]. rewrite Z in G0. cbn [B2R] in G0. lra.
Qed.

Lemma Forall_posf_of tr :
  Forall (fun x => posf x /\ root n * (1 - 4 * u) <= B2R x) tr ->
  Forall posf tr /\ Forall (fun x => root n * (1 - 4 * u) <= B2R x) tr.
Proof.
  induction 1 as [|x l [H1 H2] _ [IH1 IH2]]; split; constructor; assumption.
Qed.

Lemma newton_solves : exists tr r, solves n tr r.
Proof.
  destruct first_guess_value as (Pg & [GL GU] & GM).
  pose proof (posf_pos _ Hn) as N0. pose proof (posf_pos _ Pg) as G0.
  pose proof (root_pos n Hn) as S0.
  pose proof (root_upper n Hn) as SU.
  pose proof (root_lower n Hn HN) as SL.
  pose proof (root_sqr n Hn) as SS.
  pose proof u_small as [U0 U1].
  unfold solves. set (s := root n) in *. set (g0 := first_guess n) in *.
  assert (Hd : B2R n <= bpow 1000 * B2R g0).
  { pose proof (bpow_le 2 1000 ltac:(lia)).
    assert (bpow 2 = 4) by (pose proof (bpow_succ 1) as P; simpl Z.add in P; rewrite bpow_1 in P; lra).
    nra. }
  destruct (pass_value n Hn HN g0 Pg Hd GM) as (b & h & E & Pb & Hh & Hb).
  fold s in Hh.
  assert (BLo : s * (1 - 4 * u) <= B2R b).
  { apply (B_lower s (B2R g0) h (B2R b)); first [assumption | exact S0 | exact G0]. }
  assert (Gb : good n b).
  { split; [exact Pb|]. split; [exact BLo|].
    apply Rabs_le_inv in Hb.
    pose proof (bpow_succ 1022) as P2. simpl Z.add in P2.
    pose proof (bpow_le 3 1022 ltac:(lia)).
    assert (bpow 3 = 8).
    { pose proof (bpow_succ 1) as P; pose proof (bpow_succ 2) as P'.
      simpl Z.add in P, P'. rewrite bpow_1 in P. lra. }
    assert (2 * h * B2R g0 <= (B2R g0 + 4) * B2R g0) by nra.
    assert (2 * h <= B2R g0 + 4) by nra.
    nra. }
  assert (BM : bpow (-1030) <= B2R b).
  { pose proof (bpow_le (-1030) (-538) ltac:(lia)).
    pose proof (bpow_succ (-538)) as P. simpl Z.add in P. nra. }
  destruct (isclose g0 b) eqn:C.
  - exists [g0], b. split; [|split; [|split; [|split; [|split; [|split]]]]].
    + apply run_done. unfold loop_body. rewrite E, C. reflexivity.
    + reflexivity.
    + constructor; [exact Pg | constructor].
    + constructor.
    + exact I.
    + exact Pb.
    + apply (close_is_accurate s (B2R g0) h (B2R b));
        first [assumption | apply isclose_elim; assumption].
  - destruct (good_terminates n Hn HN (S (Z.to_nat (ord b))) b Gb ltac:(lia))
      as (tr & r & Hr & Ftr & Mtr & Htr & Pr & Ar).
    fold s in Ftr, Mtr, Ar.
    destruct (Forall_posf_of tr Ftr) as [F1 F2].
    exists (g0 :: tr), r. split; [|split; [|split; [|split; [|split; [|split]]]]].
    + apply run_next with b; [|exact Hr]. unfold loop_body. rewrite E, C. reflexivity.
    + reflexivity.
    + constructor; [exact Pg | exact F1].
    + exact F2.
    + exact Mtr.
    + exact Pr.
    + exact Ar.
Qed.

End Solve.

(** ** The square of the result *)

Lemma square_bounds (s x : R) :
  (0 < s -> - (5 * u * s) <= x - s <= 5 * u * s ->
   - (101 / 10 * u * (s * s)) <= s * s - x * x <= 101 / 10 * u * (s * s))%R.
Proof.
  intros S0 H. pose proof u_small as [U0 U1].
  set (d := (x - s)%R) in *.
  replace x with (s + d)%R by (unfold d; ring).
  assert (D2 : (d * d <= (5 * u * s) * (5 * u * s))%R) by nra.
  assert (UU : (u * u <= u / 8000000000000000)%R) by nra.
  assert (SS : (0 < s * s)%R) by nra.
  assert (US : (0 < u * (s * s))%R) by nra.
  assert (D3 : ((5 * u * s) * (5 * u * s) <= u * (s * s) / 100)%R) by nra.
  assert (SD : (- (5 * u * (s * s)) <= s * d <= 5 * u * (s * s))%R) by nra.
  nra.
Qed.

Section Square.
Local Open Scope R_scope.

Variables n r : spec_float.
Hypothesis Hn : posf n.
Hypothesis Hr : posf r.
Hypothesis Hacc : Rabs (B2R r - root n) <= 5 * u * root n.
Hypothesis Hfin : B64.is_infinity (B64.mul r r) = false.

(** The double [r * r] is within 21 units in the last place of [n]. *)
Lemma square_value :
  posf (B64.mul r r)
  /\ Rabs (B2R (B64.mul r r) - B2R n) <= 21 * u * B2R n.
Proof.
  pose proof (posf_pos _ Hn) as N0. pose proof (posf_pos _ Hr) as R0.
  pose proof (root_pos n Hn) as S0. pose proof (root_sqr n Hn) as SS.
  set (s := root n) in *.
  pose proof u_small as [U0 U1]. apply Rabs_le_inv in Hacc.
  assert (Sq : Rabs (B2R n - B2R r * B2R r) <= 101 / 10 * u * B2R n).
  { apply Rabs_le. rewrite <- SS. apply square_bounds; assumption. }
  assert (Inf : SFmul 53 1024 r r <> S754_infinity false).
  { intros E. unfold B64.mul, B64.prec, B64.emax in Hfin. rewrite E in Hfin. discriminate. }
  pose proof (mul_rounded r r Hr Hr) as Rd.
  assert (X0 : 0 < B2R r * B2R r) by nra.
  destruct (rounded_nonneg _ _ Rd X0 Inf) as [A1 _].
  pose proof (rounded_nearest _ _ _ n Rd X0 Inf (posf_nonnegf _ Hn)) as Near.
  rewrite (Rabs_right (B2R (SFmul 53 1024 r r))) in Near
    by (apply Rle_ge, nonnegf_ge; exact A1).
  fold (B64.mul r r) in A1, Near.
  change (SFmul 53 1024 r r) with (B64.mul r r) in A1, Near.
  set (a := B64.mul r r) in *.
  apply Rabs_le_inv in Near. apply Rabs_le_inv in Sq.
  assert (V : Rabs (B2R a - B2R n) <= 21 * u * B2R n).
  { apply Rabs_le.
    unfold Rabs in Near. destruct (Rcase_abs (B2R n - B2R r * B2R r)); lra. }
  split; [|exact V].
  destruct A1 as [Z|P]; [|exact P]. exfalso.
  rewrite Z in V. cbn [B2R] in V. apply Rabs_le_inv in V. nra.
Qed.

(** [math.isclose(r * r, n)] *)
Lemma square_close : isclose (B64.mul r r) n = true.
Proof.
  destruct square_value as [Pa V].
  pose proof (posf_pos _ Hn) as N0. pose proof u_small as [U0 U1].
  apply Rabs_le_inv in V.
  destruct (Rle_lt_dec (bpow (-1026)) (B2R n)) as [Big|Small].
  - apply isclose_intro; [exact Pa | exact Hn | |].
    + pose proof (bpow_le (-1030) (-1027) ltac:(lia)).
      pose proof (bpow_succ (-1027)) as P. simpl Z.add in P.
      pose proof (bpow_pos (-1027)). nra.
    + rewrite Rabs_minus_sym. apply Rabs_le. nra.
  - replace (B64.mul r r) with n; [apply isclose_refl; exact Hn|].
    symmetry. apply posf_close_eq; [exact Pa | exact Hn |].
    assert (E : 32 * (u * bpow (-1026)) = bpow (-1074)).
    { unfold u. rewrite <- bpow_add. simpl Z.add.
      pose proof (bpow_succ (-1079)) as P1. pose proof (bpow_succ (-1078)) as P2.
      pose proof (bpow_succ (-1077)) as P3. pose proof (bpow_succ (-1076)) as P4.
      pose proof (bpow_succ (-1075)) as P5. simpl Z.add in P1, P2, P3, P4, P5. lra. }
    apply Rle_lt_trans with (21 * u * B2R n); [apply Rabs_le; lra|]. nra.
Qed.

End Square.

(** If [n] is at most 2^1023 the square cannot overflow. *)
Lemma square_finite n r :
  posf n -> posf r ->
  (Rabs (B2R r - root n) <= 5 * u * root n)%R ->
  (B2R n <= bpow 1023)%R ->
  B64.is_infinity (B64.mul r r) = false.
Proof.
  intros Hn Hr Hacc Hle.
  pose proof (posf_pos _ Hn) as N0. pose proof (posf_pos _ Hr) as R0.
  pose proof (root_pos n Hn) as S0. pose proof (root_sqr n Hn) as SS.
  set (s := root n) in *.
  pose proof u_small as [U0 U1]. apply Rabs_le_inv in Hacc.
  pose proof (square_bounds s (B2R r) S0 Hacc) as Sq.
  pose proof (bpow_succ 1023) as P. simpl Z.add in P.
  pose proof (bpow_lt 970 1023 ltac:(lia)).
  assert (Inf : SFmul 53 1024 r r <> S754_infinity false).
  { apply rounded_no_overflow with (x := (B2R r * B2R r)%R); [apply mul_rounded; assumption|].
    pose proof (bpow_pos 970).
    assert (E970 : (u * bpow 1023 = bpow 970)%R) by (unfold u; rewrite <- bpow_add; reflexivity).
    assert (E974 : (16 * bpow 970 <= bpow 1023)%R).
    { pose proof (bpow_succ 970) as P1. pose proof (bpow_succ 971) as P2.
      pose proof (bpow_succ 972) as P3. pose proof (bpow_succ 973) as P4.
      simpl Z.add in P1, P2, P3, P4. pose proof (bpow_le 974 1023 ltac:(lia)). lra. }
    rewrite SS in Sq.
    assert (UN : (u * B2R n <= bpow 970)%R) by nra.
    lra. }
  pose proof (mul_rounded r r Hr Hr) as Rd.
  assert (X0 : (0 < B2R r * B2R r)%R) by nra.
  destruct (rounded_error _ _ _ Rd X0 Inf) as (_ & _ & [E|(p & e & E)]);
    unfold B64.mul, B64.prec, B64.emax; rewrite E; reflexivity.
Qed.

(** ** Roundings are monotone *)


(** ** The tolerance is monotone in the magnitude *)

Lemma nonnegf_inj a b : nonnegf a -> nonnegf b -> B2R a = B2R b -> a = b.
Proof.
  intros [->|Ha] [->|Hb] H; try reflexivity.
  - pose proof (posf_pos _ Hb). simpl in H. lra.
  - pose proof (posf_pos _ Ha). simpl in H. lra.
  - apply posf_inj; assumption.
Qed.

Lemma tol_nonneg x :
  nonnegf x -> nonnegf (tol x) /\ tol x <> S754_infinity false.
Proof.
  intros [->|Hx]; [split; [left; reflexivity | discriminate]|].
  assert (Inf : tol x <> S754_infinity false).
  { apply rounded_no_overflow with (x := (rel * B2R x)%R);
      [apply mul_rounded; [exact posf_rel | exact Hx]|].
    pose proof (posf_pos _ Hx). pose proof (posf_le_max _ Hx). pose proof rel_bounds.
    pose proof (bpow_lt 970 971 ltac:(lia)). pose proof (bpow_pos 970). nra. }
  split; [|exact Inf].
  destruct (rounded_nonneg (rel * B2R x) (tol x)) as [T _]; [| |exact Inf|exact T].
  - apply mul_rounded; [exact posf_rel | exact Hx].
  - pose proof (posf_pos _ Hx). pose proof rel_bounds. nra.
Qed.


(** ** Signs *)

Lemma SFabs_mul x :
  B64.is_finite x = true ->
  SFabs (SFmul 53 1024 rel_tol_default x) = tol (SFabs x).
Proof.
  destruct x as [s|s| |s m e]; try discriminate; intros _.
  - reflexivity.
  - unfold tol, rel_tol_default. cbn [SFmul SFabs].
    rewrite SFabs_binary_round_aux. reflexivity.
Qed.

Lemma SFabs_binary_normalize_opp d e :
  SFabs (binary_normalize 53 1024 (- d) e false)
  = SFabs (binary_normalize 53 1024 d e false).
Proof.
  destruct d as [|p|p]; simpl Z.opp; unfold binary_normalize;
    rewrite ?SFabs_binary_round; reflexivity.
Qed.

Lemma SFabs_sub_sym a b :
  B64.is_infinity a = false -> B64.is_infinity b = false ->
  SFabs (SFsub 53 1024 a b) = SFabs (SFsub 53 1024 b a).
Proof.
  destruct a as [sa|sa| |sa ma ea], b as [sb|sb| |sb mb eb]; try discriminate; intros _ _;
    try reflexivity.
  - destruct sa, sb; reflexivity.
  - cbn [SFsub]. rewrite (Z.min_comm eb ea).
    rewrite <- SFabs_binary_normalize_opp. f_equal. f_equal. lia.
Qed.

(** ** The difference is a valid non-negative double or +infinity *)

Lemma spec_float_eq_inf (z : spec_float) :
  z = S754_infinity false \/ z <> S754_infinity false.
Proof.
  destruct z as [s|[|]| |s m e]; try (right; discriminate). left. reflexivity.
Qed.

Lemma binary_round_shape p e :
  binary_round 53 1024 false p e = S754_infinity false
  \/ nonnegf (binary_round 53 1024 false p e).
Proof.
  destruct (spec_float_eq_inf (binary_round 53 1024 false p e)) as [E|NE]; [left; exact E|].
  right.
  destruct (rounded_nonneg _ _ (binary_round_rounded false p e) (F2R_pos p e) NE) as [H _].
  exact H.
Qed.

Lemma valid_abs_nonnegf x :
  valid x -> B64.is_finite x = true -> nonnegf (SFabs x).
Proof.
  destruct x as [s|s| |s m e]; try discriminate; intros V _.
  - left. reflexivity.
  - right. exists m, e. split; [reflexivity | exact V].
Qed.

Lemma difference_shape a b :
  valid a -> valid b -> B64.is_finite a = true -> B64.is_finite b = true ->
  SFabs (SFsub 53 1024 b a) = S754_infinity false
  \/ nonnegf (SFabs (SFsub 53 1024 b a)).
Proof.
  destruct a as [sa|sa| |sa ma ea], b as [sb|sb| |sb mb eb]; try discriminate;
    intros Va Vb _ _.
  - right. left. destruct sa, sb; reflexivity.
  - right. right. exists mb, eb. split; [reflexivity | exact Vb].
  - right. right. exists ma, ea. split; [reflexivity | exact Va].
  - cbn [SFsub].
    destruct (cond_Zopp sb (Zpos (fst (shl_align mb eb (Z.min eb ea))))
              - cond_Zopp sa (Zpos (fst (shl_align ma ea (Z.min eb ea))))) as [|p|p];
      unfold binary_normalize; rewrite ?SFabs_binary_round.
    + right. left. reflexivity.
    + apply binary_round_shape.
    + apply binary_round_shape.
Qed.


Lemma SFleb_inf t : nonnegf t -> SFleb (S754_infinity false) t = false.
Proof. intros [->|(m & e & -> & _)]; reflexivity. Qed.


(** ** [math.isclose] is the specified predicate, infinities apart *)


(** ** Exactly representable values round to themselves *)

Lemma rounded_exact x z f :
  rounded false x z -> (0 < x)%R -> z <> S754_infinity false ->
  posf f -> B2R f = x -> z = f.
Proof.
  intros Rd X0 Inf Pf E.
  destruct (rounded_nonneg _ _ Rd X0 Inf) as [Nz _].
  pose proof (rounded_nearest _ _ _ f Rd X0 Inf (posf_nonnegf _ Pf)) as Near.
  rewrite (Rabs_right (B2R z)) in Near by (apply Rle_ge, nonnegf_ge; exact Nz).
  rewrite E, Rminus_diag, Rabs_R0 in Near.
  apply nonnegf_inj; [exact Nz | apply posf_nonnegf; exact Pf |].
  pose proof (Rabs_pos (B2R z - x)).
  assert (Rabs (B2R z - x) = 0)%R by lra.
  unfold Rabs in H0. destruct (Rcase_abs (B2R z - x)); lra.
Qed.

Lemma div_rounded_raw mx ex my ey :
  rounded false (F2R (Zpos mx) ex / F2R (Zpos my) ey)
          (SFdiv 53 1024 (S754_finite false mx ex) (S754_finite false my ey)).
Proof.
  pose proof (div_core_spec mx ex my ey) as H.
  unfold SFdiv.
  destruct (SFdiv_core_binary 53 1024 (Zpos mx) ex (Zpos my) ey) as [[q e'] l].
  destruct H as (Hq & Hl & He).
  apply binary_round_aux_rounded; assumption.
Qed.

(** The double holding [z / 2^k] for a small positive integer [z]. *)
Lemma small_int_double z k :
  0 < z < 2 ^ 53 -> 0 <= k <= 1 ->
  exists f, posf f /\ B2R f = (IZR z * bpow (- k))%R.
Proof.
  intros [Z0 Z1] Hk.
  pose proof (Zdigits2_bounds z Z0) as [Dlo Dhi].
  pose proof (Zdigits2_pos z Z0) as Dp.
  set (d := Zdigits2 z) in *.
  assert (D53 : d <= 53).
  { destruct (Z_le_gt_dec d 53) as [|G]; [assumption|].
    assert (2 ^ 53 <= 2 ^ (d - 1)) by (apply Z.pow_le_mono_r; lia). lia. }
  assert (P : 0 < 2 ^ (53 - d)) by (apply Z.pow_pos_nonneg; lia).
  assert (Mp : 0 < z * 2 ^ (53 - d)) by nia.
  destruct (z * 2 ^ (53 - d)) as [|m|m] eqn:Em; try lia.
  exists (S754_finite false m (d - 53 - k)). split.
  - exists m, (d - 53 - k). split; [reflexivity|]. apply bounded_iff.
    rewrite <- Em. split; [|split; [lia|]].
    + replace 53 with (d + (53 - d)) at 2 by lia. rewrite Z.pow_add_r by lia. nia.
    + intros _. replace 52 with (d - 1 + (53 - d)) by lia. rewrite Z.pow_add_r by lia. nia.
  - cbn [B2R cond_Zopp]. rewrite <- Em.
    replace (d - 53 - k) with (- k - (53 - d)) by lia.
    rewrite F2R_shift by lia. reflexivity.
Qed.

Section SmallInt.

Variable z : Z.
Hypothesis Hz : 0 < z < 2 ^ 53.

Lemma of_Z_small : posf (B64.of_Z z) /\ B2R (B64.of_Z z) = IZR z.
Proof.
  destruct (small_int_double z 0 Hz ltac:(lia)) as (f & Pf & Ef).
  simpl Z.opp in Ef. rewrite bpow_0, Rmult_1_r in Ef.
  assert (Zr : (0 < IZR z)%R) by (apply IZR_lt; lia).
  assert (Zu : (IZR z < bpow 1024 - bpow 970)%R).
  { apply Rlt_le_trans with (bpow 53).
    - rewrite <- (IZR_pow2 53) by lia. apply IZR_lt. lia.
    - pose proof (bpow_succ 1023) as P. simpl Z.add in P.
      pose proof (bpow_le 53 1023 ltac:(lia)). pose proof (bpow_lt 970 1023 ltac:(lia)). lra. }
  replace (B64.of_Z z) with f; [split; assumption|].
  symmetry. unfold B64.of_Z, B64.prec, B64.emax.
  destruct z as [|p|p]; try lia. unfold binary_normalize.
  assert (V : F2R (Zpos p) 0 = IZR (Zpos p)) by (unfold F2R; rewrite bpow_0; ring).
  apply rounded_exact with (x := IZR (Zpos p)); try assumption.
  - rewrite <- V. apply binary_round_rounded.
  - apply rounded_no_overflow with (x := IZR (Zpos p)); [|exact Zu].
    rewrite <- V. apply binary_round_rounded.
Qed.

Lemma int_half_small :
  int_truediv z 2 = Return (B64.div (B64.of_Z z) (B64.of_Z 2)).
Proof.
  destruct (small_int_double z 1 Hz ltac:(lia)) as (f & Pf & Ef).
  destruct of_Z_small as [P0 E0].
  assert (Zr : (0 < IZR z)%R) by (apply IZR_lt; lia).
  assert (H2 : bpow (- (1)) = (/ 2)%R) by (rewrite bpow_opp, bpow_1; reflexivity).
  rewrite H2 in Ef.
  assert (Zu : (IZR z / 2 < bpow 1024 - bpow 970)%R).
  { apply Rlt_le_trans with (bpow 53).
    - rewrite <- (IZR_pow2 53) by lia.
      assert (IZR z < IZR (2 ^ 53))%R by (apply IZR_lt; lia). lra.
    - pose proof (bpow_succ 1023) as P. simpl Z.add in P.
      pose proof (bpow_le 53 1023 ltac:(lia)). pose proof (bpow_lt 970 1023 ltac:(lia)). lra. }
  assert (A : B64.div (B64.of_Z z) (B64.of_Z 2) = f).
  { unfold B64.div, B64.prec, B64.emax.
    apply rounded_exact with (x := (IZR z / 2)%R); try assumption; try lra.
    - rewrite <- E0, <- B2R_two. apply div_rounded; [exact P0 | exact posf_two].
    - apply rounded_no_overflow with (x := (IZR z / 2)%R); [|exact Zu].
      rewrite <- E0, <- B2R_two. apply div_rounded; [exact P0 | exact posf_two]. }
  rewrite A. unfold int_truediv. simpl Z.eqb. cbv iota.
  destruct z as [|p|p]; try lia. cbn [int_operand].
  assert (V : (F2R (Zpos p) 0 / F2R 2 0 = IZR (Zpos p) / 2)%R).
  { unfold F2R. rewrite bpow_0. field. }
  assert (B : B64.div (S754_finite false p 0) (S754_finite false 2 0) = f).
  { unfold B64.div, B64.prec, B64.emax.
    apply rounded_exact with (x := (IZR (Zpos p) / 2)%R); try assumption; try lra.
    - rewrite <- V. apply div_rounded_raw.
    - apply rounded_no_overflow with (x := (IZR (Zpos p) / 2)%R); [|exact Zu].
      rewrite <- V. apply div_rounded_raw. }
  rewrite B. rewrite (posf_not_inf _ Pf). reflexivity.
Qed.

Lemma as_float_small : as_float (PyInt z) = Return (B64.of_Z z).
Proof.
  destruct of_Z_small as [P0 _]. unfold as_float. rewrite (posf_not_inf _ P0). reflexivity.
Qed.

Lemma loop_body_small g :
  loop_body (PyInt z) g = loop_body (PyFloat (B64.of_Z z)) g.
Proof.
  unfold loop_body, better_guess, truediv. rewrite as_float_small. reflexivity.
Qed.

Lemma newton_loop_small fuel verbose :
  forall g, newton_loop fuel (PyInt z) verbose g
            = newton_loop fuel (PyFloat (B64.of_Z z)) verbose g.
Proof.
  induction fuel as [|fuel IH]; intros g; simpl; [reflexivity|].
  rewrite loop_body_small. destruct (loop_body (PyFloat (B64.of_Z z)) g); try reflexivity.
  rewrite IH. reflexivity.
Qed.

(** An [int] below 2^53 is treated exactly as the [float] of the same
    value. *)
Lemma newton_sqrt_small fuel verbose :
  newton_sqrt fuel (PyInt z) verbose = newton_sqrt fuel (PyFloat (B64.of_Z z)) verbose.
Proof.
  unfold newton_sqrt at 1. unfold truediv. rewrite int_half_small.
  rewrite newton_loop_small. reflexivity.
Qed.

End SmallInt.

(** ** Admissible arguments, fuel *)

Lemma positive_double_posf x : positive_double x = true <-> posf x.
Proof.
  split.
  - destruct x as [s|s| |[|] m e]; try discriminate. intros H.
    exists m, e. split; [reflexivity | exact H].
  - intros (m & e & -> & H). exact H.
Qed.

Lemma posf_min_subnormal : posf B64.min_subnormal.
Proof. exists 1%positive, (-1074). split; reflexivity. Qed.

Lemma B2R_min_subnormal : B2R B64.min_subnormal = bpow (-1074).
Proof. unfold B64.min_subnormal, B2R, F2R. simpl cond_Zopp. ring. Qed.

Lemma admissible_spec x :
  admissible x = true -> posf x /\ (bpow (-1073) <= B2R x)%R.
Proof.
  unfold admissible. rewrite andb_true_iff, negb_true_iff.
  intros [P E]. apply positive_double_posf in P. split; [exact P|].
  assert (NE : B2R x <> bpow (-1074)).
  { intros C. rewrite <- B2R_min_subnormal in C.
    apply SFeqb_spec in C; try (apply posf_nonnegf; first [exact P | exact posf_min_subnormal]).
    unfold B64.eqb in E. congruence. }
  destruct (posf_grid x P) as (k & Ek). pose proof (posf_pos x P) as X0.
  pose proof (bpow_pos (-1074)) as Pm.
  pose proof (bpow_succ (-1074)) as P1. simpl Z.add in P1.
  rewrite Ek in *.
  assert (K0 : (0 < IZR k)%R) by nra.
  apply lt_IZR in K0.
  assert (K1 : k <> 1) by (intros ->; apply NE; ring).
  assert (K2 : (2 <= IZR k)%R) by (apply IZR_le; lia).
  nra.
Qed.


(** ** Fuel *)

Lemma newton_loop_more_fuel n verbose fuel :
  forall g tr res k,
    newton_loop fuel n verbose g = (tr, Some res) ->
    newton_loop (fuel + k) n verbose g = (tr, Some res).
Proof.
  induction fuel as [|fuel IH]; intros g tr res k H; simpl in H |- *; [discriminate|].
  destruct (loop_body n g) as [r|g'|e]; try exact H.
  destruct (newton_loop fuel n verbose g') as [out o] eqn:E.
  destruct o as [res'|]; [|discriminate].
  rewrite (IH g' out res' k E). exact H.
Qed.

Lemma newton_sqrt_more_fuel n verbose fuel tr res k :
  newton_sqrt fuel n verbose = (tr, Some res) ->
  newton_sqrt (fuel + k) n verbose = (tr, Some res).
Proof.
  unfold newton_sqrt. destruct (truediv n (PyInt 2)); [|exact (fun H => H)].
  apply newton_loop_more_fuel.
Qed.

Lemma returns_unique n r r' : returns n r -> returns n r' -> r = r'.
Proof.
  intros [f H] [f' H'].
  destruct (newton_sqrt f n false) as [tr o] eqn:E. simpl in H. subst o.
  destruct (newton_sqrt f' n false) as [tr' o'] eqn:E'. simpl in H'. subst o'.
  apply (newton_sqrt_more_fuel _ _ _ _ _ f') in E.
  apply (newton_sqrt_more_fuel _ _ _ _ _ f) in E'.
  rewrite Nat.add_comm in E'. congruence.
Qed.

Lemma solves_returns n tr r :
  solves n tr r ->
  forall verbose k,
    newton_sqrt (length tr + k) (PyFloat n) verbose
    = ((if verbose then tr else []), Some (Return r)).
Proof. intros (H & _). apply newton_sqrt_run. exact H. Qed.

Lemma run_last n g tr r :
  run n g tr (Return r) -> exists g', In g' tr /\ loop_body n g' = Done r.
Proof.
  intros H. remember (Return r) as res eqn:E.
  induction H as [g r0 H|g e H|g g' tr res H _ IH].
  - injection E as ->. exists g. split; [left; reflexivity | exact H].
  - discriminate.
  - destruct (IH E) as (x & I & L). exists x. split; [right; exact I | exact L].
Qed.

(** ** Solving the square of a result *)


(** * Part V: the properties of [newton_sqrt] *)

(** ** Concrete runs *)

Lemma below_root (x y : R) : (0 < x -> x * x < y -> x < sqrt y)%R.
Proof.
  intros X0 H. destruct (Rlt_le_dec x (sqrt y)) as [|L]; [assumption|]. exfalso.
  assert (Y0 : (0 <= y)%R) by nra.
  pose proof (sqrt_sqrt y Y0) as S. pose proof (sqrt_pos y) as P. nra.
Qed.

(** 1.7320508075688772, the last guess printed for [n = 3], is below
    the square root of 3. *)
Lemma guess_below_sqrt3 :
  (B2R (S754_finite false 7800463371553962 (-52)) < sqrt 3)%R.
Proof.
  apply below_root; [apply F2R_pos|].
  unfold B2R, F2R. simpl cond_Zopp. rewrite bpow_neg.
  change (2 ^ 52) with 4503599627370496. lra.
Qed.



(** The value returned is not a guess of the trace, and the property of
    the trace does not extend to it: for [n = 185] the last guess
    printed is the double nearest to the square root, and the value
    returned is its predecessor. *)
Lemma returned_value_farther_at_185 :
  (forall k,
      snd (newton_sqrt (8 + k) (PyInt 185) true)
      = Some (Return (S754_finite false 7656947189353966 (-49)))
      /\ last (fst (newton_sqrt (8 + k) (PyInt 185) true)) B64.zero
         = S754_finite false 7656947189353967 (-49))
  /\ (Rabs (B2R (S754_finite false 7656947189353967 (-49)) - sqrt 185)
      < Rabs (B2R (S754_finite false 7656947189353966 (-49)) - sqrt 185))%R.
Proof.
  split; [intros k; split; vm_compute; reflexivity|].
  assert (M : (15313894378707933 / 1125899906842624 < sqrt 185)%R).
  { apply below_root; lra. }
  unfold B2R, F2R. simpl cond_Zopp. rewrite bpow_neg.
  change (2 ^ 49) with 562949953421312.
  unfold Rabs. repeat destruct Rcase_abs; lra.
Qed.

(** For [n = 5e-324] the first guess [n / 2] is [0.0]. *)
Lemma min_subnormal_raises fuel verbose :
  newton_sqrt (S fuel) (PyFloat B64.min_subnormal) verbose
  = ((if verbose then [B64.zero] else []), Some (Raise ZeroDivisionError)).
Proof. destruct verbose; reflexivity. Qed.


(** ** Arguments *)

Lemma small_int_bounds z : (0 <? z) && (z <? 2 ^ 53) = true -> 0 < z < 2 ^ 53.
Proof. rewrite andb_true_iff, Z.ltb_lt, Z.ltb_lt. tauto. Qed.

Lemma positive_arg_float n :
  positive_arg n = true -> positive_double (float_of n) = true.
Proof.
  destruct n as [z|f]; cbn [positive_arg float_of]; [|tauto].
  intros H. apply positive_double_posf. apply of_Z_small. apply small_int_bounds. exact H.
Qed.

Lemma positive_arg_as_float n :
  positive_arg n = true -> as_float n = Return (float_of n).
Proof.
  destruct n as [z|f]; cbn [positive_arg float_of]; [|reflexivity].
  intros H. apply as_float_small. apply small_int_bounds. exact H.
Qed.

Lemma positive_arg_truediv n g :
  positive_arg n = true ->
  truediv n (PyFloat g) = truediv (PyFloat (float_of n)) (PyFloat g).
Proof.
  intros H. destruct n as [z|f]; [|reflexivity].
  unfold truediv. rewrite (positive_arg_as_float _ H). reflexivity.
Qed.

Lemma positive_arg_better_guess n g :
  positive_arg n = true ->
  better_guess n g = better_guess (PyFloat (float_of n)) g.
Proof.
  intros H. unfold better_guess. rewrite (positive_arg_truediv n g H). reflexivity.
Qed.

Lemma positive_arg_loop_body n g :
  positive_arg n = true ->
  loop_body n g = loop_body (PyFloat (float_of n)) g.
Proof.
  intros H. unfold loop_body. rewrite (positive_arg_better_guess n g H). reflexivity.
Qed.

(** A positive argument is treated as the [float] of the same value. *)
Lemma positive_arg_newton_sqrt n fuel verbose :
  positive_arg n = true ->
  newton_sqrt fuel n verbose = newton_sqrt fuel (PyFloat (float_of n)) verbose.
Proof.
  destruct n as [z|f]; cbn [positive_arg float_of]; [|reflexivity].
  intros H. apply newton_sqrt_small. apply small_int_bounds. exact H.
Qed.

Lemma in_domain_positive n : in_domain n = true -> positive_arg n = true.
Proof. unfold in_domain. rewrite andb_true_iff. tauto. Qed.

Lemma in_domain_admissible n :
  in_domain n = true -> admissible (float_of n) = true.
Proof.
  unfold in_domain, admissible. rewrite !andb_true_iff. intros [P E].
  split; [apply positive_arg_float; exact P | exact E].
Qed.

(** ** From runs to calls *)

Lemma in_domain_solves n :
  in_domain n = true -> exists tr r, solves (float_of n) tr r.
Proof.
  intros D. destruct (admissible_spec _ (in_domain_admissible n D)) as [Hn HN].
  apply newton_solves; assumption.
Qed.

Lemma solves_newton_sqrt n tr r :
  in_domain n = true -> solves (float_of n) tr r ->
  forall verbose k,
    newton_sqrt (length tr + k) n verbose
    = ((if verbose then tr else []), Some (Return r)).
Proof.
  intros D S verbose k.
  rewrite (positive_arg_newton_sqrt n _ _ (in_domain_positive n D)).
  apply (solves_returns _ tr r S).
Qed.

Lemma solves_gives_returns n tr r :
  in_domain n = true -> solves (float_of n) tr r -> returns n r.
Proof.
  intros D S. exists (length tr + 0)%nat.
  rewrite (solves_newton_sqrt n tr r D S). reflexivity.
Qed.

Lemma loop_body_Done n g r :
  loop_body n g = Done r -> better_guess n g = Return r /\ isclose g r = true.
Proof.
  unfold loop_body. destruct (better_guess n g) as [b|e]; [|discriminate].
  destruct (isclose g b) eqn:C; [|discriminate].
  intros H. injection H as ->. split; [reflexivity | exact C].
Qed.

Lemma loop_body_Next n g r :
  loop_body n g = Next r -> better_guess n g = Return r /\ isclose g r = false.
Proof.
  unfold loop_body. destruct (better_guess n g) as [b|e]; [|discriminate].
  destruct (isclose g b) eqn:C; [discriminate|].
  intros H. injection H as ->. split; [reflexivity | exact C].
Qed.

Lemma run_head n g tr res : run n g tr res -> exists l, tr = g :: l.
Proof. intros H. destruct H; eexists; reflexivity. Qed.




(** ** The properties, one by one *)

(** C1, amended.  For every positive argument [n] other than 5e-324 (a
    finite [float], or an [int] below 2^53), [newton_sqrt(n)] returns a
    value [r], and [math.isclose(r * r, n)] holds under the default
    tolerance whenever [r * r] does not overflow to infinity; it does
    not overflow when [n <= 2^1023]. *)
Theorem square_of_result_is_close (n : pynum) :
  in_domain n = true ->
  exists r,
    returns n r
    /\ (B64.is_infinity (B64.mul r r) = false
        -> isclose (B64.mul r r) (float_of n) = true)
    /\ ((B2R (float_of n) <= bpow 1023)%R
        -> B64.is_infinity (B64.mul r r) = false).
Proof.
  intros D. destruct (admissible_spec _ (in_domain_admissible n D)) as [Hn HN].
  destruct (in_domain_solves n D) as (tr & r & S).
  pose proof S as (_ & _ & _ & _ & _ & Pr & Acc).
  exists r. split; [exact (solves_gives_returns n tr r D S)|]. split.
  - intros Fin. apply square_close; assumption.
  - intros Le. apply square_finite with (n := float_of n); assumption.
Qed.

Lemma square_of_result_is_close_at_100 :
  in_domain (PyInt 100) = true
  /\ exists r,
       returns (PyInt 100) r
       /\ (B64.is_infinity (B64.mul r r) = false
           -> isclose (B64.mul r r) (float_of (PyInt 100)) = true)
       /\ ((B2R (float_of (PyInt 100)) <= bpow 1023)%R
           -> B64.is_infinity (B64.mul r r) = false).
Proof.
  split; [reflexivity|].
  apply (square_of_result_is_close (PyInt 100)). reflexivity.
Defined.

(** C1 as stated fails at [n = sys.float_info.max]: the solver returns
    2^512, whose square is infinite and so is not close to [n]. *)
Lemma square_of_result_not_close_at_max :
  positive_arg (PyFloat B64.max_float) = true
  /\ exists r,
       returns (PyFloat B64.max_float) r
       /\ isclose (B64.mul r r) B64.max_float = false.
Proof.
  split; [reflexivity|].
  exists (S754_finite false 4503599627370496 460). split.
  - exists 516%nat. vm_compute. reflexivity.
  - vm_compute. reflexivity.
Qed.



(** C3.  For [n = 0] (the [int] 0, or the [float] 0.0 or -0.0) the call
    raises [ZeroDivisionError] in its first pass: one guess is printed,
    nothing is returned, whatever the fuel. *)
Theorem zero_raises_ZeroDivisionError :
  forall fuel verbose,
    newton_sqrt (S fuel) (PyInt 0) verbose
    = ((if verbose then [S754_zero false] else []), Some (Raise ZeroDivisionError))
    /\ newton_sqrt (S fuel) (PyFloat (S754_zero false)) verbose
       = ((if verbose then [S754_zero false] else []), Some (Raise ZeroDivisionError))
    /\ newton_sqrt (S fuel) (PyFloat (S754_zero true)) verbose
       = ((if verbose then [S754_zero true] else []), Some (Raise ZeroDivisionError)).
Proof. intros fuel [|]; repeat split; reflexivity. Qed.



(** C5.  For every [n] in [range(9, 17)] the result is close to
    [math.sqrt(n)] under the default tolerance, while it is equal to it
    for all of them but 10 and 13, where it is one unit in the last
    place (2^-51) below and above. *)
Theorem sample_close_to_math_sqrt :
  forall k,
    sample = [9; 10; 11; 12; 13; 14; 15; 16]
    /\ map (close_to_math_sqrt (6 + k)) sample
       = [Some true; Some true; Some true; Some true;
          Some true; Some true; Some true; Some true]
    /\ map (equal_to_math_sqrt (6 + k)) sample
       = [Some true; Some false; Some true; Some true;
          Some false; Some true; Some true; Some true]
    /\ map (delta_from_math_sqrt (6 + k)) sample
       = [Some (S754_zero false);
          Some (S754_finite true 4503599627370496 (-103));
          Some (S754_zero false);
          Some (S754_zero false);
          Some (S754_finite false 4503599627370496 (-103));
          Some (S754_zero false);
          Some (S754_zero false);
          Some (S754_zero false)].
Proof.
  intros k. split; [reflexivity|]. repeat split; vm_compute; reflexivity.
Qed.

(** C6.  [newton_sqrt(100)] returns exactly 10.0. *)
Theorem newton_sqrt_100 :
  forall k verbose,
    snd (newton_sqrt (7 + k) (PyInt 100) verbose) = Some (Return (B64.of_Z 10))
    /\ B2R (B64.of_Z 10) = 10%R.
Proof.
  intros k verbose. split; [destruct verbose; vm_compute; reflexivity|].
  apply of_Z_small. lia.
Qed.

(** C7.  [newton_sqrt(1)] returns exactly 1.0. *)
Theorem newton_sqrt_1 :
  forall k verbose,
    snd (newton_sqrt (6 + k) (PyInt 1) verbose) = Some (Return (B64.of_Z 1))
    /\ B2R (B64.of_Z 1) = 1%R.
Proof.
  intros k verbose. split; [destruct verbose; vm_compute; reflexivity|].
  apply of_Z_small. lia.
Qed.




(** C9, amended.  For every positive argument [n] other than 5e-324 (a
    finite [float], or an [int] below 2^53), every guess is strictly
    positive, so that no division [n/guess] has a zero divisor and the
    call returns; every guess after the first is at least
    [sqrt(n) * (1 - 2^-51)]. *)
Theorem guesses_stay_positive (n : pynum) :
  in_domain n = true ->
  exists fuel tr r,
    (forall k, newton_sqrt (fuel + k) n true = (tr, Some (Return r)))
    /\ Forall (fun g => (0 < B2R g)%R
                        /\ B64.is_zero g = false
                        /\ exists q, truediv n (PyFloat g) = Return q) tr
    /\ Forall (fun g => (root (float_of n) * (1 - 4 * u) <= B2R g)%R) (tl tr)
    /\ (4 * u = bpow (-51))%R.
Proof.
  intros D. destruct (in_domain_solves n D) as (tr & r & S).
  exists (length tr), tr, r. split; [|split; [|split]].
  - intros k. apply (solves_newton_sqrt n tr r D S true k).
  - destruct S as (_ & _ & F & _).
    apply Forall_impl with (2 := F). intros g Pg.
    split; [apply posf_pos; exact Pg|]. split; [exact (posf_not_zero g Pg)|].
    exists (B64.div (float_of n) g).
    rewrite (positive_arg_truediv n g (in_domain_positive n D)).
    unfold truediv, as_float, bind, float_truediv.
    rewrite (posf_not_zero g Pg). reflexivity.
  - apply S.
  - unfold u. pose proof (bpow_succ (-53)) as H1. pose proof (bpow_succ (-52)) as H2.
    simpl Z.add in H1, H2. lra.
Qed.

Lemma guesses_stay_positive_at_100 :
  in_domain (PyInt 100) = true
  /\ exists fuel tr r,
       (forall k, newton_sqrt (fuel + k) (PyInt 100) true = (tr, Some (Return r)))
       /\ Forall (fun g => (0 < B2R g)%R
                           /\ B64.is_zero g = false
                           /\ exists q, truediv (PyInt 100) (PyFloat g) = Return q) tr
       /\ Forall (fun g => (root (float_of (PyInt 100)) * (1 - 4 * u) <= B2R g)%R)
                 (tl tr)
       /\ (4 * u = bpow (-51))%R.
Proof.
  split; [reflexivity|].
  apply (guesses_stay_positive (PyInt 100)). reflexivity.
Defined.

(** C9 as stated fails twice: for [n = 3] a guess after the first,
    1.7320508075688772, is below the square root of 3; for
    [n = 5e-324] the first division [n/guess] has a zero divisor. *)
Lemma guess_below_root_at_3 :
  (forall k,
      newton_sqrt (5 + k) (PyInt 3) true
      = ([ S754_finite false 6755399441055744 (-52);
           S754_finite false 7881299347898368 (-52);
           S754_finite false 7800877925981038 (-52);
           S754_finite false 7800463382569092 (-52);
           S754_finite false 7800463371553962 (-52) ],
         Some (Return (S754_finite false 7800463371553962 (-52)))))
  /\ (B2R (S754_finite false 7800463371553962 (-52)) < sqrt 3)%R
  /\ positive_arg (PyFloat B64.min_subnormal) = true
  /\ truediv (PyFloat B64.min_subnormal) (PyFloat (first_guess B64.min_subnormal))
     = Raise ZeroDivisionError.
Proof.
  split; [intros k; vm_compute; reflexivity|].
  split; [exact guess_below_sqrt3|].
  split; reflexivity.
Qed.

(** C10, amended.  For every positive argument [n] other than 5e-324 (a
    finite [float], or an [int] below 2^53) the loop ends after finitely
    many passes: some guess and its [better_guess] pass the closeness
    test and [better_guess] is returned. *)
Theorem newton_sqrt_terminates (n : pynum) :
  in_domain n = true ->
  exists fuel r,
    (forall k verbose,
        snd (newton_sqrt (fuel + k) n verbose) = Some (Return r))
    /\ exists guess,
         better_guess n guess = Return r /\ isclose guess r = true.
Proof.
  intros D. destruct (in_domain_solves n D) as (tr & r & S).
  exists (length tr), r. split.
  - intros k verbose. rewrite (solves_newton_sqrt n tr r D S verbose k). reflexivity.
  - destruct S as (Hrun & _).
    destruct (run_last _ _ _ _ Hrun) as (g & _ & L).
    exists g. rewrite (positive_arg_better_guess n g (in_domain_positive n D)).
    apply loop_body_Done. exact L.
Qed.

Lemma newton_sqrt_terminates_at_100 :
  in_domain (PyInt 100) = true
  /\ exists fuel r,
       (forall k verbose,
           snd (newton_sqrt (fuel + k) (PyInt 100) verbose) = Some (Return r))
       /\ exists guess,
            better_guess (PyInt 100) guess = Return r /\ isclose guess r = true.
Proof.
  split; [reflexivity|].
  apply (newton_sqrt_terminates (PyInt 100)). reflexivity.
Defined.

(** C10 as stated fails at [n = 5e-324], a finite positive double: the
    first pass raises [ZeroDivisionError] and nothing is returned. *)
Lemma newton_sqrt_raises_at_min :
  positive_arg (PyFloat B64.min_subnormal) = true
  /\ forall fuel verbose,
       snd (newton_sqrt (S fuel) (PyFloat B64.min_subnormal) verbose)
       = Some (Raise ZeroDivisionError).
Proof.
  split; [reflexivity|]. intros fuel verbose.
  rewrite min_subnormal_raises. reflexivity.
Qed.

(** * Part VI: further properties of [newton_sqrt]

    Accuracy of the result, the shape of the sequence of guesses, the
    number of passes, and the arguments outside the positive doubles:
    large and negative numbers, infinities and NaN. *)

(** ** The guesses of a call, pass by pass *)

Lemma chain_cons {A} (P : A -> A -> Prop) x y l :
  chain P (x :: y :: l) <-> P x y /\ chain P (y :: l).
Proof. reflexivity. Qed.

Lemma better_guess_unique n g b b' :
  better_guess n g = Return b -> better_guess n g = Return b' -> b = b'.
Proof. intros H1 H2. rewrite H1 in H2. injection H2 as ->. reflexivity. Qed.

Section Trace.
Local Open Scope R_scope.

Variable n : spec_float.
Hypothesis Hn : posf n.
Hypothesis HN : bpow (-1073) <= B2R n.

Lemma newton_map_mean g h :
  0 < B2R g -> 2 * h * B2R g = B2R g * B2R g + root n * root n ->
  h = newton_map (root n) (B2R g).
Proof.
  intros G0 Hh. unfold newton_map.
  apply Rmult_eq_reg_r with (2 * B2R g); [|lra]. field_simplify; [|lra]. lra.
Qed.

(** The first pass, from [n / 2]. *)
Lemma first_pass :
  exists b,
    better_guess (PyFloat n) (first_guess n) = Return b
    /\ quadratic_pass (root n) (first_guess n) b
    /\ good n b.
Proof.
  destruct (first_guess_value n Hn HN) as (Pg & [GL GU] & GM).
  pose proof (posf_pos _ Hn) as N0. pose proof (posf_pos _ Pg) as G0.
  pose proof (root_pos n Hn) as S0.
  pose proof (root_upper n Hn) as SU.
  pose proof (root_sqr n Hn) as SS.
  pose proof u_small as [U0 U1].
  assert (Hd : B2R n <= bpow 1000 * B2R (first_guess n)).
  { pose proof (bpow_le 2 1000 ltac:(lia)).
    assert (bpow 2 = 4).
    { pose proof (bpow_succ 1) as P. simpl Z.add in P. rewrite bpow_1 in P. lra. }
    nra. }
  destruct (pass_value n Hn HN (first_guess n) Pg Hd GM) as (b & h & E & Pb & Hh & Hb).
  exists b. split; [exact E|]. split.
  - unfold quadratic_pass. rewrite <- (newton_map_mean _ h G0 Hh). exact Hb.
  - set (s := root n) in *. set (g0 := first_guess n) in *.
    assert (BLo : s * (1 - 4 * u) <= B2R b).
    { apply (B_lower s (B2R g0) h (B2R b)); first [assumption | exact S0 | exact G0]. }
    split; [exact Pb|]. split; [exact BLo|].
    apply Rabs_le_inv in Hb.
    pose proof (bpow_succ 1022) as P2. simpl Z.add in P2.
    pose proof (bpow_le 3 1022 ltac:(lia)).
    assert (bpow 3 = 8).
    { pose proof (bpow_succ 1) as P; pose proof (bpow_succ 2) as P'.
      simpl Z.add in P, P'. rewrite bpow_1 in P. lra. }
    assert (2 * h * B2R g0 <= (B2R g0 + 4) * B2R g0) by nra.
    assert (2 * h <= B2R g0 + 4) by nra.
    nra.
Qed.

(** A later pass, from a guess that is not below the root by more than
    four roundoffs. *)
Lemma later_pass g :
  good n g ->
  exists b,
    better_guess (PyFloat n) g = Return b
    /\ quadratic_pass (root n) g b
    /\ good n b
    /\ (isclose g b = false -> B2R b < B2R g).
Proof.
  intros Gg. pose proof Gg as (Hg & GL & GU).
  destruct (good_pass n Hn HN g Gg) as (b & h & E & Pb & Hh & Hb & Gb).
  pose proof (root_pos n Hn) as S0. pose proof (posf_pos _ Hg) as G0.
  pose proof (root_lower n Hn HN) as SL. pose proof u_small as [U0 U1].
  exists b. split; [exact E|]. split; [|split; [exact Gb|]].
  - unfold quadratic_pass. rewrite <- (newton_map_mean _ h G0 Hh). exact Hb.
  - intros C. set (s := root n) in *.
    assert (GM : bpow (-1030) <= B2R g).
    { pose proof (bpow_le (-1030) (-538) ltac:(lia)).
      pose proof (bpow_succ (-538)) as P. simpl Z.add in P. nra. }
    assert (Far : s * (1 + 3 / 10000000000) < B2R g).
    { destruct (Rlt_le_dec (s * (1 + 3 / 10000000000)) (B2R g)) as [|Le]; [assumption|].
      exfalso.
      assert (isclose g b = true); [|congruence].
      apply isclose_intro; try assumption.
      apply (near_root_close s (B2R g) h (B2R b)); first [assumption | lra]. }
    apply (far_from_root s (B2R g) h (B2R b)); assumption.
Qed.

(** Along a run from a later guess: every pass is quadratic, and the
    guesses decrease. *)
Lemma run_later g tr r :
  run (PyFloat n) g tr (Return r) -> good n g ->
  chain (quadratic_pass (root n)) (tr ++ [r])
  /\ chain (fun x y => B2R y < B2R x) tr
  /\ Forall (good n) tr.
Proof.
  intros H. remember (Return r) as res eqn:E. remember (PyFloat n) as pn eqn:En.
  induction H as [g r0 H|g e H|g g' tr res H Hr IH]; intros Gg.
  - injection E as ->. subst pn.
    destruct (later_pass g Gg) as (b & Eb & Q & _).
    apply loop_body_Done in H. destruct H as [H _].
    rewrite (better_guess_unique _ _ _ _ H Eb).
    split; [split; [exact Q | exact I]|]. split; [exact I|].
    constructor; [exact Gg | constructor].
  - discriminate.
  - subst pn.
    destruct (later_pass g Gg) as (b & Eb & Q & Gb & D).
    apply loop_body_Next in H. destruct H as [H C].
    pose proof (better_guess_unique _ _ _ _ H Eb) as ->.
    destruct (IH E Gb) as (I1 & I2 & I3).
    destruct (run_head _ _ _ _ Hr) as [l ->].
    split; [|split].
    + split; [exact Q | exact I1].
    + split; [exact (D C) | exact I2].
    + constructor; assumption.
Qed.

(** Along a whole call. *)
Lemma run_call tr r :
  run (PyFloat n) (first_guess n) tr (Return r) ->
  chain (quadratic_pass (root n)) (tr ++ [r])
  /\ chain (fun x y => B2R y < B2R x) (tl tr).
Proof.
  intros H. destruct first_pass as (b & Eb & Q & Gb).
  inversion H as [g r0 L|g e L|g g' tr' res L Hr]; subst.
  - apply loop_body_Done in L. destruct L as [L _].
    rewrite (better_guess_unique _ _ _ _ L Eb).
    split; [split; [exact Q | exact I] | exact I].
  - apply loop_body_Next in L. destruct L as [L _].
    pose proof (better_guess_unique _ _ _ _ L Eb) as ->.
    destruct (run_later b tr' r Hr Gb) as (I1 & I2 & _).
    destruct (run_head _ _ _ _ Hr) as [l ->].
    split; [split; [exact Q | exact I1] | exact I2].
Qed.

End Trace.

(** ** Arguments that are not finite *)

Lemma nan_guess_loops n fuel verbose :
  snd (newton_loop fuel (PyFloat n) verbose B64.nan) = None.
Proof.
  induction fuel as [|fuel IH]; [reflexivity|].
  assert (L : loop_body (PyFloat n) B64.nan = Next B64.nan).
  { destruct n as [s|s| |s m e]; reflexivity. }
  cbn [newton_loop]. rewrite L.
  destruct (newton_loop fuel (PyFloat n) verbose B64.nan) as [out res].
  exact IH.
Qed.

Lemma not_finite_loops n fuel verbose :
  B64.is_finite n = false ->
  snd (newton_sqrt fuel (PyFloat n) verbose) = None.
Proof.
  intros F. rewrite newton_sqrt_float.
  destruct n as [s|s| |s m e]; try discriminate.
  - assert (G : B64.div (S754_infinity s) (B64.of_Z 2) = S754_infinity s)
      by (destruct s; reflexivity).
    rewrite G. destruct fuel as [|fuel]; [reflexivity|].
    assert (L : loop_body (PyFloat (S754_infinity s)) (S754_infinity s) = Next B64.nan)
      by (destruct s; reflexivity).
    cbn [newton_loop]. rewrite L.
    pose proof (nan_guess_loops (S754_infinity s) fuel verbose) as N.
    destruct (newton_loop fuel (PyFloat (S754_infinity s)) verbose B64.nan) as [out res].
    exact N.
  - apply nan_guess_loops.
Qed.

(** ** [int] arguments beyond the doubles *)

Lemma rounded_overflow sx x z :
  rounded sx x z -> (bpow 1024 - bpow 970 < x)%R -> z = S754_infinity sx.
Proof.
  intros (e & m & He & Hm0 & Hm & ->) Hx.
  pose proof (rounded_mantissa _ _ _ He Hm) as [Hm1 Hn].
  pose proof (bpow_lt 970 1023 ltac:(lia)) as P1.
  pose proof (bpow_succ 1023) as P2. simpl Z.add in P2.
  pose proof (bpow_pos 970) as P3.
  assert (E : 970 < e).
  { destruct He as [[_ Hlt]|[_ [_ Hhi]]].
    - pose proof (bpow_lt (-1021) 1023 ltac:(lia)). lra.
    - assert (H : (bpow 1023 < bpow (e + 53))%R) by lra.
      apply bpow_lt_inv in H. lia. }
  specialize (Hn ltac:(lia)).
  assert (M : e = 971 -> m = 2 ^ 53).
  { intros ->. apply Rabs_le_inv in Hm.
    assert (Y : (bpow 53 - / 2 < x / bpow 971)%R).
    { pose proof (bpow_pos 971) as P4.
      apply Rmult_lt_reg_r with (bpow 971); [exact P4|].
      unfold Rdiv. rewrite Rmult_assoc, Rinv_l, Rmult_1_r by lra.
      rewrite Rmult_minus_distr_r, <- bpow_add.
      replace (/ 2 * bpow 971)%R with (bpow 970).
      - exact Hx.
      - pose proof (bpow_succ 970) as Q. simpl Z.add in Q. lra. }
    rewrite <- (IZR_pow2 53) in Y by lia.
    assert (L : (IZR (2 ^ 53 - 1) < IZR m)%R) by (rewrite minus_IZR; lra).
    apply lt_IZR in L. lia. }
  destruct (Z.eq_dec m (2 ^ 53)) as [->|Hne1].
  - rewrite pack_carry by lia.
    replace (e + 1 <=? 971) with false by (symmetry; apply Z.leb_gt; lia). reflexivity.
  - destruct m as [|p|p]; try lia.
    rewrite pack_small by lia.
    replace (e <=? 971) with false by (symmetry; apply Z.leb_gt; lia). reflexivity.
Qed.

Lemma of_Z_overflow z :
  2 ^ 1024 - 2 ^ 970 <= Z.abs z -> B64.is_infinity (B64.of_Z z) = true.
Proof.
  intros H. unfold B64.of_Z, B64.prec, B64.emax.
  assert (P : forall s p, 2 ^ 1024 - 2 ^ 970 <= Zpos p ->
                          B64.is_infinity (binary_round 53 1024 s p 0) = true).
  { intros s p Hp.
    destruct (Z.eq_dec (Zpos p) (2 ^ 1024 - 2 ^ 970)) as [E|NE].
    - assert (Ep : p = Z.to_pos (2 ^ 1024 - 2 ^ 970)) by (rewrite <- E; reflexivity).
      rewrite Ep. destruct s; vm_compute; reflexivity.
    - replace (binary_round 53 1024 s p 0) with (S754_infinity s); [reflexivity|].
      symmetry. apply rounded_overflow with (x := F2R (Zpos p) 0).
      + apply binary_round_rounded.
      + unfold F2R. rewrite bpow_0, Rmult_1_r.
        rewrite <- (IZR_pow2 1024), <- (IZR_pow2 970), <- minus_IZR by lia.
        apply IZR_lt. lia. }
  destruct z as [|p|p]; cbn [binary_normalize].
  - simpl Z.abs in H. exfalso. revert H. vm_compute. intros H. apply H. reflexivity.
  - apply P. exact H.
  - apply P. exact H.
Qed.

Lemma big_int_raises z fuel verbose :
  2 ^ 1024 - 2 ^ 970 <= Z.abs z ->
  snd (newton_sqrt (S fuel) (PyInt z) verbose) = Some (Raise OverflowError).
Proof.
  intros H. pose proof (of_Z_overflow z H) as O.
  unfold newton_sqrt. cbn [truediv]. unfold int_truediv. cbn [Z.eqb].
  destruct (B64.is_infinity (B64.div (int_operand z) (int_operand 2))); [reflexivity|].
  cbn [newton_loop]. unfold loop_body, better_guess. cbn [truediv as_float bind].
  rewrite O. reflexivity.
Qed.

(** ** Square root *)

Lemma above_root (x y : R) : (0 <= y -> 0 < x -> y < x * x -> sqrt y < x)%R.
Proof.
  intros Y0 X0 H. destruct (Rlt_le_dec (sqrt y) x) as [|L]; [assumption|]. exfalso.
  pose proof (sqrt_sqrt y Y0) as S. nra.
Qed.

Lemma sqrt_location q r :
  0 <= q -> 0 <= r <= 2 * q ->
  located q (if r =? 0 then loc_Exact
             else loc_Inexact (if r <=? q then Lt else Gt))
          (sqrt (IZR (q * q + r))).
Proof.
  intros Hq Hr.
  assert (Q0 : (0 <= IZR q)%R) by (apply IZR_le; exact Hq).
  assert (R0 : (0 <= IZR r)%R) by (apply IZR_le; lia).
  assert (E : IZR (q * q + r) = (IZR q * IZR q + IZR r)%R)
    by (rewrite plus_IZR, mult_IZR; reflexivity).
  rewrite E.
  destruct (Z.eqb_spec r 0) as [->|Hne].
  - cbn [located]. rewrite Rplus_0_r. apply sqrt_square. exact Q0.
  - assert (R1 : (1 <= IZR r)%R) by (apply IZR_le; lia).
    destruct (Z.leb_spec r q) as [Hle|Hgt]; cbn [located].
    + assert (RQ : (IZR r <= IZR q)%R) by (apply IZR_le; exact Hle).
      split.
      * destruct (Z.eq_dec q 0) as [->|Hq0]; [lia|].
        apply below_root; [apply IZR_lt; lia | nra].
      * apply above_root; nra.
    + assert (RQ : (IZR q + 1 <= IZR r)%R).
      { rewrite <- plus_IZR. apply IZR_le. lia. }
      assert (RU : (IZR r <= 2 * IZR q)%R).
      { rewrite <- mult_IZR. apply IZR_le. lia. }
      split.
      * apply below_root; nra.
      * apply above_root; nra.
Qed.

Lemma sqrt_core_spec mx ex :
  let '(q, e', l) := SFsqrt_core_binary 53 1024 (Zpos mx) ex in
  0 <= q
  /\ located q l (sqrt (F2R (Zpos mx) ex) / bpow e')
  /\ e' <= fexp64 (Zdigits2 q + e').
Proof.
  unfold SFsqrt_core_binary.
  change (fexp 53 1024) with fexp64.
  set (d := Zdigits2 (Zpos mx)).
  set (t := Z.div2 (d + ex + 1)).
  set (e' := Z.min (fexp64 t) (Z.div2 ex)).
  set (s := ex - 2 * e').
  assert (Ht : 2 * t <= d + ex + 1 <= 2 * t + 1).
  { unfold t. rewrite Z.div2_div. pose proof (Z.div_mod (d + ex + 1) 2 ltac:(lia)).
    pose proof (Z.mod_pos_bound (d + ex + 1) 2 ltac:(lia)). lia. }
  assert (He2 : 2 * Z.div2 ex <= ex).
  { rewrite Z.div2_div. pose proof (Z.div_mod ex 2 ltac:(lia)).
    pose proof (Z.mod_pos_bound ex 2 ltac:(lia)). lia. }
  assert (Hs : 0 <= s) by (unfold s, e'; lia).
  set (m' := match s with Zpos _ => Z.shiftl (Zpos mx) s | Z0 => Zpos mx | Zneg _ => 0 end).
  assert (Em : m' = Zpos mx * 2 ^ s).
  { unfold m'. destruct s as [|p|p] eqn:Es; try lia.
    rewrite Z.shiftl_mul_pow2 by lia. reflexivity. }
  clearbody m'.
  assert (P2 : 0 < 2 ^ s) by (apply Z.pow_pos_nonneg; lia).
  pose proof (Z.sqrtrem_spec m' ltac:(nia)) as SR.
  destruct (Z.sqrtrem m') as [q r]. destruct SR as [Eq Hr].
  assert (Hq : 0 <= q) by lia.
  split; [exact Hq|]. split.
  - replace (sqrt (F2R (Zpos mx) ex) / bpow e')%R with (sqrt (IZR (q * q + r)));
      [apply sqrt_location; assumption|].
    rewrite <- Eq, Em, mult_IZR, (IZR_pow2 s) by lia.
    pose proof (bpow_pos e') as Pe. pose proof (bpow_pos s) as Ps.
    assert (X : F2R (Zpos mx) ex = (IZR (Zpos mx) * bpow s * (bpow e' * bpow e'))%R).
    { unfold F2R. replace ex with (s + (e' + e')) at 1 by (unfold s; lia).
      rewrite !bpow_add. ring. }
    rewrite X, (sqrt_mult_alt (IZR (Zpos mx) * bpow s) (bpow e' * bpow e')).
    + rewrite (sqrt_square (bpow e')) by lra. field. lra.
    + apply Rmult_le_pos; [apply IZR_le; lia | lra].
  - rewrite fexp64_eq.
    assert (Ee : e' <= Z.max (t - 53) (-1074)).
    { unfold e'. rewrite fexp64_eq. lia. }
    assert (Es : s = ex - 2 * e') by reflexivity.
    clearbody s e'.
    destruct (Z_le_gt_dec e' (-1074)) as [|Hn]; [lia|].
    pose proof (Zdigits2_bounds (Zpos mx) ltac:(lia)) as [Dlo Dhi].
    pose proof (Zdigits2_pos (Zpos mx) ltac:(lia)) as Dp.
    fold d in Dlo, Dhi, Dp.
    assert (S1 : 104 <= d - 1 + s) by lia.
    assert (L : 2 ^ 104 <= m').
    { rewrite Em. apply Z.le_trans with (2 ^ (d - 1 + s)); [apply Z.pow_le_mono_r; lia|].
      rewrite Z.pow_add_r by lia. nia. }
    assert (Q : 2 ^ 52 <= q).
    { destruct (Z_le_gt_dec (2 ^ 52) q) as [|G]; [assumption|]. exfalso.
      assert (q + 1 <= 2 ^ 52) by lia.
      assert ((q + 1) * (q + 1) <= 2 ^ 52 * 2 ^ 52) by nia.
      change (2 ^ 52 * 2 ^ 52) with (2 ^ 104) in *. nia. }
    pose proof (Zdigits2_bounds q ltac:(lia)) as [_ Dqhi].
    assert (52 < Zdigits2 q).
    { apply (Z.pow_lt_mono_r_iff 2); try lia. apply Zdigits2_nonneg. }
    lia.
Qed.

Lemma sqrt_rounded a :
  posf a -> rounded false (sqrt (B2R a)) (SFsqrt 53 1024 a).
Proof.
  intros (mx & ex & -> & Bx).
  pose proof (sqrt_core_spec mx ex) as H.
  unfold SFsqrt.
  destruct (SFsqrt_core_binary 53 1024 (Zpos mx) ex) as [[q e'] l].
  destruct H as (Hq & Hl & He).
  apply binary_round_aux_rounded; assumption.
Qed.

(** ** Accuracy *)

Lemma in_domain_accurate n :
  in_domain n = true ->
  exists tr r,
    solves (float_of n) tr r
    /\ returns n r
    /\ posf (float_of n)
    /\ (bpow (-1073) <= B2R (float_of n))%R.
Proof.
  intros D. destruct (admissible_spec _ (in_domain_admissible n D)) as [Hn HN].
  destruct (in_domain_solves n D) as (tr & r & S).
  exists tr, r. split; [exact S|]. split; [|split; assumption].
  exact (solves_gives_returns n tr r D S).
Qed.

Lemma math_sqrt_value n :
  in_domain n = true ->
  math_sqrt n = Return (B64.sqrt (float_of n))
  /\ posf (B64.sqrt (float_of n))
  /\ (Rabs (B2R (B64.sqrt (float_of n)) - root (float_of n))
      <= u * root (float_of n))%R.
Proof.
  intros D. destruct (admissible_spec _ (in_domain_admissible n D)) as [Hn HN].
  split.
  - unfold math_sqrt. rewrite (positive_arg_as_float n (in_domain_positive n D)).
    cbn [bind]. destruct Hn as (m & e & -> & _). reflexivity.
  - pose proof (sqrt_rounded _ Hn) as Rd.
    pose proof (root_lower _ Hn HN) as SL. pose proof (root_upper _ Hn) as SU.
    apply rounded_normal; [exact Rd | |].
    + fold (root (float_of n)).
      pose proof (bpow_le (-1022) (-537) ltac:(lia)). lra.
    + apply rounded_no_overflow with (x := sqrt (B2R (float_of n))); [exact Rd|].
      fold (root (float_of n)).
      pose proof (bpow_lt 512 1023 ltac:(lia)).
      pose proof (bpow_lt 970 1023 ltac:(lia)).
      pose proof (bpow_succ 1023) as P. simpl Z.add in P. lra.
Qed.

Lemma root_band (s x p : R) :
  (0 < x -> 0 < s -> s * s = p ->
   Rabs (p - x * x) <= u * (x * x) -> Rabs (s - x) <= u * x)%R.
Proof.
  intros X0 S0 E H. pose proof u_small as [U0 U1].
  apply Rabs_le_inv in H. apply Rabs_le. split.
  - destruct (Rle_lt_dec (- (u * x)) (s - x)) as [|L]; [assumption|]. exfalso.
    assert (s < x * (1 - u))%R by lra.
    assert (s * s < x * (1 - u) * (x * (1 - u)))%R
      by (apply Rmult_le_0_lt_compat; lra).
    nra.
  - destruct (Rle_lt_dec (s - x) (u * x)) as [|L]; [assumption|]. exfalso.
    assert (x * (1 + u) < s)%R by lra.
    assert (0 < x * (1 + u))%R by nra.
    assert (x * (1 + u) * (x * (1 + u)) < s * s)%R
      by (apply Rmult_le_0_lt_compat; lra).
    nra.
Qed.

Lemma sqrt_of_square_close x :
  posf x -> (bpow (-511) <= B2R x)%R ->
  B64.is_infinity (B64.mul x x) = false ->
  exists r,
    returns (PyFloat (B64.mul x x)) r
    /\ isclose r x = true
    /\ (Rabs (B2R r - B2R x) <= 7 * u * B2R x)%R.
Proof.
  intros Px XL Fin.
  pose proof (posf_pos _ Px) as X0. pose proof u_small as [U0 U1].
  pose proof (bpow_pos (-511)) as P511.
  assert (Sq : (bpow (-1022) <= B2R x * B2R x)%R).
  { replace (bpow (-1022)) with (bpow (-511) * bpow (-511))%R
      by (rewrite <- bpow_add; reflexivity). nra. }
  destruct (rounded_normal (B2R x * B2R x) (SFmul 53 1024 x x)) as [Pp Ep].
  - apply mul_rounded; assumption.
  - exact Sq.
  - intros C. unfold B64.mul, B64.prec, B64.emax in Fin. rewrite C in Fin. discriminate.
  - change (SFmul 53 1024 x x) with (B64.mul x x) in Pp, Ep.
    set (p := B64.mul x x) in *.
    pose proof (bpow_lt (-1073) (-1022) ltac:(lia)) as L1.
    pose proof (bpow_pos (-1073)).
    assert (HN : (bpow (-1073) <= B2R p)%R).
    { pose proof Ep as Ep'. apply Rabs_le_inv in Ep'.
      pose proof (bpow_succ (-1023)) as Q. simpl Z.add in Q.
      pose proof (bpow_le (-1073) (-1023) ltac:(lia)). nra. }
    destruct (newton_solves p Pp HN) as (tr & r & S).
    pose proof S as (_ & _ & _ & _ & _ & Pr & Acc).
    pose proof (root_pos p Pp) as S0. pose proof (root_sqr p Pp) as SS.
    pose proof (root_band (root p) (B2R x) (B2R p) X0 S0 SS Ep) as Band.
    set (s := root p) in *.
    apply Rabs_le_inv in Band. pose proof Acc as Acc'. apply Rabs_le_inv in Acc'.
    assert (Er : (Rabs (B2R r - B2R x) <= 7 * u * B2R x)%R).
    { apply Rabs_le. split; nra. }
    exists r. split; [|split; [|exact Er]].
    + exists (length tr + 0)%nat. rewrite (solves_returns p tr r S). reflexivity.
    + pose proof Er as Er'. apply Rabs_le_inv in Er'.
      apply isclose_intro; try assumption.
      * pose proof (bpow_le (-1030) (-512) ltac:(lia)).
        pose proof (bpow_succ (-512)) as Q. simpl Z.add in Q. nra.
      * rewrite Rabs_minus_sym. eapply Rle_trans; [exact Er|]. nra.
Qed.

(** ** The guesses of a call *)

Lemma call_trace n :
  in_domain n = true ->
  exists tr r,
    (forall k verbose,
        newton_sqrt (length tr + k) n verbose
        = ((if verbose then tr else []), Some (Return r)))
    /\ chain (quadratic_pass (root (float_of n))) (tr ++ [r])
    /\ chain (fun x y => (B2R y < B2R x)%R) (tl tr).
Proof.
  intros D. destruct (admissible_spec _ (in_domain_admissible n D)) as [Hn HN].
  destruct (in_domain_solves n D) as (tr & r & S).
  exists tr, r. split.
  - intros k verbose. apply (solves_newton_sqrt n tr r D S).
  - destruct S as (Hrun & _). apply run_call; assumption.
Qed.

(** ** How many passes *)

Section Count.
Local Open Scope R_scope.

(** One pass on the reals: far from the root the guess shrinks by a
    factor, near the root the relative error is squared. *)
Lemma pass_shrinks (s G h B : R) :
  0 < s -> 3 * s < G ->
  2 * h * G = G * G + s * s -> Rabs (B - h) <= 4 * u * h ->
  B - s / 2 <= (G - s / 2) * (/ 2 + / 1000000000000000).
Proof.
  intros S0 Far Hh HB. pose proof u_small as [U0 U1].
  apply Rabs_le_inv in HB.
  assert (G0 : 0 < G) by lra.
  assert (A1 : s * s <= s * G / 3) by nra.
  assert (A2 : 2 * G * (h - s / 2) <= 2 * G * ((G - s / 2) / 2)) by nra.
  assert (A3 : h - s / 2 <= (G - s / 2) / 2).
  { apply Rmult_le_reg_l with (2 * G); [lra | exact A2]. }
  assert (A4 : 0 < h) by nra.
  assert (A5 : h <= G) by lra.
  assert (A6 : 4 * u * h <= (G - s / 2) * / 1000000000000000) by nra.
  lra.
Qed.

Lemma pass_from_thrice (s G h B : R) :
  0 < s -> s * (1 - 4 * u) <= G <= 3 * s ->
  2 * h * G = G * G + s * s -> Rabs (B - h) <= 4 * u * h ->
  B <= s * (1 + 1).
Proof.
  intros S0 [GL GU] Hh HB. pose proof u_small as [U0 U1].
  apply Rabs_le_inv in HB.
  assert (G0 : 0 < G) by nra.
  assert (A1 : 0 <= (3 * s - G) * (G - s / 3)) by (apply Rmult_le_pos; nra).
  assert (A2 : 2 * G * h <= 2 * G * (5 / 3 * s)) by nra.
  assert (A3 : h <= 5 / 3 * s).
  { apply Rmult_le_reg_l with (2 * G); [lra | exact A2]. }
  assert (A4 : 0 < h) by nra.
  nra.
Qed.

Lemma pass_squares (s G h B t : R) :
  0 < s -> s * (1 - 4 * u) <= G <= s * (1 + t) -> 4 * u <= t <= 1 ->
  2 * h * G = G * G + s * s -> Rabs (B - h) <= 4 * u * h ->
  B <= s * (1 + (t * t / 2 + / 500000000000000)).
Proof.
  intros S0 [GL GU] [T0 T1] Hh HB. pose proof u_small as [U0 U1].
  apply Rabs_le_inv in HB.
  assert (G0 : 0 < G) by nra.
  assert (A1 : (G - s) * (G - s) <= t * t * (s * s)).
  { assert (4 * u * s <= t * s) by (apply Rmult_le_compat_r; lra).
    assert (- (t * s) <= G - s) by nra.
    assert (G - s <= t * s) by nra.
    assert (0 <= (t * s - (G - s)) * (t * s + (G - s))) by (apply Rmult_le_pos; lra).
    nra. }
  assert (A2 : 2 * G * (h - s) = (G - s) * (G - s)) by nra.
  assert (A3 : s <= G * (1 + 6 * u)).
  { assert (s * (1 - 4 * u) * (1 + 6 * u) <= G * (1 + 6 * u))
      by (apply Rmult_le_compat_r; lra).
    assert (0 <= 2 * u - 24 * (u * u)) by nra.
    assert (0 <= s * (2 * u - 24 * (u * u))) by (apply Rmult_le_pos; lra).
    nra. }
  assert (A4 : h - s <= t * t * s * (/ 2 + 3 * u)).
  { apply Rmult_le_reg_l with (2 * G); [lra|]. rewrite A2.
    eapply Rle_trans; [exact A1|].
    assert (0 <= t * t * s) by (apply Rmult_le_pos; [nra | lra]).
    replace (2 * G * (t * t * s * (/ 2 + 3 * u))) with (t * t * s * (G * (1 + 6 * u)))
      by field.
    replace (t * t * (s * s)) with (t * t * s * s) by ring.
    apply Rmult_le_compat_l; assumption. }
  assert (TT : 0 <= t * t <= 1) by nra.
  assert (A5 : h <= s * (1 + t * t * (/ 2 + 3 * u))) by nra.
  assert (H0 : 0 < h) by nra.
  assert (A6 : B <= s * (1 + t * t * (/ 2 + 3 * u)) * (1 + 4 * u)) by nra.
  eapply Rle_trans; [exact A6|].
  rewrite Rmult_assoc. apply Rmult_le_compat_l; [lra|].
  assert (t * t * u <= u) by nra.
  assert (u * u <= u * / 8000000000000000) by nra.
  assert (t * t * (u * u) <= u * u) by nra.
  nra.
Qed.

Variable n : spec_float.
Hypothesis Hn : posf n.
Hypothesis HN : bpow (-1073) <= B2R n.

Lemma within_close : within n (3 / 10000000000) 1.
Proof.
  intros g Gg Le. pose proof Gg as (Hg & GL & GU).
  destruct (good_pass n Hn HN g Gg) as (b & h & E & Pb & Hh & Hb & Gb).
  pose proof (root_pos n Hn) as S0. pose proof (posf_pos _ Hg) as G0.
  pose proof (root_lower n Hn HN) as SL. pose proof u_small as [U0 U1].
  set (s := root n) in *.
  assert (GM : bpow (-1030) <= B2R g).
  { pose proof (bpow_le (-1030) (-538) ltac:(lia)).
    pose proof (bpow_succ (-538)) as P. simpl Z.add in P. nra. }
  assert (C : isclose g b = true).
  { apply isclose_intro; try assumption.
    apply (near_root_close s (B2R g) h (B2R b)); first [assumption | lra]. }
  exists [g], b. split; [|simpl; lia].
  apply run_done. unfold loop_body. rewrite E, C. reflexivity.
Qed.

Lemma within_step t t' m :
  4 * u <= t <= 1 -> t * t / 2 + / 500000000000000 <= t' ->
  within n t' m -> within n t (S m).
Proof.
  intros Ht Ht' W g Gg Le. pose proof Gg as (Hg & GL & GU).
  destruct (good_pass n Hn HN g Gg) as (b & h & E & Pb & Hh & Hb & Gb).
  pose proof (root_pos n Hn) as S0.
  destruct (isclose g b) eqn:C.
  - exists [g], b. split; [|simpl; lia].
    apply run_done. unfold loop_body. rewrite E, C. reflexivity.
  - destruct (W b Gb) as (tr & r & Hr & Len).
    + pose proof (pass_squares (root n) (B2R g) h (B2R b) t S0 (conj GL Le) Ht Hh Hb) as Q.
      eapply Rle_trans; [exact Q|]. apply Rmult_le_compat_l; lra.
    + exists (g :: tr), r. split; [|simpl; lia].
      apply run_next with b; [|exact Hr]. unfold loop_body. rewrite E, C. reflexivity.
Qed.

Lemma within_twice : within n 1 7.
Proof.
  pose proof u_small as [U0 U1].
  apply within_step with (t' := 51 / 100); [lra | lra|].
  apply within_step with (t' := 131 / 1000); [lra | lra|].
  apply within_step with (t' := 86 / 10000); [lra | lra|].
  apply within_step with (t' := 37 / 1000000); [lra | lra|].
  apply within_step with (t' := 69 / 100000000000); [lra | lra|].
  apply within_step with (t' := 3 / 10000000000); [lra | lra|].
  exact within_close.
Qed.

Lemma within_thrice : within n 2 8.
Proof.
  intros g Gg Le. pose proof Gg as (Hg & GL & GU).
  destruct (good_pass n Hn HN g Gg) as (b & h & E & Pb & Hh & Hb & Gb).
  pose proof (root_pos n Hn) as S0.
  destruct (isclose g b) eqn:C.
  - exists [g], b. split; [|simpl; lia].
    apply run_done. unfold loop_body. rewrite E, C. reflexivity.
  - destruct (within_twice b Gb) as (tr & r & Hr & Len).
    + apply (pass_from_thrice (root n) (B2R g) h (B2R b)); first [assumption | lra].
    + exists (g :: tr), r. split; [|simpl; lia].
      apply run_next with b; [|exact Hr]. unfold loop_body. rewrite E, C. reflexivity.
Qed.

(** Far from the root every pass halves the distance of the guess to
    half the root, nearly. *)
Lemma far_passes (k : nat) :
  forall g, good n g ->
  (B2R g - root n / 2) * (/ 2 + / 1000000000000000) ^ k <= 5 / 2 * root n ->
  exists tr r, run (PyFloat n) g tr (Return r) /\ (length tr <= k + 8)%nat.
Proof.
  pose proof (root_pos n Hn) as S0.
  assert (Near : forall g, good n g -> B2R g <= 3 * root n ->
                 exists tr r, run (PyFloat n) g tr (Return r) /\ (length tr <= 8)%nat).
  { intros g Gg Le. apply within_thrice; [exact Gg | lra]. }
  induction k as [|k IH]; intros g Gg Le.
  - simpl in Le. destruct (Near g Gg ltac:(lra)) as (tr & r & Hr & Len).
    exists tr, r. split; [exact Hr | lia].
  - destruct (Rle_lt_dec (B2R g) (3 * root n)) as [Cl|Far].
    + destruct (Near g Gg Cl) as (tr & r & Hr & Len).
      exists tr, r. split; [exact Hr | lia].
    + pose proof Gg as (Hg & GL & GU).
      destruct (good_pass n Hn HN g Gg) as (b & h & E & Pb & Hh & Hb & Gb).
      destruct (isclose g b) eqn:C.
      * exists [g], b. split; [|simpl; lia].
        apply run_done. unfold loop_body. rewrite E, C. reflexivity.
      * destruct (IH b Gb) as (tr & r & Hr & Len).
        { pose proof (pass_shrinks (root n) (B2R g) h (B2R b) S0 Far Hh Hb) as Q.
          set (c := / 2 + / 1000000000000000) in *.
          assert (P : 0 < c ^ k) by (apply pow_lt; unfold c; lra).
          simpl in Le.
          apply Rle_trans with ((B2R g - root n / 2) * c * c ^ k); [|lra].
          apply Rmult_le_compat_r; lra. }
        exists (g :: tr), r. split; [|simpl; lia].
        apply run_next with b; [|exact Hr]. unfold loop_body. rewrite E, C. reflexivity.
Qed.

Lemma fraction_le (p a b : R) :
  0 < b -> 2 * (p * a) <= 5 * b -> p * (a * / b) <= 5 / 2.
Proof.
  intros P H. apply Rmult_le_reg_r with b; [exact P|].
  replace (p * (a * / b) * b) with (p * a) by (field; lra). lra.
Qed.

Lemma factor_538 : bpow 539 * (/ 2 + / 1000000000000000) ^ 538 <= 5 / 2.
Proof.
  rewrite <- (IZR_pow2 539) by lia.
  replace (/ 2 + / 1000000000000000) with (IZR 500000000000001 * / IZR 1000000000000000)
    by lra.
  rewrite Rpow_mult_distr, pow_inv, !pow_IZR.
  change (Z.of_nat 538) with 538%Z.
  apply fraction_le.
  - apply IZR_lt. vm_compute. reflexivity.
  - rewrite <- !mult_IZR. apply IZR_le. vm_compute. discriminate.
Qed.

(** After the first pass the guess is at most 2^539 times the root. *)
Lemma first_pass_bound b :
  better_guess (PyFloat n) (first_guess n) = Return b ->
  B2R b <= bpow 539 * root n.
Proof.
  intros E.
  destruct (first_pass n Hn HN) as (b' & E' & Q & Gb).
  rewrite (better_guess_unique _ _ _ _ E E'). clear E b.
  destruct (first_guess_value n Hn HN) as (Pg & [GL GU] & GM).
  pose proof (posf_pos _ Pg) as G0.
  pose proof (root_pos n Hn) as S0. pose proof (root_sqr n Hn) as SS.
  pose proof (root_upper n Hn) as SU. pose proof (root_lower n Hn HN) as SL.
  pose proof u_small as [U0 U1].
  unfold quadratic_pass in Q. apply Rabs_le_inv in Q.
  set (s := root n) in *. set (G := B2R (first_guess n)) in *.
  set (h := newton_map s G) in *.
  assert (Hh : 2 * h * G = G * G + s * s).
  { unfold h, newton_map. field. lra. }
  assert (H4 : 2 * h * G <= (G + 4) * G) by nra.
  assert (H5 : 2 * h <= G + 4) by nra.
  assert (H6 : 0 < h) by nra.
  assert (P1 : bpow 538 * bpow (-537) = 2).
  { rewrite <- bpow_add. simpl Z.add. apply bpow_1. }
  assert (P2 : bpow 512 <= bpow 538) by (apply bpow_le; lia).
  pose proof (bpow_succ 538) as P3. simpl Z.add in P3.
  pose proof (bpow_pos 538) as P4.
  assert (H7 : 2 <= bpow 538 * s) by nra.
  assert (H8 : G <= bpow 538 * s) by nra.
  nra.
Qed.

(** A whole call takes at most 547 passes. *)
Lemma call_passes :
  exists tr r,
    run (PyFloat n) (first_guess n) tr (Return r) /\ (length tr <= 547)%nat.
Proof.
  destruct (first_pass n Hn HN) as (b & E & _ & Gb).
  pose proof (root_pos n Hn) as S0.
  destruct (isclose (first_guess n) b) eqn:C.
  - exists [first_guess n], b. split; [|simpl; lia].
    apply run_done. unfold loop_body. rewrite E, C. reflexivity.
  - destruct (far_passes 538 b Gb) as (tr & r & Hr & Len).
    + pose proof (first_pass_bound b E) as Q. pose proof factor_538 as F.
      set (c := (/ 2 + / 1000000000000000) ^ 538) in *.
      assert (P0 : 0 < c) by (apply pow_lt; lra).
      apply Rle_trans with (bpow 539 * root n * c).
      * apply Rmult_le_compat_r; lra.
      * replace (bpow 539 * root n * c) with (root n * (bpow 539 * c)) by ring.
        replace (5 / 2 * root n) with (root n * (5 / 2)) by ring.
        apply Rmult_le_compat_l; lra.
    + exists (first_guess n :: tr), r. split; [|simpl; lia].
      apply run_next with b; [|exact Hr]. unfold loop_body. rewrite E, C. reflexivity.
Qed.

End Count.

(** ** Signs *)

Lemma div_signed sx mx ex sy my ey :
  rounded (xorb sx sy) (F2R (Zpos mx) ex / F2R (Zpos my) ey)
          (SFdiv 53 1024 (S754_finite sx mx ex) (S754_finite sy my ey)).
Proof.
  pose proof (div_core_spec mx ex my ey) as H.
  unfold SFdiv.
  destruct (SFdiv_core_binary 53 1024 (Zpos mx) ex (Zpos my) ey) as [[q e'] l].
  destruct H as (Hq & Hl & He).
  apply binary_round_aux_rounded; assumption.
Qed.

Lemma add_opposite s mg eg mq eq :
  let G := F2R (Zpos mg) eg in
  let Q := F2R (Zpos mq) eq in
  let z := SFadd 53 1024 (S754_finite s mg eg) (S754_finite (negb s) mq eq) in
  (G = Q /\ z = S754_zero false)
  \/ ((Q < G)%R /\ rounded s (G - Q) z)
  \/ ((G < Q)%R /\ rounded (negb s) (Q - G) z).
Proof.
  intros G Q z. unfold z. clear z.
  set (ez := Z.min eg eq).
  change (SFadd 53 1024 (S754_finite s mg eg) (S754_finite (negb s) mq eq))
    with (binary_normalize 53 1024
            (cond_Zopp s (Zpos (fst (shl_align mg eg ez)))
             + cond_Zopp (negb s) (Zpos (fst (shl_align mq eq ez)))) ez false).
  destruct (shl_align_spec mg eg ez ltac:(lia)) as [Eg _].
  destruct (shl_align_spec mq eq ez ltac:(lia)) as [Eq _].
  rewrite Eg, Eq.
  remember (Zpos mg * 2 ^ (eg - ez) - Zpos mq * 2 ^ (eq - ez)) as D eqn:ED.
  assert (V : (G - Q = F2R D ez)%R).
  { rewrite ED. unfold G, Q.
    rewrite <- (F2R_shift (Zpos mg) eg (eg - ez)) by lia.
    rewrite <- (F2R_shift (Zpos mq) eq (eq - ez)) by lia.
    replace (eg - (eg - ez)) with ez by lia. replace (eq - (eq - ez)) with ez by lia.
    unfold F2R. rewrite minus_IZR. ring. }
  assert (ES : cond_Zopp s (Zpos mg * 2 ^ (eg - ez))
               + cond_Zopp (negb s) (Zpos mq * 2 ^ (eq - ez))
               = cond_Zopp s D).
  { rewrite ED. destruct s; cbn [cond_Zopp negb]; lia. }
  rewrite ES. clear ES.
  assert (N : forall q, (F2R (Zneg q) ez = - F2R (Zpos q) ez)%R).
  { intros q. unfold F2R. change (Zneg q) with (- Zpos q). rewrite opp_IZR. ring. }
  destruct D as [|q|q].
  - left. split.
    + assert (F2R 0 ez = 0)%R by (unfold F2R; simpl; ring). lra.
    + destruct s; reflexivity.
  - right. left. pose proof (F2R_pos q ez) as P. split; [lra|].
    rewrite V. destruct s; cbn [cond_Zopp Z.opp binary_normalize]; apply binary_round_rounded.
  - right. right. pose proof (F2R_pos q ez) as P. rewrite N in V. split; [lra|].
    replace (Q - G)%R with (F2R (Zpos q) ez) by lra.
    destruct s; cbn [cond_Zopp Z.opp binary_normalize negb]; apply binary_round_rounded.
Qed.

Lemma sub_same_sign s mb eb mg eg :
  SFabs (SFsub 53 1024 (S754_finite s mb eb) (S754_finite s mg eg))
  = SFabs (SFsub 53 1024 (S754_finite false mb eb) (S754_finite false mg eg)).
Proof.
  destruct s; [|reflexivity]. cbn [SFsub cond_Zopp].
  rewrite <- SFabs_binary_normalize_opp. f_equal; f_equal; lia.
Qed.

Lemma sub_opposite s mb eb mg eg :
  SFabs (SFsub 53 1024 (S754_finite (negb s) mb eb) (S754_finite s mg eg))
  = SFabs (SFadd 53 1024 (S754_finite false mb eb) (S754_finite false mg eg)).
Proof.
  destruct s; cbn [SFsub SFadd cond_Zopp negb].
  - f_equal; f_equal; lia.
  - rewrite <- SFabs_binary_normalize_opp. f_equal; f_equal; lia.
Qed.

Lemma eqb_same_sign s mg eg mb eb :
  SFeqb (S754_finite s mg eg) (S754_finite s mb eb)
  = SFeqb (S754_finite false mg eg) (S754_finite false mb eb).
Proof.
  destruct s; [|reflexivity]. unfold SFeqb. cbn [SFcompare].
  destruct (eg ?= eb); try reflexivity.
  destruct (Pos.compare_cont Eq mg mb); reflexivity.
Qed.

Lemma infinity_or_not s (z : spec_float) :
  z = S754_infinity s \/ z <> S754_infinity s.
Proof.
  destruct z as [s'|s'| |s' m e]; try (right; discriminate).
  destruct s, s'; first [left; reflexivity | right; discriminate].
Qed.

(** ** Pairs that are not close *)

Section NotClose.
Local Open Scope R_scope.

Lemma tol_le x : nonnegf x -> B2R (tol x) <= 2 * rel * B2R x.
Proof.
  intros [->|Hx]; [cbn; lra|].
  pose proof (posf_pos _ Hx) as X0. pose proof rel_bounds as RB.
  destruct (tol_nonneg x (or_intror Hx)) as [T Inf].
  assert (Rd : rounded false (rel * B2R x) (tol x)).
  { apply mul_rounded; [exact posf_rel | exact Hx]. }
  assert (P : 0 < rel * B2R x) by nra.
  pose proof (rounded_nearest false _ _ (S754_zero false) Rd P Inf (or_introl eq_refl)) as Nr.
  pose proof (nonnegf_ge _ T) as T0.
  rewrite (Rabs_right (B2R (tol x))) in Nr by lra.
  cbn [B2R] in Nr. rewrite Rminus_0_l, Rabs_Ropp, (Rabs_right (rel * B2R x)) in Nr by lra.
  apply Rabs_le_inv in Nr. lra.
Qed.

Lemma rounded_half x d :
  rounded false x d -> d <> S754_infinity false -> bpow (-1074) <= x ->
  nonnegf d /\ x / 2 <= B2R d.
Proof.
  intros Rd Inf Hx. pose proof (bpow_pos (-1074)) as P.
  destruct (rounded_nonneg x d Rd ltac:(lra) Inf) as [Nd Er].
  split; [exact Nd|]. apply Rabs_le_inv in Er.
  pose proof u_small as [U0 U1].
  pose proof (bpow_succ (-1075)) as E. simpl Z.add in E. fold eta in E.
  assert (M : Rmax (u * x) eta <= x / 2).
  { apply Rmax_lub; [nra | lra]. }
  lra.
Qed.

Lemma posf_apart a b :
  posf a -> posf b -> B2R a <> B2R b -> bpow (-1074) <= Rabs (B2R b - B2R a).
Proof.
  intros Ha Hb NE.
  destruct (posf_grid _ Ha) as [ka Ea]. destruct (posf_grid _ Hb) as [kb Eb].
  rewrite Ea, Eb in *. pose proof (bpow_pos (-1074)) as P.
  rewrite <- Rmult_minus_distr_r, Rabs_mult, (Rabs_right (bpow (-1074))) by lra.
  rewrite <- minus_IZR, <- abs_IZR.
  assert (kb <> ka) by (intros ->; apply NE; reflexivity).
  assert (1 <= IZR (Z.abs (kb - ka))) by (apply IZR_le; lia).
  nra.
Qed.

(** The three tests of [math.isclose] fail when the difference exceeds
    twice the tolerance of the larger magnitude. *)
Lemma not_close a b :
  valid a -> valid b -> B64.is_finite a = true -> B64.is_finite b = true ->
  SFeqb a b = false ->
  SFabs (SFsub 53 1024 b a) = S754_infinity false
  \/ (0 < B2R (SFabs (SFsub 53 1024 b a))
      /\ 2 * rel * Rmax (B2R (SFabs a)) (B2R (SFabs b))
         < B2R (SFabs (SFsub 53 1024 b a))) ->
  isclose a b = false.
Proof.
  intros Va Vb Fa Fb E D.
  pose proof (valid_abs_nonnegf a Va Fa) as Na.
  pose proof (valid_abs_nonnegf b Vb Fb) as Nb.
  destruct (tol_nonneg _ Na) as [Ta _]. destruct (tol_nonneg _ Nb) as [Tb _].
  pose proof (tol_le _ Na) as La. pose proof (tol_le _ Nb) as Lb.
  pose proof (nonnegf_ge _ Na) as A0. pose proof (nonnegf_ge _ Nb) as B0.
  pose proof rel_bounds as RB.
  unfold isclose, isclose_tol, B64.eqb, B64.leb, B64.abs, B64.sub, B64.mul,
    B64.prec, B64.emax, abs_tol_default, B64.zero.
  rewrite E.
  assert (Ia : B64.is_infinity a = false) by (destruct a; try discriminate; reflexivity).
  assert (Ib : B64.is_infinity b = false) by (destruct b; try discriminate; reflexivity).
  rewrite Ia, Ib. cbn [orb].
  rewrite (SFabs_mul a Fa), (SFabs_mul b Fb).
  destruct D as [Inf|[D0 D]].
  - rewrite Inf, (SFleb_inf _ Ta), (SFleb_inf _ Tb). reflexivity.
  - destruct (difference_shape a b Va Vb Fa Fb) as [Inf|Nd].
    { rewrite Inf in D0. cbn [B2R] in D0. lra. }
    pose proof (Rmax_l (B2R (SFabs a)) (B2R (SFabs b))) as M1.
    pose proof (Rmax_r (B2R (SFabs a)) (B2R (SFabs b))) as M2.
    set (M := Rmax (B2R (SFabs a)) (B2R (SFabs b))) in *.
    assert (X1 : SFleb (SFabs (SFsub 53 1024 b a)) (tol (SFabs b)) = false).
    { apply not_true_is_false. intros C. apply (SFleb_spec _ _ Nd Tb) in C. nra. }
    assert (X2 : SFleb (SFabs (SFsub 53 1024 b a)) (tol (SFabs a)) = false).
    { apply not_true_is_false. intros C. apply (SFleb_spec _ _ Nd Ta) in C. nra. }
    assert (X3 : SFleb (SFabs (SFsub 53 1024 b a)) (S754_zero false) = false).
    { apply not_true_is_false. intros C.
      apply (SFleb_spec _ _ Nd (or_introl eq_refl)) in C. cbn [B2R] in C. lra. }
    rewrite X1, X2, X3. reflexivity.
Qed.

End NotClose.

(** ** Negative arguments *)

Section Negative.
Local Open Scope R_scope.

Variables (sg : bool) (mg : positive) (eg : Z).
Hypothesis Bg : bounded 53 1024 mg eg = true.

Lemma guess_magnitude :
  posf (S754_finite false mg eg)
  /\ valid (S754_finite sg mg eg)
  /\ B64.is_finite (S754_finite sg mg eg) = true.
Proof.
  split; [exists mg, eg; split; [reflexivity | exact Bg]|].
  split; [exact Bg | reflexivity].
Qed.

Lemma far_from_infinity s :
  valid (S754_infinity s)
  /\ isclose (S754_finite sg mg eg) (S754_infinity s) = false.
Proof. split; [reflexivity|]. destruct sg, s; reflexivity. Qed.

Lemma far_from_zero z :
  valid (S754_zero z) /\ isclose (S754_finite sg mg eg) (S754_zero z) = false.
Proof.
  split; [reflexivity|].
  destruct guess_magnitude as (Pg & Vg & Fg). pose proof (posf_pos _ Pg) as G0.
  pose proof rel_bounds as RB.
  apply not_close; try assumption; try reflexivity.
  - destruct sg; reflexivity.
  - right.
    change (SFabs (SFsub 53 1024 (S754_zero z) (S754_finite sg mg eg)))
      with (S754_finite false mg eg).
    change (SFabs (S754_finite sg mg eg)) with (S754_finite false mg eg).
    change (SFabs (S754_zero z)) with (S754_zero false).
    cbn [B2R] in *. split; [exact G0|].
    rewrite Rmax_left by lra. nra.
Qed.

Lemma far_from_opposite x b :
  rounded (negb sg) x b -> 0 < x -> valid b /\ isclose (S754_finite sg mg eg) b = false.
Proof.
  intros Rd X0.
  destruct guess_magnitude as (Pg & Vg & Fg). pose proof (posf_pos _ Pg) as G0.
  pose proof rel_bounds as RB.
  destruct (infinity_or_not (negb sg) b) as [->|Inf];
    [apply far_from_infinity|].
  destruct (rounded_error _ _ _ Rd X0 Inf) as (Vb & _ & [->|(p & e & ->)]);
    [apply far_from_zero|].
  split; [exact Vb|].
  assert (Pb : posf (S754_finite false p e))
    by (exists p, e; split; [reflexivity | exact Vb]).
  pose proof (posf_pos _ Pb) as B0.
  apply not_close; try assumption; try reflexivity.
  - destruct sg; reflexivity.
  - rewrite (sub_opposite sg p e mg eg). cbn [SFabs].
    set (ba := S754_finite false p e) in *.
    pose proof (add_rounded ba (S754_finite false mg eg) Pb Pg) as Ra.
    destruct (spec_float_eq_inf (SFadd 53 1024 ba (S754_finite false mg eg))) as [E|NI].
    + left. rewrite E. reflexivity.
    + right.
      assert (S0 : 0 < B2R ba + B2R (S754_finite false mg eg)) by lra.
      destruct (rounded_nonneg _ _ Ra S0 NI) as [Nd _].
      rewrite (nonnegf_abs _ Nd). pose proof (nonnegf_ge _ Nd) as D0.
      pose proof (rounded_nearest false _ _ (S754_finite false mg eg) Ra S0 NI
                                  (or_intror Pg)) as N1.
      pose proof (rounded_nearest false _ _ ba Ra S0 NI (or_intror Pb)) as N2.
      rewrite (Rabs_right (B2R (SFadd 53 1024 ba (S754_finite false mg eg))))
        in N1, N2 by lra.
      apply Rabs_le_inv in N1. apply Rabs_le_inv in N2.
      rewrite Rabs_left in N1, N2 by lra.
      assert (M : Rmax (B2R (S754_finite false mg eg)) (B2R ba)
                  <= B2R (SFadd 53 1024 ba (S754_finite false mg eg))).
      { apply Rmax_lub; lra. }
      assert (M0 : 0 < Rmax (B2R (S754_finite false mg eg)) (B2R ba)).
      { eapply Rlt_le_trans; [exact G0 | apply Rmax_l]. }
      split; [lra | nra].
Qed.

Lemma far_from_half x b :
  rounded sg x b ->
  0 < x <= B2R (S754_finite false mg eg) / 2 ->
  bpow (-1000) <= B2R (S754_finite false mg eg) ->
  valid b /\ isclose (S754_finite sg mg eg) b = false.
Proof.
  intros Rd [X0 XG] GL.
  destruct guess_magnitude as (Pg & Vg & Fg). pose proof (posf_pos _ Pg) as G0.
  pose proof rel_bounds as RB. pose proof u_small as [U0 U1].
  destruct (infinity_or_not sg b) as [->|Inf];
    [apply far_from_infinity|].
  destruct (rounded_error _ _ _ Rd X0 Inf) as (Vb & Er & [->|(p & e & ->)]);
    [apply far_from_zero|].
  split; [exact Vb|].
  assert (Pb : posf (S754_finite false p e))
    by (exists p, e; split; [reflexivity | exact Vb]).
  pose proof (posf_pos _ Pb) as B0.
  set (ba := S754_finite false p e) in *.
  assert (A : Rabs (B2R (S754_finite sg p e)) = B2R ba).
  { unfold ba. cbn [B2R]. pose proof (F2R_pos p e) as P. destruct sg; cbn [cond_Zopp].
    - change (- Zpos p)%Z with (Zneg p).
      replace (F2R (Zneg p) e) with (- F2R (Zpos p) e)
        by (unfold F2R; change (Zneg p) with (- Zpos p)%Z; rewrite opp_IZR; ring).
      rewrite Rabs_left; lra.
    - rewrite Rabs_right; lra. }
  rewrite A in Er. apply Rabs_le_inv in Er.
  assert (Eta : eta <= B2R (S754_finite false mg eg) / 1000).
  { unfold eta. pose proof (bpow_le (-1075) (-1010) ltac:(lia)).
    assert (bpow (-1000) = 1024 * bpow (-1010)).
    { replace (-1000)%Z with (10 + -1010)%Z by lia. rewrite bpow_add.
      rewrite <- (IZR_pow2 10) by lia. reflexivity. }
    pose proof (bpow_pos (-1010)). lra. }
  assert (Mx : Rmax (u * x) eta <= B2R (S754_finite false mg eg) / 1000).
  { apply Rmax_lub; [nra | exact Eta]. }
  assert (BU : B2R ba <= 51 / 100 * B2R (S754_finite false mg eg)) by lra.
  apply not_close; try assumption; try reflexivity.
  - rewrite eqb_same_sign. apply not_true_is_false. intros C.
    apply (SFeqb_spec (S754_finite false mg eg) ba (or_intror Pg) (or_intror Pb))
      in C.
    lra.
  - rewrite (sub_same_sign sg p e mg eg). cbn [SFabs]. fold ba.
    destruct (abs_sub_rounded (S754_finite false mg eg) ba Pg Pb)
      as [[E _]|[NE Rs]]; [lra|].
    destruct (spec_float_eq_inf
                (SFabs (SFsub 53 1024 ba (S754_finite false mg eg)))) as [E|NI];
      [left; exact E|right].
    rewrite Rabs_left in Rs by lra.
    destruct (rounded_half _ _ Rs NI) as [Nd Hd].
    + pose proof (posf_apart (S754_finite false mg eg) ba Pg Pb ltac:(lra)) as Ap.
      rewrite Rabs_left in Ap by lra. exact Ap.
    + rewrite Rmax_left by lra. split; nra.
Qed.

End Negative.

Lemma two_double : B64.of_Z 2 = S754_finite false 4503599627370496 (-51).
Proof. reflexivity. Qed.

Lemma half_rounded s m e :
  rounded s (F2R (Zpos m) e / 2) (B64.div (S754_finite s m e) (B64.of_Z 2)).
Proof.
  rewrite two_double. unfold B64.div, B64.prec, B64.emax.
  pose proof (div_signed s m e false 4503599627370496 (-51)) as H.
  rewrite xorb_false_r in H.
  replace (F2R 4503599627370496 (-51)) with 2%R in H; [exact H|].
  rewrite <- B2R_two. reflexivity.
Qed.

Lemma rounded_zero s x :
  rounded s x (S754_zero s) -> (0 < x)%R -> (x <= eta)%R.
Proof.
  intros Rd X0.
  destruct (rounded_error _ _ _ Rd X0 ltac:(discriminate)) as (_ & Er & _).
  cbn [B2R] in Er. rewrite Rabs_R0, Rminus_0_l, Rabs_Ropp, Rabs_right in Er by lra.
  pose proof u_small as [U0 U1].
  destruct (Rle_lt_dec x eta) as [|L]; [assumption|]. exfalso.
  assert (Rmax (u * x) eta < x)%R by (apply Rmax_lub_lt; nra). lra.
Qed.

Section NegativePass.
Local Open Scope R_scope.

Variables (mn : positive) (en : Z).
Hypothesis Bn : bounded 53 1024 mn en = true.

(** A pass from a finite guess goes on, with a valid guess. *)
Lemma negative_pass_finite sg mg eg :
  bounded 53 1024 mg eg = true ->
  exists b,
    better_guess (PyFloat (S754_finite true mn en)) (S754_finite sg mg eg) = Return b
    /\ valid b
    /\ isclose (S754_finite sg mg eg) b = false.
Proof.
  intros Bg.
  rewrite better_float by reflexivity.
  eexists. split; [reflexivity|].
  destruct (guess_magnitude sg mg eg Bg) as (Pg & Vg & Fg).
  assert (Pn : posf (S754_finite false mn en))
    by (exists mn, en; split; [reflexivity | exact Bn]).
  pose proof (posf_pos _ Pg) as G0. pose proof (posf_pos _ Pn) as N0.
  pose proof (posf_ge_min _ Pn) as NL.
  cbn [B2R cond_Zopp] in G0, N0, NL.
  set (G := F2R (Zpos mg) eg) in *. set (N := F2R (Zpos mn) en) in *.
  assert (X0 : 0 < N / G) by (apply Rdiv_lt_0_compat; assumption).
  pose proof (div_signed true mn en sg mg eg) as Rq.
  fold N G in Rq. replace (xorb true sg) with (negb sg) in Rq by (destruct sg; reflexivity).
  change (SFdiv 53 1024 (S754_finite true mn en) (S754_finite sg mg eg))
    with (B64.div (S754_finite true mn en) (S754_finite sg mg eg)) in Rq.
  set (q := B64.div (S754_finite true mn en) (S754_finite sg mg eg)) in *.
  pose proof (bpow_succ (-1075)) as E1. simpl Z.add in E1. fold eta in E1.
  pose proof (bpow_pos (-1075)) as E0. fold eta in E0.
  destruct (infinity_or_not (negb sg) q) as [Eq|Inf].
  { rewrite Eq. destruct sg; apply far_from_infinity. }
  destruct (rounded_error _ _ _ Rq X0 Inf) as (Vq & _ & [Eq|(mq & eq & Eq)]).
  - (* the quotient underflows to zero *)
    rewrite Eq in Rq |- *.
    replace (B64.add (S754_finite sg mg eg) (S754_zero (negb sg)))
      with (S754_finite sg mg eg) by (destruct sg; reflexivity).
    pose proof (rounded_zero _ _ Rq X0) as Z.
    assert (GL : 2 <= G).
    { assert (N <= eta * G).
      { apply Rmult_le_reg_r with (/ G); [apply Rinv_0_lt_compat; exact G0|].
        rewrite Rmult_assoc, Rinv_r, Rmult_1_r by lra. exact Z. }
      nra. }
    apply far_from_half with (x := G / 2); [exact Bg | apply half_rounded | |].
    + cbn [B2R cond_Zopp]. fold G. lra.
    + cbn [B2R cond_Zopp]. fold G. pose proof (bpow_le (-1000) 0 ltac:(lia)).
      rewrite bpow_0 in H. lra.
  - rewrite Eq in Rq, Vq |- *.
    assert (Pq : posf (S754_finite false mq eq))
      by (exists mq, eq; split; [reflexivity | exact Vq]).
    pose proof (posf_pos _ Pq) as Q0. cbn [B2R cond_Zopp] in Q0.
    pose proof (rounded_nearest _ _ _ _ Rq X0 ltac:(discriminate) (or_intror Pg)) as Nq.
    assert (Aq : Rabs (B2R (S754_finite (negb sg) mq eq)) = F2R (Zpos mq) eq).
    { cbn [B2R]. destruct sg; cbn [cond_Zopp negb].
      - rewrite Rabs_right; lra.
      - change (- Zpos mq)%Z with (Zneg mq).
        replace (F2R (Zneg mq) eq) with (- F2R (Zpos mq) eq)
          by (unfold F2R; change (Zneg mq) with (- Zpos mq)%Z; rewrite opp_IZR; ring).
        rewrite Rabs_left; lra. }
    rewrite Aq in Nq. cbn [B2R cond_Zopp] in Nq. fold G in Nq.
    set (Q := F2R (Zpos mq) eq) in *.
    pose proof (add_opposite sg mg eg mq eq) as Sum. cbv zeta in Sum. fold G Q in Sum.
    change (SFadd 53 1024 (S754_finite sg mg eg) (S754_finite (negb sg) mq eq))
      with (B64.add (S754_finite sg mg eg) (S754_finite (negb sg) mq eq)) in Sum.
    set (s := B64.add (S754_finite sg mg eg) (S754_finite (negb sg) mq eq)) in *.
    destruct Sum as [[_ Es]|[[Lt Rs]|[Lt Rs]]].
    + (* the sum is zero *)
      rewrite Es. change (B64.div (S754_zero false) (B64.of_Z 2)) with (S754_zero false).
      apply far_from_zero. exact Bg.
    + (* the sum has the sign of the guess *)
      assert (S0 : 0 < G - Q) by lra.
      destruct (infinity_or_not sg s) as [Es|Is].
      { rewrite Es. replace (B64.div (S754_infinity sg) (B64.of_Z 2))
          with (S754_infinity sg) by (destruct sg; reflexivity).
        apply far_from_infinity. }
      destruct (rounded_error _ _ _ Rs S0 Is) as (Vs & _ & [Es|(ms & es & Es)]).
      { rewrite Es. replace (B64.div (S754_zero sg) (B64.of_Z 2))
          with (S754_zero sg) by (destruct sg; reflexivity).
        apply far_from_zero. exact Bg. }
      pose proof (rounded_nearest _ _ _ _ Rs S0 Is (or_intror Pg)) as Ns.
      rewrite Es in Ns, Vs |- *.
      assert (Ps : posf (S754_finite false ms es))
        by (exists ms, es; split; [reflexivity | exact Vs]).
      pose proof (posf_pos _ Ps) as Sp. cbn [B2R cond_Zopp] in Sp.
      assert (As : Rabs (B2R (S754_finite sg ms es)) = F2R (Zpos ms) es).
      { cbn [B2R]. destruct sg; cbn [cond_Zopp].
        - change (- Zpos ms)%Z with (Zneg ms).
          replace (F2R (Zneg ms) es) with (- F2R (Zpos ms) es)
            by (unfold F2R; change (Zneg ms) with (- Zpos ms)%Z; rewrite opp_IZR; ring).
          rewrite Rabs_left; lra.
        - rewrite Rabs_right; lra. }
      rewrite As in Ns. cbn [B2R cond_Zopp] in Ns. fold G in Ns.
      replace (G - (G - Q)) with Q in Ns by ring. rewrite (Rabs_right Q) in Ns by lra.
      apply Rabs_le_inv in Ns.
      assert (GL : bpow (-537) < G).
      { destruct (Rlt_le_dec (bpow (-537)) G) as [|Le]; [assumption|]. exfalso.
        assert (P : bpow (-537) * bpow (-537) = bpow (-1074))
          by (rewrite <- bpow_add; reflexivity).
        pose proof (bpow_pos (-537)).
        assert (G * G <= N) by nra.
        assert (G <= N / G).
        { apply Rmult_le_reg_r with G; [exact G0|].
          unfold Rdiv. rewrite Rmult_assoc, Rinv_l, Rmult_1_r by lra. assumption. }
        rewrite (Rabs_left1 (G - N / G)) in Nq by lra.
        apply Rabs_le_inv in Nq. lra. }
      apply far_from_half with (x := F2R (Zpos ms) es / 2);
        [exact Bg | apply half_rounded | |].
      * cbn [B2R cond_Zopp]. fold G. lra.
      * cbn [B2R cond_Zopp]. fold G. pose proof (bpow_le (-1000) (-537) ltac:(lia)). lra.
    + (* the sum has the other sign *)
      assert (S0 : 0 < Q - G) by lra.
      destruct (infinity_or_not (negb sg) s) as [Es|Is].
      { rewrite Es. replace (B64.div (S754_infinity (negb sg)) (B64.of_Z 2))
          with (S754_infinity (negb sg)) by (destruct sg; reflexivity).
        apply far_from_infinity. }
      destruct (rounded_error _ _ _ Rs S0 Is) as (Vs & _ & [Es|(ms & es & Es)]).
      { rewrite Es. replace (B64.div (S754_zero (negb sg)) (B64.of_Z 2))
          with (S754_zero (negb sg)) by (destruct sg; reflexivity).
        apply far_from_zero. exact Bg. }
      rewrite Es.
      apply far_from_opposite with (x := F2R (Zpos ms) es / 2);
        [exact Bg | apply half_rounded |].
      pose proof (F2R_pos ms es). lra.
Qed.

End NegativePass.

Lemma rounded_valid s x z : rounded s x z -> (0 < x)%R -> valid z.
Proof.
  intros Rd X0. destruct (infinity_or_not s z) as [->|Inf]; [reflexivity|].
  apply (rounded_error _ _ _ Rd X0 Inf).
Qed.

Lemma negative_pass n g :
  negative_double n = true -> valid g ->
  match loop_body (PyFloat n) g with
  | Done r => B64.is_infinity r = true
  | Next b => valid b
  | Fail e => e = ZeroDivisionError
  end.
Proof.
  intros Hn Vg. destruct n as [s|s| |[|] mn en]; try discriminate.
  destruct g as [z|z| |sg mg eg].
  - reflexivity.
  - destruct z; reflexivity.
  - reflexivity.
  - destruct (negative_pass_finite mn en Hn sg mg eg Vg) as (b & E & Vb & C).
    unfold loop_body. rewrite E, C. exact Vb.
Qed.

Lemma negative_loop n verbose fuel :
  negative_double n = true ->
  forall g, valid g ->
  no_finite_result (snd (newton_loop fuel (PyFloat n) verbose g)).
Proof.
  intros Hn. induction fuel as [|fuel IH]; intros g Vg; [exact I|].
  pose proof (negative_pass n g Hn Vg) as P.
  cbn [newton_loop]. destruct (loop_body (PyFloat n) g) as [r|b|e].
  - exact P.
  - specialize (IH b P).
    destruct (newton_loop fuel (PyFloat n) verbose b) as [out res]. exact IH.
  - exact P.
Qed.

Lemma negative_call n fuel verbose :
  negative_double n = true ->
  no_finite_result (snd (newton_sqrt fuel (PyFloat n) verbose)).
Proof.
  intros Hn. rewrite newton_sqrt_float. apply negative_loop; [exact Hn|].
  destruct n as [s|s| |[|] mn en]; try discriminate.
  apply rounded_valid with (s := true) (x := (F2R (Zpos mn) en / 2)%R).
  - apply half_rounded.
  - pose proof (F2R_pos mn en). lra.
Qed.

(** ** The test is symmetric *)

Lemma SFcompare_swap a b :
  SFcompare b a = option_map CompOpp (SFcompare a b).
Proof.
  destruct a as [sa|sa| |sa ma ea], b as [sb|sb| |sb mb eb]; cbn [SFcompare option_map];
    try reflexivity;
    try (destruct sa; reflexivity); try (destruct sb; reflexivity);
    try (destruct sa, sb; reflexivity).
  rewrite (Z.compare_antisym ea eb).
  assert (P : Pos.compare_cont Eq mb ma = CompOpp (Pos.compare_cont Eq ma mb)).
  { rewrite !Pos.compare_cont_spec. cbn [Pos.switch_Eq].
    rewrite (Pos.compare_antisym ma mb).
    destruct (Pos.compare ma mb); reflexivity. }
  destruct sa, sb; try reflexivity;
    destruct (ea ?= eb); cbn [CompOpp]; try reflexivity; rewrite P;
      destruct (Pos.compare_cont Eq ma mb); reflexivity.
Qed.

Lemma SFeqb_sym a b : SFeqb a b = SFeqb b a.
Proof.
  unfold SFeqb. rewrite (SFcompare_swap a b).
  destruct (SFcompare a b) as [[| |]|]; reflexivity.
Qed.

Lemma isclose_sym a b : isclose a b = isclose b a.
Proof.
  unfold isclose, isclose_tol, B64.eqb, B64.leb, B64.abs, B64.sub, B64.mul,
    B64.prec, B64.emax.
  rewrite (SFeqb_sym a b). destruct (SFeqb b a); [reflexivity|].
  destruct (B64.is_infinity a) eqn:Ia, (B64.is_infinity b) eqn:Ib; try reflexivity.
  rewrite (SFabs_sub_sym b a Ib Ia).
  set (d := SFabs (SFsub 53 1024 a b)).
  destruct (SFleb d (SFabs (SFmul 53 1024 rel_tol_default b))),
           (SFleb d (SFabs (SFmul 53 1024 rel_tol_default a))); reflexivity.
Qed.

(** ** Negative [int] arguments *)

Lemma pack_opp m e : pack true m e = SFopp (pack false m e).
Proof.
  unfold pack. destruct (shr_fexp 53 1024 m e loc_Exact) as [mrs e'].
  destruct (shr_m mrs); try reflexivity.
  destruct (e' <=? 971); reflexivity.
Qed.

Lemma binary_round_aux_opp m e l :
  binary_round_aux 53 1024 true m e l = SFopp (binary_round_aux 53 1024 false m e l).
Proof. rewrite !binary_round_aux_pack. apply pack_opp. Qed.

Lemma binary_round_opp m e :
  binary_round 53 1024 true m e = SFopp (binary_round 53 1024 false m e).
Proof.
  unfold binary_round.
  destruct (shl_align m e (fexp 53 1024 (Zpos (digits2_pos m) + e))) as [mz ez].
  apply binary_round_aux_opp.
Qed.

Lemma of_Z_opp p : B64.of_Z (Zneg p) = SFopp (B64.of_Z (Zpos p)).
Proof. apply binary_round_opp. Qed.

Lemma div_opp mx ex my ey :
  B64.div (S754_finite true mx ex) (S754_finite false my ey)
  = SFopp (B64.div (S754_finite false mx ex) (S754_finite false my ey)).
Proof.
  unfold B64.div, SFdiv.
  destruct (SFdiv_core_binary B64.prec B64.emax (Zpos mx) ex (Zpos my) ey)
    as [[q e'] l].
  apply binary_round_aux_opp.
Qed.

Section NegativeInt.

Variable p : positive.
Hypothesis Hp : Zpos p < 2 ^ 53.

Lemma of_Z_negative :
  exists m e,
    B64.of_Z (Zpos p) = S754_finite false m e
    /\ B64.of_Z (Zneg p) = S754_finite true m e
    /\ bounded 53 1024 m e = true.
Proof.
  destruct (of_Z_small (Zpos p) ltac:(lia)) as [(m & e & E & B) _].
  exists m, e. split; [exact E|]. split; [|exact B].
  rewrite of_Z_opp, E. reflexivity.
Qed.

Lemma as_float_negative : as_float (PyInt (Zneg p)) = Return (B64.of_Z (Zneg p)).
Proof.
  destruct of_Z_negative as (m & e & _ & E & _). unfold as_float. rewrite E. reflexivity.
Qed.

Lemma int_half_negative :
  int_truediv (Zneg p) 2 = Return (B64.div (B64.of_Z (Zneg p)) (B64.of_Z 2)).
Proof.
  destruct of_Z_negative as (m & e & E1 & E2 & _).
  pose proof (int_half_small (Zpos p) ltac:(lia)) as H.
  unfold int_truediv in H |- *. cbn [Z.eqb int_operand] in H |- *.
  rewrite E2. rewrite E1 in H. rewrite two_double in H |- *.
  rewrite (div_opp p 0 2 0), (div_opp m e 4503599627370496 (-51)).
  set (fp := B64.div (S754_finite false p 0) (S754_finite false 2 0)) in *.
  set (fm := B64.div (S754_finite false m e)
                     (S754_finite false 4503599627370496 (-51))) in *.
  clearbody fp fm.
  destruct (B64.is_infinity fp) eqn:I; [discriminate H|].
  injection H as <-.
  replace (B64.is_infinity (SFopp fp)) with false; [reflexivity|].
  destruct fp; first [reflexivity | discriminate I].
Qed.

Lemma loop_body_negative g :
  loop_body (PyInt (Zneg p)) g = loop_body (PyFloat (B64.of_Z (Zneg p))) g.
Proof.
  unfold loop_body, better_guess, truediv. rewrite as_float_negative. reflexivity.
Qed.

Lemma newton_loop_negative fuel verbose :
  forall g, newton_loop fuel (PyInt (Zneg p)) verbose g
            = newton_loop fuel (PyFloat (B64.of_Z (Zneg p))) verbose g.
Proof.
  induction fuel as [|fuel IH]; intros g; cbn [newton_loop]; [reflexivity|].
  rewrite loop_body_negative.
  destruct (loop_body (PyFloat (B64.of_Z (Zneg p))) g); try reflexivity.
  rewrite IH. reflexivity.
Qed.

Lemma newton_sqrt_negative fuel verbose :
  newton_sqrt fuel (PyInt (Zneg p)) verbose
  = newton_sqrt fuel (PyFloat (B64.of_Z (Zneg p))) verbose.
Proof.
  unfold newton_sqrt at 1. unfold truediv. rewrite int_half_negative.
  rewrite newton_loop_negative. reflexivity.
Qed.

End NegativeInt.

(** ** [int] arguments of 2^53 and more *)

Section AnyFirstGuess.
Local Open Scope R_scope.

Variables n g0 : spec_float.
Hypothesis Hn : posf n.
Hypothesis HN : bpow (-1073) <= B2R n.
Hypothesis Hg : posf g0.
Hypothesis G1 : B2R n / 4 <= B2R g0 <= B2R n.
Hypothesis G2 : B2R g0 <= bpow 1023.

(** The loop returns an accurate value from any first guess between
    [n / 4] and [n]. *)
Lemma run_from_first_guess :
  exists tr r,
    run (PyFloat n) g0 tr (Return r)
    /\ posf r
    /\ Rabs (B2R r - root n) <= 5 * u * root n.
Proof.
  destruct G1 as [GL GU].
  pose proof (posf_pos _ Hn) as N0. pose proof (posf_pos _ Hg) as G0.
  pose proof (root_pos n Hn) as S0.
  pose proof (root_upper n Hn) as SU.
  pose proof (root_lower n Hn HN) as SL.
  pose proof (root_sqr n Hn) as SS.
  pose proof u_small as [U0 U1].
  set (s := root n) in *.
  assert (Hd : B2R n <= bpow 1000 * B2R g0).
  { pose proof (bpow_le 2 1000 ltac:(lia)).
    assert (bpow 2 = 4).
    { pose proof (bpow_succ 1) as P. simpl Z.add in P. rewrite bpow_1 in P. lra. }
    nra. }
  destruct (pass_value n Hn HN g0 Hg Hd G2) as (b & h & E & Pb & Hh & Hb).
  fold s in Hh.
  assert (BLo : s * (1 - 4 * u) <= B2R b).
  { apply (B_lower s (B2R g0) h (B2R b)); first [assumption | exact S0 | exact G0]. }
  assert (Gb : good n b).
  { split; [exact Pb|]. split; [exact BLo|].
    apply Rabs_le_inv in Hb.
    pose proof (bpow_succ 1022) as P2. simpl Z.add in P2.
    pose proof (bpow_le 3 1022 ltac:(lia)).
    assert (bpow 3 = 8).
    { pose proof (bpow_succ 1) as P; pose proof (bpow_succ 2) as P'.
      simpl Z.add in P, P'. rewrite bpow_1 in P. lra. }
    assert (2 * h * B2R g0 <= (B2R g0 + 4) * B2R g0) by nra.
    assert (2 * h <= B2R g0 + 4) by nra.
    nra. }
  assert (BM : bpow (-1030) <= B2R b).
  { pose proof (bpow_le (-1030) (-538) ltac:(lia)).
    pose proof (bpow_succ (-538)) as P. simpl Z.add in P. nra. }
  destruct (isclose g0 b) eqn:C.
  - exists [g0], b. split; [|split; [exact Pb|]].
    + apply run_done. unfold loop_body. rewrite E, C. reflexivity.
    + apply (close_is_accurate s (B2R g0) h (B2R b));
        first [assumption | apply isclose_elim; assumption].
  - destruct (good_terminates n Hn HN (S (Z.to_nat (ord b))) b Gb ltac:(lia))
      as (tr & r & Hr & _ & _ & _ & Pr & Ar).
    exists (g0 :: tr), r. split; [|split; assumption].
    apply run_next with b; [|exact Hr]. unfold loop_body. rewrite E, C. reflexivity.
Qed.

End AnyFirstGuess.

Lemma loop_body_int z f g :
  as_float (PyInt z) = Return f ->
  loop_body (PyInt z) g = loop_body (PyFloat f) g.
Proof.
  intros A. unfold loop_body, better_guess, truediv. rewrite A. reflexivity.
Qed.

Lemma newton_loop_int z f fuel verbose :
  as_float (PyInt z) = Return f ->
  forall g, newton_loop fuel (PyInt z) verbose g
            = newton_loop fuel (PyFloat f) verbose g.
Proof.
  intros A. induction fuel as [|fuel IH]; intros g; cbn [newton_loop]; [reflexivity|].
  rewrite (loop_body_int z f g A).
  destruct (loop_body (PyFloat f) g); try reflexivity.
  rewrite IH. reflexivity.
Qed.

Section FiniteInt.
Local Open Scope R_scope.

Variable p : positive.
Hypothesis Hp : (Zpos p < 2 ^ 1024 - 2 ^ 970)%Z.

Lemma finite_int_bound : 1 <= IZR (Zpos p) < bpow 1024 - bpow 970.
Proof.
  split; [apply IZR_le; lia|].
  rewrite <- (IZR_pow2 1024), <- (IZR_pow2 970), <- minus_IZR by lia.
  apply IZR_lt. exact Hp.
Qed.

Lemma of_Z_finite :
  posf (B64.of_Z (Zpos p))
  /\ Rabs (B2R (B64.of_Z (Zpos p)) - IZR (Zpos p)) <= u * IZR (Zpos p).
Proof.
  destruct finite_int_bound as [L U].
  assert (V : F2R (Zpos p) 0 = IZR (Zpos p)) by (unfold F2R; rewrite bpow_0; ring).
  pose proof (binary_round_rounded false p 0) as Rd. rewrite V in Rd.
  apply rounded_normal; [exact Rd | |].
  - pose proof (bpow_le (-1022) 0 ltac:(lia)) as B. rewrite bpow_0 in B. lra.
  - apply rounded_no_overflow with (x := IZR (Zpos p)); assumption.
Qed.

Lemma double_2_1023 :
  posf (S754_finite false 4503599627370496 971)
  /\ B2R (S754_finite false 4503599627370496 971) = bpow 1023.
Proof.
  split; [apply positive_double_posf; reflexivity|].
  unfold B2R, F2R. cbn [cond_Zopp]. change 4503599627370496%Z with (2 ^ 52)%Z.
  rewrite (IZR_pow2 52), <- bpow_add by lia. reflexivity.
Qed.

Lemma int_half_finite :
  exists g0,
    int_truediv (Zpos p) 2 = Return g0
    /\ posf g0
    /\ Rabs (B2R g0 - IZR (Zpos p) / 2) <= u * (IZR (Zpos p) / 2)
    /\ B2R g0 <= bpow 1023.
Proof.
  destruct finite_int_bound as [L U].
  assert (V : F2R (Zpos p) 0 / F2R 2 0 = IZR (Zpos p) / 2).
  { unfold F2R. rewrite bpow_0. field. }
  pose proof (div_rounded_raw p 0 2 0) as Rd. rewrite V in Rd.
  pose proof (bpow_pos 970) as P970.
  pose proof (bpow_succ 1023) as P1. simpl Z.add in P1.
  assert (NI : SFdiv 53 1024 (S754_finite false p 0) (S754_finite false 2 0)
               <> S754_infinity false).
  { apply rounded_no_overflow with (x := IZR (Zpos p) / 2); [exact Rd | lra]. }
  destruct (rounded_normal _ _ Rd) as [Pg Eg]; [|exact NI|].
  - pose proof (bpow_le (-1022) (-1) ltac:(lia)) as B.
    assert (bpow (-1) = / 2).
    { pose proof (bpow_succ (-1)) as Q. simpl Z.add in Q. rewrite bpow_0 in Q. lra. }
    lra.
  - eexists. split; [|split; [exact Pg | split; [exact Eg|]]].
    + unfold int_truediv. cbn [Z.eqb int_operand].
      unfold B64.div, B64.prec, B64.emax. rewrite (posf_not_inf _ Pg). reflexivity.
    + destruct double_2_1023 as [Pf Ef].
      pose proof (rounded_nearest false _ _ _ Rd ltac:(lra) NI (or_intror Pf)) as Nr.
      pose proof (posf_pos _ Pg) as G0.
      rewrite Ef, (Rabs_right (B2R _)) in Nr by lra.
      rewrite (Rabs_right (bpow 1023 - _)) in Nr by lra.
      apply Rabs_le_inv in Nr. lra.
Qed.

(** A positive [int] that converts to a finite [float]: the call
    returns a value within seven roundoffs of its true square root. *)
Lemma finite_int_accurate :
  exists tr r,
    (forall verbose k,
        newton_sqrt (length tr + k) (PyInt (Zpos p)) verbose
        = ((if verbose then tr else []), Some (Return r)))
    /\ posf r
    /\ Rabs (B2R r - sqrt (IZR (Zpos p))) <= 7 * u * sqrt (IZR (Zpos p)).
Proof.
  destruct finite_int_bound as [L U].
  destruct of_Z_finite as [Pn En].
  destruct int_half_finite as (g0 & Eg & Pg & Vg & Mg).
  pose proof u_small as [U0 U1].
  set (z := IZR (Zpos p)) in *. set (n := B64.of_Z (Zpos p)) in *.
  apply Rabs_le_inv in En. apply Rabs_le_inv in Vg.
  pose proof (bpow_succ 1023) as P1. simpl Z.add in P1.
  pose proof (bpow_pos 970) as P2. pose proof (bpow_lt 970 1023 ltac:(lia)) as P3.
  assert (E970 : u * bpow 1023 = bpow 970) by (unfold u; rewrite <- bpow_add; reflexivity).
  assert (HN : bpow (-1073) <= B2R n).
  { pose proof (bpow_le (-1073) (-1) ltac:(lia)) as B.
    assert (bpow (-1) = / 2).
    { pose proof (bpow_succ (-1)) as Q. simpl Z.add in Q. rewrite bpow_0 in Q. lra. } nra. }
  destruct (run_from_first_guess n g0 Pn HN Pg) as (tr & r & Run & Pr & Acc).
  - split; nra.
  - exact Mg.
  - assert (A : as_float (PyInt (Zpos p)) = Return n).
    { unfold as_float. fold n. rewrite (posf_not_inf _ Pn). reflexivity. }
    exists tr, r. split; [|split; [exact Pr|]].
    + intros verbose k. unfold newton_sqrt. cbn [truediv]. rewrite Eg.
      rewrite (newton_loop_int _ _ _ _ A). apply run_newton_loop. exact Run.
    + pose proof (root_pos n Pn) as S0. pose proof (root_sqr n Pn) as SS.
      assert (Z0 : 0 < sqrt z) by (apply sqrt_lt_R0; lra).
      assert (ZZ : sqrt z * sqrt z = z) by (apply sqrt_sqrt; lra).
      assert (Band : Rabs (root n - sqrt z) <= u * sqrt z).
      { apply (root_band (root n) (sqrt z) (B2R n) Z0 S0 SS).
        rewrite ZZ. apply Rabs_le. lra. }
      apply Rabs_le_inv in Band. apply Rabs_le_inv in Acc.
      set (s := root n) in *. set (t := sqrt z) in *.
      apply Rabs_le. split; nra.
Qed.

End FiniteInt.

Lemma negative_int_call p fuel verbose :
  Zpos p < int_limit ->
  no_finite_result (snd (newton_sqrt fuel (PyInt (Zneg p)) verbose)).
Proof.
  intros Hp.
  destruct (of_Z_finite p Hp) as [(m & e & E & B) _].
  destruct (int_half_finite p Hp) as (g0 & Eg & (mg & eg & -> & Bg) & _).
  assert (En : B64.of_Z (Zneg p) = S754_finite true m e)
    by (rewrite of_Z_opp, E; reflexivity).
  assert (A : as_float (PyInt (Zneg p)) = Return (S754_finite true m e)).
  { unfold as_float. rewrite En. reflexivity. }
  assert (H : int_truediv (Zneg p) 2 = Return (S754_finite true mg eg)).
  { unfold int_truediv in Eg |- *. cbn [Z.eqb int_operand] in Eg |- *.
    rewrite (div_opp p 0 2 0).
    set (fp := B64.div (S754_finite false p 0) (S754_finite false 2 0)) in *.
    clearbody fp.
    destruct (B64.is_infinity fp); [discriminate Eg|].
    injection Eg as ->. reflexivity. }
  unfold newton_sqrt. cbn [truediv]. rewrite H.
  rewrite (newton_loop_int _ _ _ _ A).
  apply negative_loop; [exact B | exact Bg].
Qed.

Lemma negative_arg_call n fuel verbose :
  negative_arg n = true ->
  no_finite_result (snd (newton_sqrt fuel n verbose)).
Proof.
  destruct n as [z|f]; cbn [negative_arg]; [|apply negative_call].
  rewrite andb_true_iff, Z.ltb_lt, Z.ltb_lt. intros [L U].
  destruct z as [|p|p]; try lia.
  apply negative_int_call. lia.
Qed.

Lemma positive_int_accurate z :
  (0 <? z) && (z <? int_limit) = true ->
  exists tr r,
    (forall verbose k,
        newton_sqrt (length tr + k) (PyInt z) verbose
        = ((if verbose then tr else []), Some (Return r)))
    /\ posf r
    /\ (Rabs (B2R r - sqrt (IZR z)) <= 7 * u * sqrt (IZR z))%R.
Proof.
  rewrite andb_true_iff, Z.ltb_lt, Z.ltb_lt. intros [L U].
  destruct z as [|p|p]; try lia.
  apply finite_int_accurate. exact U.
Qed.

(** ** Neighbouring doubles *)




(** ** The further properties, one by one *)

(** X1.  For every positive argument [n] other than 5e-324 (a finite
    [float], or an [int] below 2^53), [newton_sqrt(n)] returns a
    positive double within the relative error [5 * 2^-53] of the true
    square root of [n]. *)
Theorem result_within_five_roundoffs (n : pynum) :
  in_domain n = true ->
  exists r,
    returns n r
    /\ positive_double r = true
    /\ (Rabs (B2R r - root (float_of n)) <= 5 * bpow (-53) * root (float_of n))%R.
Proof.
  intros D. destruct (in_domain_accurate n D) as (tr & r & S & Rt & _).
  destruct S as (_ & _ & _ & _ & _ & Pr & Acc).
  exists r. split; [exact Rt|]. split; [apply positive_double_posf; exact Pr | exact Acc].
Qed.

Lemma result_within_five_roundoffs_at_100 :
  in_domain (PyInt 100) = true
  /\ exists r,
       returns (PyInt 100) r
       /\ positive_double r = true
       /\ (Rabs (B2R r - root (float_of (PyInt 100)))
           <= 5 * bpow (-53) * root (float_of (PyInt 100)))%R.
Proof.
  split; [reflexivity|].
  apply (result_within_five_roundoffs (PyInt 100)). reflexivity.
Defined.

(** X2.  For every positive argument [n] other than 5e-324 (a finite
    [float], or an [int] below 2^53), [math.sqrt(n)] returns a value,
    [math.isclose(newton_sqrt(n), math.sqrt(n))] is [True], and the two
    differ by at most [6 * 2^-53] times the true square root. *)
Theorem result_close_to_math_sqrt (n : pynum) :
  in_domain n = true ->
  exists r m,
    returns n r
    /\ math_sqrt n = Return m
    /\ isclose r m = true
    /\ (Rabs (B2R r - B2R m) <= 6 * bpow (-53) * root (float_of n))%R.
Proof.
  intros D. destruct (in_domain_accurate n D) as (tr & r & S & Rt & Hn & HN).
  destruct S as (_ & _ & _ & _ & _ & Pr & Acc).
  destruct (math_sqrt_value n D) as (Em & Pm & Am).
  pose proof (root_pos _ Hn) as S0. pose proof (root_lower _ Hn HN) as SL.
  pose proof u_small as [U0 U1]. fold u.
  set (s := root (float_of n)) in *. set (m := B64.sqrt (float_of n)) in *.
  apply Rabs_le_inv in Acc. apply Rabs_le_inv in Am.
  assert (Er : (Rabs (B2R r - B2R m) <= 6 * u * s)%R) by (apply Rabs_le; split; lra).
  exists r, m. split; [exact Rt|]. split; [exact Em|]. split; [|exact Er].
  apply isclose_intro; try assumption.
  - pose proof (bpow_le (-1030) (-538) ltac:(lia)).
    pose proof (bpow_succ (-538)) as Q. simpl Z.add in Q. nra.
  - rewrite Rabs_minus_sym. eapply Rle_trans; [exact Er|]. nra.
Qed.

Lemma result_close_to_math_sqrt_at_100 :
  in_domain (PyInt 100) = true
  /\ exists r m,
       returns (PyInt 100) r
       /\ math_sqrt (PyInt 100) = Return m
       /\ isclose r m = true
       /\ (Rabs (B2R r - B2R m) <= 6 * bpow (-53) * root (float_of (PyInt 100)))%R.
Proof.
  split; [reflexivity|].
  apply (result_close_to_math_sqrt (PyInt 100)). reflexivity.
Defined.

(** X3.  Every pass follows Newton's map within four roundoffs: in a
    call with a positive argument [n] other than 5e-324, each guess [y]
    computed from the guess [x] before it (the value returned
    included) satisfies
    [|y - (s + (x - s)^2 / (2 x))| <= 2^-51 * (s + (x - s)^2 / (2 x))]
    for [s] the true square root of [n]. *)
Theorem passes_follow_newton_map (n : pynum) :
  in_domain n = true ->
  exists fuel tr r,
    (forall k, newton_sqrt (fuel + k) n true = (tr, Some (Return r)))
    /\ chain (quadratic_pass (root (float_of n))) (tr ++ [r]).
Proof.
  intros D. destruct (call_trace n D) as (tr & r & Run & Q & _).
  exists (length tr), tr, r. split; [|exact Q].
  intros k. apply (Run k true).
Qed.

Lemma passes_follow_newton_map_at_100 :
  in_domain (PyInt 100) = true
  /\ exists fuel tr r,
       (forall k, newton_sqrt (fuel + k) (PyInt 100) true = (tr, Some (Return r)))
       /\ chain (quadratic_pass (root (float_of (PyInt 100)))) (tr ++ [r]).
Proof.
  split; [reflexivity|].
  apply (passes_follow_newton_map (PyInt 100)). reflexivity.
Defined.

(** X4.  The guesses printed after the first decrease strictly, in a
    call with a positive argument other than 5e-324. *)
Theorem later_guesses_decrease (n : pynum) :
  in_domain n = true ->
  exists fuel tr r,
    (forall k, newton_sqrt (fuel + k) n true = (tr, Some (Return r)))
    /\ chain (fun x y => (B2R y < B2R x)%R) (tl tr).
Proof.
  intros D. destruct (call_trace n D) as (tr & r & Run & _ & Dec).
  exists (length tr), tr, r. split; [|exact Dec].
  intros k. apply (Run k true).
Qed.

Lemma later_guesses_decrease_at_100 :
  in_domain (PyInt 100) = true
  /\ exists fuel tr r,
       (forall k, newton_sqrt (fuel + k) (PyInt 100) true = (tr, Some (Return r)))
       /\ chain (fun x y => (B2R y < B2R x)%R) (tl tr).
Proof.
  split; [reflexivity|].
  apply (later_guesses_decrease (PyInt 100)). reflexivity.
Defined.

(** X5.  A call with a positive argument other than 5e-324 returns
    within 547 passes of the loop; 542 passes are needed for
    [n = 2^-1073]. *)
Theorem returns_within_547_passes (n : pynum) :
  in_domain n = true ->
  (exists r, forall verbose,
      snd (newton_sqrt 547 n verbose) = Some (Return r))
  /\ snd (newton_sqrt 541 (PyFloat (S754_finite false 2 (-1074))) false) = None.
Proof.
  intros D. split; [|vm_compute; reflexivity].
  destruct (admissible_spec _ (in_domain_admissible n D)) as [Hn HN].
  destruct (call_passes _ Hn HN) as (tr & r & Run & Len).
  exists r. intros verbose.
  rewrite (positive_arg_newton_sqrt n _ _ (in_domain_positive n D)).
  replace 547%nat with (length tr + (547 - length tr))%nat by lia.
  rewrite (newton_sqrt_run _ tr _ Run). reflexivity.
Qed.

Lemma returns_within_547_passes_at_100 :
  in_domain (PyInt 100) = true
  /\ (exists r, forall verbose,
         snd (newton_sqrt 547 (PyInt 100) verbose) = Some (Return r))
  /\ snd (newton_sqrt 541 (PyFloat (S754_finite false 2 (-1074))) false) = None.
Proof.
  split; [reflexivity|].
  apply (returns_within_547_passes (PyInt 100)). reflexivity.
Defined.

(** X6.  For an argument that is an infinity or NaN the loop never
    ends: whatever the number of passes, nothing has been returned or
    raised. *)
Theorem not_finite_argument_loops (n : float) :
  B64.is_finite n = false ->
  forall fuel verbose, snd (newton_sqrt fuel (PyFloat n) verbose) = None.
Proof. intros F fuel verbose. apply not_finite_loops. exact F. Qed.

Lemma not_finite_argument_loops_at_infinity :
  B64.is_finite B64.infinity = false
  /\ forall fuel verbose,
       snd (newton_sqrt fuel (PyFloat B64.infinity) verbose) = None.
Proof.
  split; [reflexivity|].
  apply (not_finite_argument_loops B64.infinity). reflexivity.
Defined.

(** X7.  For an [int] argument too large for a [float], of magnitude
    2^1024 - 2^970 or more, the call raises [OverflowError], in [n / 2]
    or in the first [n/guess]. *)
Theorem big_int_raises_OverflowError (z : Z) :
  (int_limit <=? Z.abs z) = true ->
  forall fuel verbose,
    snd (newton_sqrt (S fuel) (PyInt z) verbose) = Some (Raise OverflowError).
Proof.
  intros H fuel verbose. apply big_int_raises. apply Z.leb_le. exact H.
Qed.

Lemma big_int_raises_OverflowError_at_2_1024 :
  (int_limit <=? Z.abs (2 ^ 1024)) = true
  /\ forall fuel verbose,
       snd (newton_sqrt (S fuel) (PyInt (2 ^ 1024)) verbose)
       = Some (Raise OverflowError).
Proof.
  split; [vm_compute; reflexivity|].
  apply (big_int_raises_OverflowError (2 ^ 1024)). vm_compute. reflexivity.
Defined.

(** X8.  For a negative argument (a finite [float], or an [int] that
    converts to one) no finite value is ever returned: after any number of passes
    the call is still looping, or has raised [ZeroDivisionError], or
    has returned an infinity. *)
Theorem negative_argument_no_finite_result (n : pynum) :
  negative_arg n = true ->
  forall fuel verbose, no_finite_result (snd (newton_sqrt fuel n verbose)).
Proof. intros H fuel verbose. apply negative_arg_call. exact H. Qed.

Lemma negative_argument_no_finite_result_at_minus_4 :
  negative_arg (PyInt (-4)) = true
  /\ forall fuel verbose,
       no_finite_result (snd (newton_sqrt fuel (PyInt (-4)) verbose)).
Proof.
  split; [reflexivity|].
  apply (negative_argument_no_finite_result (PyInt (-4))). reflexivity.
Defined.



(** X10.  Round trip: for a positive double [x] of at least 2^-511
    whose square does not overflow, [newton_sqrt(x * x)] returns a value
    that is close to [x] under the default tolerance, within the
    relative error [7 * 2^-53]. *)
Theorem sqrt_of_square (x : float) :
  positive_double x = true ->
  B64.leb least_normal_root x = true ->
  B64.is_infinity (B64.mul x x) = false ->
  exists r,
    returns (PyFloat (B64.mul x x)) r
    /\ isclose r x = true
    /\ (Rabs (B2R r - B2R x) <= 7 * bpow (-53) * B2R x)%R.
Proof.
  intros Px L F. apply positive_double_posf in Px.
  apply sqrt_of_square_close; try assumption.
  assert (Pl : posf least_normal_root) by (apply positive_double_posf; reflexivity).
  apply (SFleb_spec _ _ (or_intror Pl) (or_intror Px)) in L.
  replace (bpow (-511)) with (B2R least_normal_root); [exact L|].
  unfold least_normal_root, B2R, F2R. cbn [cond_Zopp].
  change 4503599627370496 with (2 ^ 52).
  rewrite (IZR_pow2 52), <- bpow_add by lia. reflexivity.
Qed.

Lemma sqrt_of_square_at_10 :
  positive_double (B64.of_Z 10) = true
  /\ B64.leb least_normal_root (B64.of_Z 10) = true
  /\ B64.is_infinity (B64.mul (B64.of_Z 10) (B64.of_Z 10)) = false
  /\ exists r,
       returns (PyFloat (B64.mul (B64.of_Z 10) (B64.of_Z 10))) r
       /\ isclose r (B64.of_Z 10) = true
       /\ (Rabs (B2R r - B2R (B64.of_Z 10)) <= 7 * bpow (-53) * B2R (B64.of_Z 10))%R.
Proof.
  split; [reflexivity|]. split; [reflexivity|]. split; [reflexivity|].
  apply (sqrt_of_square (B64.of_Z 10)); reflexivity.
Defined.

(** X11.  The closeness test does not depend on the order of its
    arguments: [math.isclose(guess, better_guess)] and
    [math.isclose(better_guess, guess)] agree on all doubles,
    infinities and NaN included. *)
Theorem isclose_symmetric (a b : float) : isclose a b = isclose b a.
Proof. apply isclose_sym. Qed.

(** X12.  An [int] argument of magnitude below 2^53 is treated exactly
    as the [float] of the same value: the same guesses are printed and
    the call ends in the same way. *)
Theorem int_argument_as_float (z : Z) :
  (- 2 ^ 53 <? z) && (z <? 2 ^ 53) = true ->
  (forall fuel verbose,
      newton_sqrt fuel (PyInt z) verbose
      = newton_sqrt fuel (PyFloat (B64.of_Z z)) verbose)
  /\ B2R (B64.of_Z z) = IZR z.
Proof.
  rewrite andb_true_iff, Z.ltb_lt, Z.ltb_lt. intros [L U].
  destruct z as [|p|p].
  - split; [|reflexivity]. intros [|fuel] verbose; reflexivity.
  - split.
    + intros fuel verbose. apply newton_sqrt_small. lia.
    + apply of_Z_small. lia.
  - split.
    + intros fuel verbose. apply newton_sqrt_negative. lia.
    + destruct (of_Z_negative p ltac:(lia)) as (m & e & E1 & E2 & _).
      destruct (of_Z_small (Zpos p) ltac:(lia)) as [_ V].
      rewrite E1 in V. rewrite E2. cbn [B2R cond_Zopp] in V |- *.
      change (Zneg p) with (- Zpos p). rewrite opp_IZR, <- V.
      unfold F2R. change (- Zpos m) with (Zneg m).
      change (Zneg m) with (- Zpos m). rewrite opp_IZR. ring.
Qed.

Lemma int_argument_as_float_at_100 :
  (- 2 ^ 53 <? 100) && (100 <? 2 ^ 53) = true
  /\ (forall fuel verbose,
         newton_sqrt fuel (PyInt 100) verbose
         = newton_sqrt fuel (PyFloat (B64.of_Z 100)) verbose)
  /\ B2R (B64.of_Z 100) = IZR 100.
Proof.
  split; [reflexivity|].
  apply (int_argument_as_float 100). reflexivity.
Defined.

(** X13.  For every positive [int] that converts to a [float], those
    of 2^53 and more included, the call returns a positive double
    within the relative error [7 * 2^-53] of the true square root. *)
Theorem positive_int_within_seven_roundoffs (z : Z) :
  (0 <? z) && (z <? int_limit) = true ->
  exists r,
    returns (PyInt z) r
    /\ positive_double r = true
    /\ (Rabs (B2R r - sqrt (IZR z)) <= 7 * bpow (-53) * sqrt (IZR z))%R.
Proof.
  intros H. destruct (positive_int_accurate z H) as (tr & r & Run & Pr & Acc).
  exists r. split; [|split; [apply positive_double_posf; exact Pr | exact Acc]].
  exists (length tr + 0)%nat. rewrite (Run false 0%nat). reflexivity.
Qed.

Lemma positive_int_within_seven_roundoffs_at_10_30 :
  (0 <? 10 ^ 30) && (10 ^ 30 <? int_limit) = true
  /\ exists r,
       returns (PyInt (10 ^ 30)) r
       /\ positive_double r = true
       /\ (Rabs (B2R r - sqrt (IZR (10 ^ 30)))
           <= 7 * bpow (-53) * sqrt (IZR (10 ^ 30)))%R.
Proof.
  split; [vm_compute; reflexivity|].
  apply (positive_int_within_seven_roundoffs (10 ^ 30)). vm_compute. reflexivity.
Defined.


